(** * spotify_playlist_generator: a shallow embedding and its properties

    The program is a Python script that talks to a remote REST service,
    keeps a small JSON document on disk and prints to the console.  The
    embedding has three layers:

    - [Py]: the fragment of Python's data model the script relies on
      (JSON values, truthiness, [==], [<], subscripts, [dict.get], ...);
    - [World]: everything outside the interpreter (the remote side, the
      state file, the console, the clock) together with a state-and-
      exception monad [M] in which the script's functions are written;
    - the functions of [spotify_playlist_generator.py], one definition
      per function, keeping the names and the statement order.

    Scope of the model.  Text rendering is not modelled: an f-string is
    kept as the sequence of its literal and interpolated parts.  Floats
    are exact rationals.  Strings are byte strings; case mapping and
    whitespace are those of ASCII.  Failures of the file system other
    than a missing or unparsable state file are not modelled. *)

From Stdlib Require Import List String Ascii ZArith QArith Bool Arith Lia.
From Stdlib Require Import Permutation Sorted.
Import ListNotations.

Set Warnings "-register-all".
Close Scope Q_scope.
Open Scope Z_scope.
Open Scope string_scope.
Open Scope list_scope.

(** ** Python values and exceptions *)

Module Py.

(** The exception classes the script can meet.  [RequestException] is
    the only one it catches by name. *)
Inductive exn : Type :=
| RequestException
| KeyError
| TypeError
| AttributeError
| ValueError
| IndexError
| EOFError
| OSError
| UnboundLocalError
| OverflowError.

Definition is_RequestException (e : exn) : bool :=
  match e with RequestException => true | _ => false end.

(** Result of evaluating an expression: a value or a raised exception. *)
Inductive res (A : Type) : Type :=
| Ok (a : A)
| Raise (e : exn).
Arguments Ok {A} a.
Arguments Raise {A} e.

Definition res_bind {A B} (r : res A) (k : A -> res B) : res B :=
  match r with Ok a => k a | Raise e => Raise e end.

(** JSON data as Python sees it after [json.load]: [None], [bool],
    numbers, [str], [list] and [dict] with string keys.  A dict is an
    association list in insertion order; lookups take the first binding
    and updates keep keys unique. *)
Inductive value : Type :=
| VNone
| VBool (b : bool)
| VNum (q : Q)
| VStr (s : string)
| VList (l : list value)
| VDict (d : list (string * value)).

Definition VInt (z : Z) : value := VNum (inject_Z z).

(** [bool(v)]. *)
Definition truthy (v : value) : bool :=
  match v with
  | VNone => false
  | VBool b => b
  | VNum q => negb (Qeq_bool q 0)
  | VStr s => negb (s =? "")
  | VList l => match l with [] => false | _ => true end
  | VDict d => match d with [] => false | _ => true end
  end.

(** Numbers and booleans compare as numbers ([True == 1]). *)
Definition as_number (v : value) : option Q :=
  match v with
  | VNum q => Some q
  | VBool b => Some (if b then 1%Q else 0%Q)
  | _ => None
  end.

Fixpoint lookup (k : string) (d : list (string * value)) : option value :=
  match d with
  | [] => None
  | (k', v) :: d' => if k' =? k then Some v else lookup k d'
  end.

Definition has_key (k : string) (d : list (string * value)) : bool :=
  match lookup k d with Some _ => true | None => false end.

(** [d[k] = v] on a dict. *)
Fixpoint update (k : string) (v : value) (d : list (string * value))
  : list (string * value) :=
  match d with
  | [] => [(k, v)]
  | (k', v') :: d' => if k' =? k then (k, v) :: d' else (k', v') :: update k v d'
  end.

(** [del d[k]] on a dict that has the key. *)
Definition remove (k : string) (d : list (string * value)) : list (string * value) :=
  filter (fun kv => negb (fst kv =? k)) d.

(** [a == b].  Lists are compared element by element; dicts have equal
    key sets and equal values key by key, whatever the order. *)
Fixpoint py_eq (a b : value) {struct a} : bool :=
  match a, b with
  | VNone, VNone => true
  | VStr s, VStr t => s =? t
  | VList la, VList lb =>
      (fix all2 (la lb : list value) {struct la} : bool :=
         match la, lb with
         | [], [] => true
         | x :: la', y :: lb' => py_eq x y && all2 la' lb'
         | _, _ => false
         end) la lb
  | VDict da, VDict db =>
      (fix sub (da : list (string * value)) {struct da} : bool :=
         match da with
         | [] => true
         | (k, v) :: da' =>
             match lookup k db with
             | Some v' => py_eq v v' && sub da'
             | None => false
             end
         end) da
      && forallb (fun kv => has_key (fst kv) da) db
  | _, _ =>
      match as_number a, as_number b with
      | Some p, Some q => Qeq_bool p q
      | _, _ => false
      end
  end.

(** [a < b] on strings: code points in order, a proper prefix first. *)
Definition str_lt (s t : string) : bool := String.ltb s t.

(** [a < b].  Defined between two numbers, two strings and two lists;
    any other pair raises [TypeError]. *)
Fixpoint py_lt (a b : value) {struct a} : res bool :=
  match a, b with
  | VStr s, VStr t => Ok (str_lt s t)
  | VList la, VList lb =>
      (fix lex (la lb : list value) {struct la} : res bool :=
         match la, lb with
         | [], [] => Ok false
         | [], _ :: _ => Ok true
         | _ :: _, [] => Ok false
         | x :: la', y :: lb' => if py_eq x y then lex la' lb' else py_lt x y
         end) la lb
  | _, _ =>
      match as_number a, as_number b with
      | Some p, Some q => Ok (negb (Qle_bool q p))
      | _, _ => Raise TypeError
      end
  end.

(** [a > b] is [b < a] for these types. *)
Definition py_gt (a b : value) : res bool := py_lt b a.

(** Whether [t] occurs in [s] as a substring. *)
Fixpoint is_substring (t s : string) : bool :=
  String.prefix t s ||
  match s with
  | EmptyString => false
  | String _ s' => is_substring t s'
  end.

(** [k in v] for a string [k]. *)
Definition contains (k : string) (v : value) : res bool :=
  match v with
  | VDict d => Ok (has_key k d)
  | VList l => Ok (existsb (fun x => py_eq x (VStr k)) l)
  | VStr s => Ok (is_substring k s)
  | _ => Raise TypeError
  end.

(** [v[k]] for a string [k]. *)
Definition getitem (v : value) (k : string) : res value :=
  match v with
  | VDict d => match lookup k d with Some x => Ok x | None => Raise KeyError end
  | _ => Raise TypeError
  end.

(** [v[i]] for a non-negative integer [i]. *)
Definition getindex (v : value) (i : nat) : res value :=
  match v with
  | VList l => match nth_error l i with Some x => Ok x | None => Raise IndexError end
  | VStr s => match String.get i s with
              | Some c => Ok (VStr (String c EmptyString))
              | None => Raise IndexError
              end
  | VDict _ => Raise KeyError
  | _ => Raise TypeError
  end.

(** [v.get(k, default)]: only dicts have the method. *)
Definition get (v : value) (k : string) (default : value) : res value :=
  match v with
  | VDict d => Ok (match lookup k d with Some x => x | None => default end)
  | _ => Raise AttributeError
  end.

(** [v[k] = x] for a string [k]. *)
Definition setitem (v : value) (k : string) (x : value) : res value :=
  match v with
  | VDict d => Ok (VDict (update k x d))
  | _ => Raise TypeError
  end.

(** [del v[k]] for a string [k]. *)
Definition delitem (v : value) (k : string) : res value :=
  match v with
  | VDict d => if has_key k d then Ok (VDict (remove k d)) else Raise KeyError
  | _ => Raise TypeError
  end.

(** [len(v)]. *)
Definition len (v : value) : res nat :=
  match v with
  | VList l => Ok (List.length l)
  | VDict d => Ok (List.length d)
  | VStr s => Ok (String.length s)
  | _ => Raise TypeError
  end.

(** [v[:1]]: the first element, if any, in a sequence of the same type. *)
Definition first_slice (v : value) : res value :=
  match v with
  | VList l => Ok (VList (firstn 1 l))
  | VStr s => Ok (VStr (String.substring 0 1 s))
  | VDict _ => Raise KeyError
  | _ => Raise TypeError
  end.

(** The elements a [for] loop over [v] visits. *)
Definition iterate (v : value) : res (list value) :=
  match v with
  | VList l => Ok l
  | VDict d => Ok (map (fun kv => VStr (fst kv)) d)
  | VStr s => Ok (map (fun c => VStr (String c EmptyString)) (list_ascii_of_string s))
  | _ => Raise TypeError
  end.

(** Hashable values (what a [set] accepts). *)
Definition hashable (v : value) : bool :=
  match v with
  | VList _ | VDict _ => false
  | _ => true
  end.

(** *** Strings *)

Definition is_upper (c : ascii) : bool :=
  let n := nat_of_ascii c in (65 <=? n)%nat && (n <=? 90)%nat.

Definition lower_ascii (c : ascii) : ascii :=
  if is_upper c then ascii_of_nat (nat_of_ascii c + 32) else c.

(** [s.lower()]. *)
Fixpoint lower (s : string) : string :=
  match s with
  | EmptyString => EmptyString
  | String c s' => String (lower_ascii c) (lower s')
  end.

(** Whitespace as [str.strip] and [int] see it. *)
Definition is_space (c : ascii) : bool :=
  let n := nat_of_ascii c in
  ((9 <=? n)%nat && (n <=? 13)%nat) || (n =? 32)%nat || ((28 <=? n)%nat && (n <=? 31)%nat).

Fixpoint lstrip (cs : list ascii) : list ascii :=
  match cs with
  | c :: cs' => if is_space c then lstrip cs' else cs
  | [] => []
  end.

(** [s.strip()]. *)
Definition strip (s : string) : string :=
  string_of_list_ascii
    (rev (lstrip (rev (lstrip (list_ascii_of_string s))))).

Definition is_digit (c : ascii) : bool :=
  let n := nat_of_ascii c in (48 <=? n)%nat && (n <=? 57)%nat.

Definition digit_val (c : ascii) : Z := Z.of_nat (nat_of_ascii c - 48).

(** Decimal digits, single underscores allowed between two digits. *)
Fixpoint digits (cs : list ascii) (acc : Z) (after_digit : bool) : option Z :=
  match cs with
  | [] => if after_digit then Some acc else None
  | c :: cs' =>
      if is_digit c then digits cs' (10 * acc + digit_val c) true
      else if Ascii.eqb c "_" && after_digit then digits cs' acc false
      else None
  end.

(** [sys.get_int_max_str_digits()] as the interpreter starts with it:
    [int] refuses a string with more decimal digits. *)
Definition int_max_str_digits : nat := 4300.

(** [int(s)] for a string [s]; [None] stands for [ValueError], which
    [int] raises on a string that is not a decimal literal and on one
    with more than [int_max_str_digits] digits. *)
Definition int_of_string (s : string) : option Z :=
  let cs := list_ascii_of_string (strip s) in
  if (int_max_str_digits <? List.length (filter is_digit cs))%nat then None
  else
    match cs with
    | "-"%char :: cs => option_map Z.opp (digits cs 0 false)
    | "+"%char :: cs => digits cs 0 false
    | cs => digits cs 0 false
    end.

End Py.

Import Py.

(** ** The world outside the interpreter *)

(** An f-string, kept as its parts: literal text and interpolated
    expressions, left unrendered. *)
Inductive piece : Type :=
| Lit (s : string)
| Fmt (v : value)
| FmtExn (e : exn)
| Quote (s : string)
| B64 (s : string).

Definition fstring : Type := list piece.

(** One call of [requests.get], [requests.post] or [requests.put] with
    its keyword arguments ([None] where the call does not pass one). *)
Record Request : Type := mkRequest {
  verb : string;
  url : fstring;
  headers : list (string * fstring);
  params : value;
  json : value;
  data : value
}.

(** The attributes of a [requests.Response] the script reads.
    [json_method] is what calling [response.json()] yields. *)
Record Response : Type := mkResponse {
  status_code : Z;
  response_headers : list (string * string);
  text : string;
  json_method : res value
}.

(** The state file: absent, present but not loadable as JSON, or
    holding a JSON document. *)
Inductive File : Type :=
| Missing
| Garbled
| Document (v : value).

(** [remote] is the behaviour of the network and of the service: given
    every request sent so far, the latest one last, it either answers
    or makes the [requests] call raise.  [now] is the reading of the
    clock, [today] the date as [strftime('%Y-%m-%d')] prints it and
    [entropy] the random text of [os.urandom].  [redirect] is the code, if
    any, that the browser delivers to the local listener while the
    script waits for it; [can_listen] tells whether the listener can
    be started.  The remaining fields are what the script changes:
    the requests sent, the lengths slept, the lines printed, the lines
    still to be typed, the state file, the pages opened in the browser,
    the address the listener is bound to and the two globals. *)
Record World : Type := mkWorld {
  remote : list Request -> res Response;
  now : Q;
  today : string;
  entropy : string;
  can_listen : bool;
  redirect : option string;
  sent : list Request;
  slept : list Z;
  console : list fstring;
  keyboard : list string;
  state_file : File;
  opened : list fstring;
  listening : option (string * Z);
  AUTH_CODE : value;
  AUTH_CODE_RECEIVED : bool
}.

Definition with_sent (l : list Request) (w : World) : World :=
  mkWorld (remote w) (now w) (today w) (entropy w) (can_listen w) (redirect w)
          l (slept w) (console w) (keyboard w) (state_file w)
          (opened w) (listening w) (AUTH_CODE w) (AUTH_CODE_RECEIVED w).

Definition with_slept (l : list Z) (w : World) : World :=
  mkWorld (remote w) (now w) (today w) (entropy w) (can_listen w) (redirect w)
          (sent w) l (console w) (keyboard w) (state_file w)
          (opened w) (listening w) (AUTH_CODE w) (AUTH_CODE_RECEIVED w).

Definition with_console (l : list fstring) (w : World) : World :=
  mkWorld (remote w) (now w) (today w) (entropy w) (can_listen w) (redirect w)
          (sent w) (slept w) l (keyboard w) (state_file w)
          (opened w) (listening w) (AUTH_CODE w) (AUTH_CODE_RECEIVED w).

Definition with_keyboard (l : list string) (w : World) : World :=
  mkWorld (remote w) (now w) (today w) (entropy w) (can_listen w) (redirect w)
          (sent w) (slept w) (console w) l (state_file w)
          (opened w) (listening w) (AUTH_CODE w) (AUTH_CODE_RECEIVED w).

Definition with_state_file (f : File) (w : World) : World :=
  mkWorld (remote w) (now w) (today w) (entropy w) (can_listen w) (redirect w)
          (sent w) (slept w) (console w) (keyboard w) f
          (opened w) (listening w) (AUTH_CODE w) (AUTH_CODE_RECEIVED w).

Definition with_opened (l : list fstring) (w : World) : World :=
  mkWorld (remote w) (now w) (today w) (entropy w) (can_listen w) (redirect w)
          (sent w) (slept w) (console w) (keyboard w) (state_file w)
          l (listening w) (AUTH_CODE w) (AUTH_CODE_RECEIVED w).

Definition with_listening (b : option (string * Z)) (w : World) : World :=
  mkWorld (remote w) (now w) (today w) (entropy w) (can_listen w) (redirect w)
          (sent w) (slept w) (console w) (keyboard w) (state_file w)
          (opened w) b (AUTH_CODE w) (AUTH_CODE_RECEIVED w).

Definition with_auth_code (v : value) (w : World) : World :=
  mkWorld (remote w) (now w) (today w) (entropy w) (can_listen w) (redirect w)
          (sent w) (slept w) (console w) (keyboard w) (state_file w)
          (opened w) (listening w) v true.

(** ** The monad of the script: state, exceptions, and running out of
    fuel in a loop whose end the remote side decides *)

Definition M (A : Type) : Type := World -> option (res A * World).

Definition ret {A} (a : A) : M A := fun w => Some (Ok a, w).

Definition raise {A} (e : exn) : M A := fun w => Some (Raise e, w).

Definition bind {A B} (m : M A) (k : A -> M B) : M B :=
  fun w =>
    match m w with
    | Some (Ok a, w') => k a w'
    | Some (Raise e, w') => Some (Raise e, w')
    | None => None
    end.

Definition lift {A} (r : res A) : M A :=
  match r with Ok a => ret a | Raise e => raise e end.

Declare Scope monad_scope.
Delimit Scope monad_scope with monad.
Notation "x <- c ;; k" := (bind c (fun x => k))
  (at level 61, c at next level, right associativity) : monad_scope.
Notation "c ;; k" := (bind c (fun _ => k))
  (at level 61, right associativity) : monad_scope.
Open Scope monad_scope.

(** [try: body  except <class> as e: handler e], the handler taking
    the exceptions that [catches] selects. *)
Definition try_except {A} (body : M A) (catches : exn -> bool) (handler : exn -> M A)
  : M A :=
  fun w =>
    match body w with
    | Some (Raise e, w') => if catches e then handler e w' else Some (Raise e, w')
    | other => other
    end.

(** What one turn of a loop body decides: go round again with a new
    loop state, or leave the function with a result. *)
Inductive step (S R : Type) : Type :=
| Again (s : S)
| Return (r : R).
Arguments Again {S R} s.
Arguments Return {S R} r.

(** A [while] loop; [fuel] bounds the number of turns. *)
Fixpoint while {S R} (fuel : nat) (body : S -> M (step S R)) (s : S) : M R :=
  match fuel with
  | O => fun _ => None
  | Datatypes.S fuel' =>
      c <- body s ;;
      match c with
      | Again s' => while fuel' body s'
      | Return r => ret r
      end
  end.

(** A [for] loop over a list, which a [return] in the body leaves. *)
Fixpoint for_each {A S R} (l : list A) (body : A -> S -> M (step S R)) (s : S)
  : M (step S R) :=
  match l with
  | [] => ret (Again s)
  | x :: l' =>
      c <- body x s ;;
      match c with
      | Again s' => for_each l' body s'
      | Return r => ret (Return r)
      end
  end.

(** *** Primitive effects *)

Definition print (line : fstring) : M unit :=
  fun w => Some (Ok tt, with_console (console w ++ [line]) w).

(** The longest sleep, in seconds: [time.sleep] converts its argument
    to a signed 64-bit count of nanoseconds, and an integer number of
    seconds fits when its magnitude is at most this. *)
Definition sleep_max : Z := 9223372036.

(** [time.sleep(seconds)] for an integer number of seconds:
    [OverflowError] when the conversion to nanoseconds overflows, then
    [ValueError] for a negative length. *)
Definition sleep (seconds : Z) : M unit :=
  fun w =>
    if ((seconds <? - sleep_max) || (sleep_max <? seconds))%Z
    then Some (Raise OverflowError, w)
    else if (seconds <? 0)%Z then Some (Raise ValueError, w)
    else Some (Ok tt, with_slept (slept w ++ [seconds]) w).

(** [time.time()]. *)
Definition time : M value := fun w => Some (Ok (VNum (now w)), w).

(** [input(prompt)]: the next line typed, [EOFError] when there is none. *)
Definition input (prompt : fstring) : M string :=
  fun w =>
    let w' := with_console (console w ++ [prompt]) w in
    match keyboard w with
    | line :: rest => Some (Ok line, with_keyboard rest w')
    | [] => Some (Raise EOFError, w')
    end.

(** Sending a request: it joins the history and the remote side decides
    the outcome. *)
Definition send (r : Request) : M Response :=
  fun w =>
    let history := sent w ++ [r] in
    Some (remote w history, with_sent history w).

Definition requests_get (url : fstring) (headers : list (string * fstring))
  (params : value) : M Response :=
  send (mkRequest "GET" url headers params VNone VNone).

Definition requests_post_json (url : fstring) (headers : list (string * fstring))
  (json : value) : M Response :=
  send (mkRequest "POST" url headers VNone json VNone).

Definition requests_put_json (url : fstring) (headers : list (string * fstring))
  (json : value) : M Response :=
  send (mkRequest "PUT" url headers VNone json VNone).

Definition requests_post_data (url : fstring) (headers : list (string * fstring))
  (data : value) : M Response :=
  send (mkRequest "POST" url headers VNone VNone data).

(** [response.headers.get(name)]: header names match whatever their case. *)
Fixpoint header_get (name : string) (hs : list (string * string)) : option string :=
  match hs with
  | [] => None
  | (k, v) :: hs' => if lower k =? lower name then Some v else header_get name hs'
  end.

(** *** The state file *)

Definition STATE_FILE : string := "~/.spotify_playlist_generator_state.json".
Definition SPOTIFY_API_BASE : string := "https://api.spotify.com/v1".
Definition SPOTIFY_AUTH_BASE : string := "https://accounts.spotify.com".

Definition load_state : M value :=
  fun w =>
    match state_file w with
    | Document v => Some (Ok v, w)
    | Garbled =>
        (print [Lit "Error loading state file: "; FmtExn ValueError] ;;
         ret (VDict [("artist_choices", VDict [])])) w
    | Missing => Some (Ok (VDict [("artist_choices", VDict [])]), w)
    end.

Definition save_state (state : value) : M unit :=
  fun w => Some (Ok tt, with_state_file (Document state) w).

(** ** The HTTP client wrapper *)

Definition set_header (k : string) (v : fstring) (hs : list (string * fstring))
  : list (string * fstring) :=
  if existsb (fun kv => fst kv =? k) hs
  then map (fun kv => if fst kv =? k then (k, v) else kv) hs
  else hs ++ [(k, v)].

(** [int(response.headers.get('Retry-After', 1))]. *)
Definition retry_after_of (response : Response) : res Z :=
  match header_get "Retry-After" (response_headers response) with
  | None => Ok 1
  | Some s => match int_of_string s with Some z => Ok z | None => Raise ValueError end
  end.

(** One turn of the [while retries <= max_retries] loop, the code after
    the loop included. *)
Definition attempt (url : fstring) (headers : list (string * fstring))
  (method : string) (data params : value) (max_retries : Z) (retries : Z)
  : M (step Z value) :=
  if (retries <=? max_retries)%Z then
    try_except
      (response <-
         (if method =? "GET" then requests_get url headers params
          else if method =? "POST" then
            requests_post_json url (set_header "Content-Type" [Lit "application/json"] headers) data
          else if method =? "PUT" then
            requests_put_json url (set_header "Content-Type" [Lit "application/json"] headers) data
          else raise UnboundLocalError) ;;
       if (status_code response =? 429)%Z then
         retry_after <- lift (retry_after_of response) ;;
         print [Lit "Rate limit exceeded. Waiting for "; Fmt (VInt retry_after);
                Lit " seconds before retrying..."] ;;
         sleep retry_after ;;
         ret (Again (retries + 1))
       else if (status_code response >=? 400)%Z then
         print [Lit "Error making Spotify request: "; Fmt (VInt (status_code response))] ;;
         print [Lit (text response)] ;;
         ret (Return VNone)
       else if negb (text response =? "") then
         v <- lift (json_method response) ;;
         ret (Return v)
       else ret (Return (VDict [])))
      is_RequestException
      (fun e =>
         print [Lit "Request error: "; FmtExn e] ;;
         if (retries <? max_retries)%Z then
           print [Lit "Retrying ("; Fmt (VInt (retries + 1)); Lit "/";
                  Fmt (VInt max_retries); Lit ")..."] ;;
           sleep 2 ;;
           ret (Again (retries + 1))
         else ret (Return VNone))
  else
    print [Lit "Maximum retries ("; Fmt (VInt max_retries); Lit ") exceeded. Giving up."] ;;
    ret (Return VNone).

(** [make_spotify_request(endpoint, token, method, data, params, max_retries)].
    The loop runs while [retries <= max_retries] and every turn that
    does not return adds one to [retries], so [max_retries + 2] turns
    always suffice. *)
Definition make_spotify_request (endpoint : fstring) (token : value)
  (method : string) (data params : value) (max_retries : Z) : M value :=
  let headers := [("Authorization", [Lit "Bearer "; Fmt token])] in
  let url := [Lit SPOTIFY_API_BASE; Lit "/"] ++ endpoint in
  while (Datatypes.S (Z.to_nat (max_retries + 1)))
        (attempt url headers method data params max_retries) 0.

(** The call with the defaults [method="GET", data=None, max_retries=5]. *)
Definition api_get (endpoint : fstring) (token : value) (params : value) : M value :=
  make_spotify_request endpoint token "GET" VNone params 5.

(** ** The catalog resolver *)

(** A line break inside a printed line. *)
Definition NL : piece := Lit (String "010"%char EmptyString).

(** [state["artist_choices"][artist_name] = {"id": ..., "name": ...}],
    after creating [state["artist_choices"]] when it is missing. *)
Definition save_choice (state : value) (artist_name : string) (artist : value)
  : M unit :=
  present <- lift (contains "artist_choices" state) ;;
  state <- (if negb present then lift (setitem state "artist_choices" (VDict []))
            else ret state) ;;
  id <- lift (getitem artist "id") ;;
  name <- lift (getitem artist "name") ;;
  choices <- lift (getitem state "artist_choices") ;;
  choices <- lift (setitem choices artist_name (VDict [("id", id); ("name", name)])) ;;
  state <- lift (setitem state "artist_choices" choices) ;;
  save_state state.

(** [f"{followers:,}"]: the thousands separator is for numbers only. *)
Definition format_thousands (followers : value) : res piece :=
  match followers with
  | VNum _ | VBool _ => Ok (Fmt followers)
  | VStr _ => Raise ValueError
  | _ => Raise TypeError
  end.

(** The numbered list printed when a search has several results. *)
Fixpoint print_choices (i : Z) (artists : list value) : M unit :=
  match artists with
  | [] => ret tt
  | artist :: rest =>
      followers <- lift (get artist "followers" (VDict [])) ;;
      followers <- lift (get followers "total" (VInt 0)) ;;
      name <- lift (getitem artist "name") ;;
      shown <- lift (format_thousands followers) ;;
      print [Fmt (VInt i); Lit ". "; Fmt name; Lit " ("; shown; Lit " followers)"] ;;
      print_choices (i + 1) rest
  end.

(** One turn of the [while True] loop that reads the user's choice. *)
Definition ask_choice (state : value) (artist_name : string) (artists : value)
  (_ : unit) : M (step unit value) :=
  try_except
    (choice <- input [NL; Lit "Enter the number of the correct artist (or 'q' to skip): "] ;;
     if lower choice =? "q" then ret (Return VNone)
     else
       choice_idx <- match int_of_string choice with
                     | Some z => ret (z - 1)%Z
                     | None => raise ValueError
                     end ;;
       in_range <- (if (0 <=? choice_idx)%Z then
                      n <- lift (len artists) ;; ret (choice_idx <? Z.of_nat n)%Z
                    else ret false) ;;
       if in_range then
         chosen_artist <- lift (getindex artists (Z.to_nat choice_idx)) ;;
         name <- lift (getitem chosen_artist "name") ;;
         print [Lit "Selected: "; Fmt name; NL] ;;
         save_choice state artist_name chosen_artist ;;
         ret (Return chosen_artist)
       else
         print [Lit "Invalid choice. Please try again."] ;;
         ret (Again tt))
    (fun e => match e with ValueError => true | _ => false end)
    (fun _ => print [Lit "Please enter a number or 'q'."] ;; ret (Again tt)).

(** The part of [find_artist] from the comment "Search for artists" on;
    [state] is the state document as the first part leaves it. *)
Definition search_artist (state : value) (artist_name : string) (client_token : value)
  : M value :=
  let params := VDict [("q", VStr artist_name); ("type", VStr "artist"); ("limit", VInt 10)] in
  results <- api_get [Lit "search"] client_token params ;;
  found <- (if negb (truthy results) then ret false
            else
              artists <- lift (get results "artists" (VDict [])) ;;
              items <- lift (get artists "items" VNone) ;;
              ret (truthy items)) ;;
  if negb found then
    print [Lit "Artist '"; Lit artist_name; Lit "' not found."] ;;
    ret VNone
  else
    artists <- lift (getitem results "artists") ;;
    artists <- lift (getitem artists "items") ;;
    n <- lift (len artists) ;;
    if (n =? 1)%nat then
      artist <- lift (getindex artists 0) ;;
      name <- lift (getitem artist "name") ;;
      id <- lift (getitem artist "id") ;;
      print [Lit "Found artist: "; Fmt name; Lit " (ID: "; Fmt id; Lit ")"] ;;
      save_choice state artist_name artist ;;
      ret artist
    else
      print [NL; Lit "Multiple artists found for '"; Lit artist_name; Lit "':"] ;;
      listed <- lift (iterate artists) ;;
      print_choices 1 listed ;;
      fun w => while (S (List.length (keyboard w))) (ask_choice state artist_name artists) tt w.

(** [find_artist(artist_name, client_token)]. *)
Definition find_artist (artist_name : string) (client_token : value) : M value :=
  state <- load_state ;;
  cached <- (present <- lift (contains "artist_choices" state) ;;
             if present then
               choices <- lift (getitem state "artist_choices") ;;
               lift (contains artist_name choices)
             else ret false) ;;
  if cached then
    choices <- lift (getitem state "artist_choices") ;;
    entry <- lift (getitem choices artist_name) ;;
    artist_id <- lift (getitem entry "id") ;;
    artist_name_exact <- lift (getitem entry "name") ;;
    print [Lit "Using saved artist: "; Fmt artist_name_exact; Lit " (ID: ";
           Fmt artist_id; Lit ")"] ;;
    artist_data <- api_get [Lit "artists/"; Fmt artist_id] client_token VNone ;;
    if truthy artist_data then ret artist_data
    else
      print [Lit "Saved artist ID no longer valid, searching again..."] ;;
      present <- lift (contains "artist_choices" state) ;;
      state <- (if present then
                  choices <- lift (getitem state "artist_choices") ;;
                  choices <- lift (delitem choices artist_name) ;;
                  state <- lift (setitem state "artist_choices" choices) ;;
                  save_state state ;;
                  ret state
                else ret state) ;;
      search_artist state artist_name client_token
  else search_artist state artist_name client_token.

(** What the pagination loops carry from turn to turn. *)
Record page_state : Type := mkPage { collected : list value; offset : Z }.

(** One turn of a pagination loop: fetch a page at [offset], stop on a
    failed or empty answer, on a short page and when no next page is
    announced. *)
Definition fetch_page (endpoint : fstring) (client_token : value)
  (params_at : Z -> value) (limit : Z) (s : page_state)
  : M (step page_state (list value)) :=
  results <- api_get endpoint client_token (params_at (offset s)) ;;
  more <- (if negb (truthy results) then ret false
           else items <- lift (get results "items" VNone) ;; ret (truthy items)) ;;
  if negb more then ret (Return (collected s))
  else
    items <- lift (getitem results "items") ;;
    new <- lift (iterate items) ;;
    let grown := collected s ++ new in
    items <- lift (getitem results "items") ;;
    n <- lift (len items) ;;
    last <- (if (Z.of_nat n <? limit)%Z then ret true
             else next <- lift (get results "next" VNone) ;; ret (negb (truthy next))) ;;
    if last then ret (Return grown)
    else ret (Again (mkPage grown (offset s + limit))).

(** [get_artist_albums(artist_id, client_token)]; at most [fuel] pages. *)
Definition get_artist_albums (fuel : nat) (artist_id : value) (client_token : value)
  : M (list value) :=
  let limit := 50%Z in
  while fuel
    (fetch_page [Lit "artists/"; Fmt artist_id; Lit "/albums"] client_token
       (fun offset => VDict [("include_groups", VStr "album,single");
                             ("limit", VInt limit); ("offset", VInt offset)])
       limit)
    (mkPage [] 0).

(** [get_album_tracks(album_id, client_token)]; at most [fuel] pages. *)
Definition get_album_tracks (fuel : nat) (album_id : value) (client_token : value)
  : M (list value) :=
  let limit := 50%Z in
  while fuel
    (fetch_page [Lit "albums/"; Fmt album_id; Lit "/tracks"] client_token
       (fun offset => VDict [("limit", VInt limit); ("offset", VInt offset)])
       limit)
    (mkPage [] 0).

(** [any(a['id'] == artist_id for a in artists)]. *)
Fixpoint any_id_is (artist_id : value) (artists : list value) : res bool :=
  match artists with
  | [] => Ok false
  | a :: rest =>
      res_bind (getitem a "id")
        (fun id => if py_eq id artist_id then Ok true else any_id_is artist_id rest)
  end.

(** [any(a['id'] == artist_id for a in artists[:1])]: the artist has
    the primary credit. *)
Definition first_listed (artist_id : value) (artists : value) : res bool :=
  res_bind (first_slice artists)
    (fun head => res_bind (iterate head) (any_id_is artist_id)).

(** [album['artists'] and any(...)]. *)
Definition is_primary_album (artist_id : value) (album : value) : res bool :=
  res_bind (getitem album "artists")
    (fun artists => if truthy artists then first_listed artist_id artists else Ok false).

(** The first loop of [get_artist_tracks]. *)
Fixpoint primary_albums_of (artist_id : value) (albums : list value)
  (primary_albums : list value) : res (list value) :=
  match albums with
  | [] => Ok primary_albums
  | album :: rest =>
      res_bind (is_primary_album artist_id album)
        (fun keep =>
           primary_albums_of artist_id rest
             (if keep then primary_albums ++ [album] else primary_albums))
  end.

(** The inner loop of [get_artist_tracks], over the tracks of one album. *)
Fixpoint keep_primary_tracks (artist_id : value) (album : value) (tracks : list value)
  (all_tracks : list value) : res (list value) :=
  match tracks with
  | [] => Ok all_tracks
  | track :: rest =>
      res_bind (getitem track "artists") (fun artists =>
      res_bind (first_listed artist_id artists) (fun keep =>
      if keep then
        res_bind (getitem album "release_date") (fun date =>
        res_bind (setitem track "album_release_date" date) (fun track =>
        keep_primary_tracks artist_id album rest (all_tracks ++ [track])))
      else keep_primary_tracks artist_id album rest all_tracks))
  end.

(** The outer loop of [get_artist_tracks], over the primary albums. *)
Fixpoint collect_tracks (fuel : nat) (artist_id client_token : value)
  (primary_albums : list value) (all_tracks : list value) : M (list value) :=
  match primary_albums with
  | [] => ret all_tracks
  | album :: rest =>
      album_id <- lift (getitem album "id") ;;
      tracks <- get_album_tracks fuel album_id client_token ;;
      all_tracks <- lift (keep_primary_tracks artist_id album tracks all_tracks) ;;
      collect_tracks fuel artist_id client_token rest all_tracks
  end.

(** [get_artist_tracks(artist_id, client_token)]. *)
Definition get_artist_tracks (fuel : nat) (artist_id client_token : value)
  : M (list value) :=
  albums <- get_artist_albums fuel artist_id client_token ;;
  primary_albums <- lift (primary_albums_of artist_id albums []) ;;
  print [Lit "Found "; Fmt (VInt (Z.of_nat (List.length primary_albums)));
         Lit " primary albums/singles out of ";
         Fmt (VInt (Z.of_nat (List.length albums))); Lit " total"] ;;
  collect_tracks fuel artist_id client_token primary_albums [].

(** [get_track_details(track_id, client_token)]. *)
Definition get_track_details (track_id client_token : value) : M value :=
  api_get [Lit "tracks/"; Fmt track_id] client_token VNone.

(** ** Sorting *)

(** [[key(x) for x in l]], paired with the elements. *)
Fixpoint with_keys (key : value -> res value) (l : list value)
  : res (list (value * value)) :=
  match l with
  | [] => Ok []
  | x :: rest =>
      res_bind (key x) (fun k =>
      res_bind (with_keys key rest) (fun keyed => Ok ((k, x) :: keyed)))
  end.

(** Insertion of [x] in front of the first element whose key is not
    below its own: elements with equal keys stay behind those inserted
    before them, that is, behind those that followed them in the input. *)
Fixpoint insert (x : value * value) (sorted : list (value * value))
  : res (list (value * value)) :=
  match sorted with
  | [] => Ok [x]
  | y :: rest =>
      res_bind (py_lt (fst y) (fst x)) (fun below =>
      if below then res_bind (insert x rest) (fun r => Ok (y :: r))
      else Ok (x :: sorted))
  end.

(** A stable sort that compares keys with [<] only, as [list.sort] does. *)
Fixpoint stable_sort (l : list (value * value)) : res (list (value * value)) :=
  match l with
  | [] => Ok []
  | x :: rest => res_bind (stable_sort rest) (insert x)
  end.

(** [sorted(l, key=key, reverse=reverse)].  The keys are computed first.
    With [reverse], the list is reversed, sorted and reversed again,
    which keeps elements with equal keys in their original order.  The
    comparisons made are those of an insertion sort; the outcome is that
    of any stable sort as long as no comparison raises. *)
Definition sorted (l : list value) (key : value -> res value) (reverse : bool)
  : res (list value) :=
  res_bind (with_keys key l) (fun keyed =>
  res_bind (stable_sort (if reverse then rev keyed else keyed)) (fun s =>
  Ok (map snd (if reverse then rev s else s)))).

(** The loop of [sort_tracks] that fetches the details of every track;
    [i] counts the tracks from 1 and [total] is [len(tracks)]. *)
Fixpoint fetch_details (client_token : value) (total : nat) (i : nat)
  (tracks : list value) (detailed_tracks : list value) : M (list value) :=
  match tracks with
  | [] => ret detailed_tracks
  | track :: rest =>
      (if (i mod 10 =? 0)%nat
       then print [Lit "Processing track "; Fmt (VInt (Z.of_nat i)); Lit "/";
                   Fmt (VInt (Z.of_nat total)); Lit "..."]
       else ret tt) ;;
      id <- lift (getitem track "id") ;;
      detailed_track <- get_track_details id client_token ;;
      fetch_details client_token total (S i) rest
        (if truthy detailed_track then detailed_tracks ++ [detailed_track]
         else detailed_tracks)
  end.

(** [sort_tracks(tracks, sort_method, sort_order, client_token)]. *)
Definition sort_tracks (tracks : list value) (sort_method sort_order : string)
  (client_token : value) : M (list value) :=
  let reverse := lower sort_order =? "desc" in
  if sort_method =? "date" then
    lift (sorted tracks (fun x => get x "album_release_date" (VStr "")) reverse)
  else if sort_method =? "popularity" then
    print [NL; Lit "Fetching popularity data for tracks..."] ;;
    detailed_tracks <- fetch_details client_token (List.length tracks) 1 tracks [] ;;
    lift (sorted detailed_tracks (fun x => get x "popularity" (VInt 0)) reverse)
  else if sort_method =? "name" then
    lift (sorted tracks (fun x => getitem x "name") reverse)
  else ret tracks.

(** ** The OAuth flow manager *)

Definition token_headers (client_id client_secret : string) : list (string * fstring) :=
  [("Authorization", [Lit "Basic "; B64 (client_id ++ ":" ++ client_secret)]);
   ("Content-Type", [Lit "application/x-www-form-urlencoded"])].

Definition token_url : fstring := [Lit SPOTIFY_AUTH_BASE; Lit "/api/token"].

(** [get_client_credentials_token(client_id, client_secret)]. *)
Definition get_client_credentials_token (client_id client_secret : string) : M value :=
  response <- requests_post_data token_url (token_headers client_id client_secret)
                (VDict [("grant_type", VStr "client_credentials")]) ;;
  if negb (status_code response =? 200)%Z then
    print [Lit "Error getting client credentials token: "; Fmt (VInt (status_code response))] ;;
    print [Lit (text response)] ;;
    ret VNone
  else
    body <- lift (json_method response) ;;
    lift (getitem body "access_token").

(** [exchange_auth_code(client_id, client_secret, auth_code, redirect_uri)]. *)
Definition exchange_auth_code (client_id client_secret : string) (auth_code : value)
  (redirect_uri : string) : M value :=
  response <- requests_post_data token_url (token_headers client_id client_secret)
                (VDict [("grant_type", VStr "authorization_code");
                        ("code", auth_code);
                        ("redirect_uri", VStr redirect_uri)]) ;;
  if negb (status_code response =? 200)%Z then
    print [Lit "Error exchanging code for tokens: "; Fmt (VInt (status_code response))] ;;
    print [Lit (text response)] ;;
    ret VNone
  else lift (json_method response).

(** [refresh_access_token(client_id, client_secret, refresh_token)]. *)
Definition refresh_access_token (client_id client_secret : string) (refresh_token : value)
  : M value :=
  response <- requests_post_data token_url (token_headers client_id client_secret)
                (VDict [("grant_type", VStr "refresh_token");
                        ("refresh_token", refresh_token)]) ;;
  if negb (status_code response =? 200)%Z then
    print [Lit "Error refreshing access token: "; Fmt (VInt (status_code response))] ;;
    print [Lit (text response)] ;;
    ret VNone
  else lift (json_method response).

Definition is_loopback (host : string) : bool :=
  (lower host =? "localhost") || (lower host =? "127.0.0.1").

Section Urlparse.

(** [urllib.parse.urlparse(url).hostname], a library function taken as
    given: the host name of a URL, [None] when it has none, or
    [ValueError] on a URL that does not parse. *)
Variable urlparse_hostname : string -> res (option string).

(** [urllib.parse.urlparse(url).port], likewise: the port, [None] when
    the URL names none, or [ValueError] when it is not a valid port. *)
Variable urlparse_port : string -> res (option Z).

(** [x + y] for a float [x] and a number [y] as the machine computes
    it, likewise taken as given: [y] is converted to a float when it is
    an int, which raises [OverflowError] beyond the range of floats, and
    the float nearest to the sum is the result.  The numbers of a
    [value] are rationals, so the sum is given as one. *)
Variable float_add : Q -> Q -> res Q.

(** [a + b] where [a] is a float, as [time.time()] returns one: [b] has
    to be a number ([True] and [False] count as 1 and 0). *)
Definition py_add (a b : value) : res value :=
  match a, as_number b with
  | VNum x, Some y => res_bind (float_add x y) (fun sum => Ok (VNum sum))
  | _, _ => Raise TypeError
  end.

(** [start_callback_server(callback_url)]; the result tells whether a
    server was returned.  Every exception is caught inside the function;
    [can_listen] stands for the success of binding the socket. *)
Definition start_callback_server (callback_url : string) : M bool :=
  try_except
    (host <- lift (urlparse_hostname callback_url) ;;
     port <- lift (urlparse_port callback_url) ;;
     let port := match port with
                 | Some p => if (p =? 0)%Z then 8888%Z else p
                 | None => 8888%Z
                 end in
     host <- match host with Some h => ret h | None => raise AttributeError end ;;
     if is_loopback host then
       fun w =>
         if can_listen w then Some (Ok true, with_listening (Some (host, port)) w)
         else Some (Raise OSError, w)
     else
       print [Lit "Note: Using external callback URL "; Lit callback_url] ;;
       print [Lit "You'll need to configure this URL to handle the OAuth callback."] ;;
       ret false)
    (fun _ => true)
    (fun e =>
       print [Lit "Warning: Could not start callback server: "; FmtExn e] ;;
       print [Lit "You may need to manually copy the authorization code."] ;;
       ret false).

(** [stop_callback_server(server)]. *)
Definition stop_callback_server (server : bool) : M unit :=
  fun w => Some (Ok tt, if server then with_listening None w else w).

(** [AUTH_CODE_RECEIVED.wait(timeout=300)]: returns at once when the
    event is already set; otherwise a running listener stores the code
    the browser delivers, if one comes, and sets the event. *)
Definition wait_for_code : M unit :=
  fun w =>
    Some (Ok tt,
          if AUTH_CODE_RECEIVED w then w
          else match listening w, redirect w with
               | Some _, Some code => with_auth_code (VStr code) w
               | _, _ => w
               end).

Definition read_AUTH_CODE : M value := fun w => Some (Ok (AUTH_CODE w), w).

Definition webbrowser_open (auth_url : fstring) : M unit :=
  fun w => Some (Ok tt, with_opened (opened w ++ [auth_url]) w).

Definition urandom : M string := fun w => Some (Ok (entropy w), w).

(** The condition of the first [if] of [get_user_auth_token]:
    ["access_token" in state and "expires_at" in state and
     state["expires_at"] > current_time + 120]. *)
Definition saved_token_valid (state current_time : value) : res bool :=
  res_bind (contains "access_token" state) (fun has_token =>
  if has_token then
    res_bind (contains "expires_at" state) (fun has_expiry =>
    if has_expiry then
      res_bind (getitem state "expires_at") (fun expires_at =>
      res_bind (py_add current_time (VInt 120)) (fun limit =>
      py_gt expires_at limit))
    else Ok false)
  else Ok false).

(** The second [if] of [get_user_auth_token]: the refresh-token
    exchange.  [Some] carries the value the function returns from
    there; [None] means that it goes on to the interactive flow. *)
Definition refresh_saved_token (client_id client_secret : string)
  (state current_time : value) : M (option value) :=
  has_refresh <- lift (contains "refresh_token" state) ;;
  if has_refresh then
    print [Lit "Refreshing access token..."] ;;
    refresh_token <- lift (getitem state "refresh_token") ;;
    token_data <- refresh_access_token client_id client_secret refresh_token ;;
    if truthy token_data then
      access_token <- lift (getitem token_data "access_token") ;;
      state <- lift (setitem state "access_token" access_token) ;;
      expires_in <- lift (getitem token_data "expires_in") ;;
      expires_at <- lift (py_add current_time expires_in) ;;
      state <- lift (setitem state "expires_at" expires_at) ;;
      renewed <- lift (contains "refresh_token" token_data) ;;
      state <- (if renewed then
                  refresh_token <- lift (getitem token_data "refresh_token") ;;
                  lift (setitem state "refresh_token" refresh_token)
                else ret state) ;;
      save_state state ;;
      access_token <- lift (getitem state "access_token") ;;
      ret (Some access_token)
    else ret None
  else ret None.

(** The authorize URL. *)
Definition authorize_url (client_id callback_url auth_state : string) : fstring :=
  let scope := "playlist-modify-public playlist-modify-private user-read-private" in
  [Lit SPOTIFY_AUTH_BASE; Lit "/authorize?";
   Lit "client_id="; Lit client_id; Lit "&";
   Lit "response_type=code&";
   Lit "redirect_uri="; Quote callback_url; Lit "&";
   Lit "scope="; Quote scope; Lit "&";
   Lit "state="; Lit auth_state].

(** The rest of [get_user_auth_token], from the comment "Parse the
    callback URL" on: the interactive authorization-code flow. *)
Definition authorize (client_id client_secret callback_url : string)
  (state current_time : value) : M value :=
  hostname <- lift (urlparse_hostname callback_url) ;;
  is_local_callback <- match hostname with
                       | Some host => ret (is_loopback host)
                       | None => raise AttributeError
                       end ;;
  auth_state <- urandom ;;
  let auth_url := authorize_url client_id callback_url auth_state in
  server <- start_callback_server callback_url ;;
  print [NL; Lit "Opening your browser to authorize access to your Spotify account..."] ;;
  print ([Lit "If your browser doesn't open automatically, visit this URL:"; NL]
         ++ auth_url ++ [NL]) ;;
  webbrowser_open auth_url ;;
  auth_code <-
    (if is_local_callback then
       print [Lit "Waiting for authorization... (check your browser)"] ;;
       wait_for_code ;;
       stop_callback_server server ;;
       read_AUTH_CODE
     else
       print [NL; Lit "After authorizing in the browser, you will be redirected to your callback URL."] ;;
       print [Lit "Please copy the 'code' parameter from the URL and paste it here."] ;;
       line <- input [NL; Lit "Enter the authorization code: "] ;;
       ret (VStr (strip line))) ;;
  if negb (truthy auth_code) then
    print [Lit "Authorization failed or timed out."] ;;
    ret VNone
  else
    token_data <- exchange_auth_code client_id client_secret auth_code callback_url ;;
    if negb (truthy token_data) then
      print [Lit "Failed to get access token."] ;;
      ret VNone
    else
      access_token <- lift (getitem token_data "access_token") ;;
      state <- lift (setitem state "access_token" access_token) ;;
      refresh_token <- lift (getitem token_data "refresh_token") ;;
      state <- lift (setitem state "refresh_token" refresh_token) ;;
      expires_in <- lift (getitem token_data "expires_in") ;;
      expires_at <- lift (py_add current_time expires_in) ;;
      state <- lift (setitem state "expires_at" expires_at) ;;
      save_state state ;;
      lift (getitem token_data "access_token").

(** [get_user_auth_token(client_id, client_secret, callback_url)]. *)
Definition get_user_auth_token (client_id client_secret callback_url : string)
  : M value :=
  state <- load_state ;;
  current_time <- time ;;
  valid <- lift (saved_token_valid state current_time) ;;
  if valid then
    print [Lit "Using saved access token"] ;;
    lift (getitem state "access_token")
  else
    refreshed <- refresh_saved_token client_id client_secret state current_time ;;
    match refreshed with
    | Some access_token => ret access_token
    | None => authorize client_id client_secret callback_url state current_time
    end.

(** ** The playlist assembler *)

(** [get_current_user(token)]. *)
Definition get_current_user (token : value) : M value :=
  api_get [Lit "me"] token VNone.

(** [create_playlist(token, user_id, name, description, public=True)]. *)
Definition create_playlist (token user_id name : value) (description : string)
  : M value :=
  let data := VDict [("name", name); ("description", VStr description);
                     ("public", VBool true)] in
  make_spotify_request [Lit "users/"; Fmt user_id; Lit "/playlists"] token "POST" data VNone 5.

(** [range(0, stop, step)] for a positive [step]. *)
Definition range_step (stop step : nat) : list nat :=
  map (fun k => (k * step)%nat) (seq 0 ((stop + step - 1) / step)).

(** [track_uris[i:i+100]]. *)
Definition batch_at (track_uris : list value) (i : nat) : list value :=
  firstn 100 (skipn i track_uris).

(** [add_tracks_to_playlist(token, playlist_id, track_uris)]. *)
Definition add_tracks_to_playlist (token playlist_id : value) (track_uris : list value)
  : M bool :=
  c <- for_each (range_step (List.length track_uris) 100)
         (fun i (_ : unit) =>
            let batch := batch_at track_uris i in
            let data := VDict [("uris", VList batch)] in
            result <- make_spotify_request [Lit "playlists/"; Fmt playlist_id; Lit "/tracks"]
                        token "POST" data VNone 5 ;;
            if negb (truthy result) then
              print [Lit "Failed to add tracks "; Fmt (VInt (Z.of_nat i + 1)); Lit " to ";
                     Fmt (VInt (Z.of_nat i + Z.of_nat (List.length batch)));
                     Lit " to playlist."] ;;
              ret (Return false)
            else ret (Again tt))
         tt ;;
  match c with
  | Return r => ret r
  | Again _ => ret true
  end.

(** The loop of [main] that removes duplicates; [track_ids] is the set
    of the IDs seen, which only takes hashable values. *)
Fixpoint remove_duplicates (all_tracks : list value) (unique_tracks : list value)
  (track_ids : list value) : res (list value) :=
  match all_tracks with
  | [] => Ok unique_tracks
  | track :: rest =>
      res_bind (getitem track "id") (fun id =>
      if negb (hashable id) then Raise TypeError
      else if negb (existsb (py_eq id) track_ids) then
        remove_duplicates rest (unique_tracks ++ [track]) (track_ids ++ [id])
      else remove_duplicates rest unique_tracks track_ids)
  end.

(** [unique_tracks] as [main] computes it from [all_tracks]. *)
Definition unique_tracks (all_tracks : list value) : res (list value) :=
  remove_duplicates all_tracks [] [].

(** [[track['uri'] for track in sorted_tracks]]. *)
Fixpoint uris_of (sorted_tracks : list value) : res (list value) :=
  match sorted_tracks with
  | [] => Ok []
  | track :: rest =>
      res_bind (getitem track "uri") (fun uri =>
      res_bind (uris_of rest) (fun uris => Ok (uri :: uris)))
  end.

(** The end of [main] in create mode, from "Add tracks to playlist" on. *)
Definition add_tracks_and_report (auth_token playlist : value) (sorted_tracks : list value)
  : M unit :=
  print [Lit "Adding "; Fmt (VInt (Z.of_nat (List.length sorted_tracks)));
         Lit " tracks to playlist..."] ;;
  track_uris <- lift (uris_of sorted_tracks) ;;
  playlist_id <- lift (getitem playlist "id") ;;
  success <- add_tracks_to_playlist auth_token playlist_id track_uris ;;
  if success then
    urls <- lift (getitem playlist "external_urls") ;;
    link <- lift (getitem urls "spotify") ;;
    print [NL; Lit "Playlist created successfully: "; Fmt link] ;;
    print [Lit "Added "; Fmt (VInt (Z.of_nat (List.length sorted_tracks)));
           Lit " tracks to the playlist."]
  else
    print [NL; Lit "Playlist was created but there was an error adding some tracks."] ;;
    urls <- lift (getitem playlist "external_urls") ;;
    link <- lift (getitem urls "spotify") ;;
    print [Lit "Playlist URL: "; Fmt link].

(** ** The command-line driver *)

(** The parsed command line. *)
Record Args : Type := mkArgs {
  artists : string;
  sort : string;
  order : string;
  client_id : string;
  client_secret : string;
  callback_url : string;
  dryrun : bool;
  playlist_name : value
}.

(** [s.split(sep)] for a one-character separator. *)
Fixpoint split (sep : ascii) (s : string) : list string :=
  match s with
  | EmptyString => [EmptyString]
  | String c s' =>
      if Ascii.eqb c sep then EmptyString :: split sep s'
      else match split sep s' with
           | first :: rest => String c first :: rest
           | [] => [String c EmptyString]
           end
  end.

(** [", ".join(names)]: every element has to be a string. *)
Fixpoint join (names : list value) : res string :=
  match names with
  | [] => Ok ""
  | VStr s :: [] => Ok s
  | VStr s :: rest => res_bind (join rest) (fun t => Ok (s ++ ", " ++ t)%string)
  | _ :: _ => Raise TypeError
  end.

(** [[a['name'] for a in artists]]. *)
Fixpoint names_of (artists : list value) : res (list value) :=
  match artists with
  | [] => Ok []
  | a :: rest =>
      res_bind (getitem a "name") (fun name =>
      res_bind (names_of rest) (fun names => Ok (name :: names)))
  end.

(** The loop of [main] over the requested artists. *)
Fixpoint gather (fuel : nat) (client_token : value) (artist_list : list string)
  (all_tracks artist_names : list value) : M (list value * list value) :=
  match artist_list with
  | [] => ret (all_tracks, artist_names)
  | artist_name :: rest =>
      artist <- find_artist artist_name client_token ;;
      if truthy artist then
        name <- lift (getitem artist "name") ;;
        let artist_names := artist_names ++ [name] in
        id <- lift (getitem artist "id") ;;
        tracks <- get_artist_tracks fuel id client_token ;;
        let all_tracks := all_tracks ++ tracks in
        name <- lift (getitem artist "name") ;;
        print [Lit "Found "; Fmt (VInt (Z.of_nat (List.length tracks)));
               Lit " tracks for "; Fmt name] ;;
        gather fuel client_token rest all_tracks artist_names
      else gather fuel client_token rest all_tracks artist_names
  end.

(** The loop of [main] that prints the tracks in dry-run mode. *)
Fixpoint print_tracks (i : Z) (sorted_tracks : list value) : M unit :=
  match sorted_tracks with
  | [] => ret tt
  | track :: rest =>
      credited <- lift (getitem track "artists") ;;
      credited <- lift (iterate credited) ;;
      names <- lift (names_of credited) ;;
      artists <- lift (join names) ;;
      name <- lift (getitem track "name") ;;
      print [Fmt (VInt i); Lit ". "; Fmt name; Lit " by "; Lit artists] ;;
      print_tracks (i + 1) rest
  end.

(** The body of the [try] statement of [main]. *)
Definition main_body (fuel : nat) (args : Args) : M unit :=
  client_token <- get_client_credentials_token (client_id args) (client_secret args) ;;
  if negb (truthy client_token) then
    print [Lit "Failed to get client credentials token. Check your client ID and secret."]
  else
    let artist_list :=
      map strip (filter (fun artist => negb (strip artist =? "")) (split "," (artists args))) in
    match artist_list with
    | [] => print [Lit "No artist names provided. Please specify at least one artist."]
    | _ :: _ =>
        found <- gather fuel client_token artist_list [] [] ;;
        let (all_tracks, artist_names) := found in
        match all_tracks with
        | [] => print [Lit "No tracks found for the specified artists."]
        | _ :: _ =>
            unique_tracks <- lift (unique_tracks all_tracks) ;;
            print [NL; Lit "Found "; Fmt (VInt (Z.of_nat (List.length unique_tracks)));
                   Lit " unique tracks across all artists"] ;;
            sorted_tracks <- sort_tracks unique_tracks (sort args) (order args) client_token ;;
            if dryrun args then
              let sort_direction :=
                if order args =? "asc" then "ascending" else "descending" in
              print [NL; Lit "Tracks (sorted by "; Lit (sort args); Lit ", ";
                     Lit sort_direction; Lit "):"] ;;
              print_tracks 1 sorted_tracks
            else
              auth_token <- get_user_auth_token (client_id args) (client_secret args)
                              (callback_url args) ;;
              if negb (truthy auth_token) then
                print [Lit "Failed to get authorization token for playlist creation."]
              else
                user_info <- get_current_user auth_token ;;
                if negb (truthy user_info) then
                  print [Lit "Failed to get user information. Make sure your credentials have the right permissions."]
                else
                  user_id <- lift (getitem user_info "id") ;;
                  display_name <- lift (getitem user_info "display_name") ;;
                  print [Lit "Creating playlist for Spotify user: "; Fmt display_name;
                         Lit " ("; Fmt user_id; Lit ")"] ;;
                  artists_str <- lift (join artist_names) ;;
                  date <- (fun w => Some (Ok (today w), w)) ;;
                  let playlist_description :=
                    ("Playlist of tracks by " ++ artists_str ++ ". Generated on "
                     ++ date ++ ".")%string in
                  print [NL; Lit "Creating playlist '"; Fmt (playlist_name args); Lit "'..."] ;;
                  playlist <- create_playlist auth_token user_id (playlist_name args)
                                playlist_description ;;
                  if negb (truthy playlist) then print [Lit "Failed to create playlist."]
                  else add_tracks_and_report auth_token playlist sorted_tracks
        end
    end.

(** [main()], after the command line has been parsed: whatever is
    raised inside is printed, not propagated. *)
Definition main (fuel : nat) (args : Args) : M unit :=
  try_except (main_body fuel args) (fun _ => true)
    (fun e => print [Lit "Error: "; FmtExn e]).

End Urlparse.

(** * Vocabulary of the statements *)

(** ** Requests and answers *)

(** The methods [make_spotify_request] knows. *)
Definition supported (method : string) : Prop :=
  method = "GET" \/ method = "POST" \/ method = "PUT".

(** The request every attempt of one call of [make_spotify_request] sends. *)
Definition request_of (endpoint : fstring) (token : value) (method : string)
  (data params : value) : Request :=
  let headers := [("Authorization", [Lit "Bearer "; Fmt token])] in
  let url := [Lit SPOTIFY_API_BASE; Lit "/"] ++ endpoint in
  if method =? "GET" then mkRequest "GET" url headers params VNone VNone
  else mkRequest method url (set_header "Content-Type" [Lit "application/json"] headers)
         VNone data VNone.

(** From world [w] on, the remote side answers the first [length ds]
    sendings of [req] with status 429, asking to wait [ds] seconds in
    turn: integers that [int] reads from the header (1 standing for an
    absent header) and that [time.sleep] accepts, from 0 to [sleep_max]. *)
Definition rate_limited (w : World) (req : Request) (ds : list Z) : Prop :=
  forall j d,
    nth_error ds j = Some d ->
    exists response,
      remote w (sent w ++ repeat req (S j)) = Ok response /\
      status_code response = 429 /\
      retry_after_of response = Ok d /\
      0 <= d <= sleep_max.

(** What a response with a status below 400 carries: its JSON body,
    the empty object when the body is empty. *)
Definition payload (response : Response) : res value :=
  if text response =? "" then Ok (VDict []) else json_method response.

(** ** Batches of track URIs *)

(** The slices [track_uris[i:i+100]] for [i] in [range(0, len(track_uris), 100)]. *)
Definition batches (track_uris : list value) : list (list value) :=
  map (batch_at track_uris) (range_step (List.length track_uris) 100).

(** The call that submits one batch. *)
Definition submit (token playlist_id : value) (batch : list value) : M value :=
  make_spotify_request [Lit "playlists/"; Fmt playlist_id; Lit "/tracks"] token "POST"
    (VDict [("uris", VList batch)]) VNone 5.

(** The request a submission sends, at every attempt. *)
Definition submission (token playlist_id : value) (batch : list value) : Request :=
  request_of [Lit "playlists/"; Fmt playlist_id; Lit "/tracks"] token "POST"
    (VDict [("uris", VList batch)]) VNone.

(** [submitted token playlist_id bs w w']: submitting the batches [bs]
    one after the other from world [w] gives a truthy result each time
    and ends in world [w']. *)
Inductive submitted (token playlist_id : value) : list (list value) -> World -> World -> Prop :=
| submitted_nil w : submitted token playlist_id [] w w
| submitted_cons batch rest w result w1 w2 :
    submit token playlist_id batch w = Some (Ok result, w1) ->
    truthy result = true ->
    submitted token playlist_id rest w1 w2 ->
    submitted token playlist_id (batch :: rest) w w2.

(** The line printed when a batch fails. *)
Definition failure_report (first last : Z) : fstring :=
  [Lit "Failed to add tracks "; Fmt (VInt first); Lit " to "; Fmt (VInt last);
   Lit " to playlist."].

(** The requests of a run of submissions: batch by batch, each sent as
    many times as its count in [attempts] says. *)
Definition submissions (token playlist_id : value) (bs : list (list value))
  (attempts : list nat) : list Request :=
  List.concat (map (fun bn => repeat (submission token playlist_id (fst bn)) (snd bn))
              (combine bs attempts)).

(** ** The cache of artist choices *)

(** The state document [state] holds a choice for [artist_name]: the
    artist ID [artist_id] and the exact name [exact_name]. *)
Definition cached_choice (state : value) (artist_name : string)
  (artist_id exact_name : value) : Prop :=
  exists choices entry,
    getitem state "artist_choices" = Ok choices /\
    getitem choices artist_name = Ok entry /\
    getitem entry "id" = Ok artist_id /\
    getitem entry "name" = Ok exact_name.

(** The state document without the choice for [artist_name]. *)
Definition evict (state : value) (artist_name : string) : value :=
  match state with
  | VDict d =>
      match lookup "artist_choices" d with
      | Some (VDict choices) =>
          VDict (update "artist_choices" (VDict (remove artist_name choices)) d)
      | _ => state
      end
  | _ => state
  end.

(** The line printed when a saved choice is used. *)
Definition using_saved (exact_name artist_id : value) : fstring :=
  [Lit "Using saved artist: "; Fmt exact_name; Lit " (ID: "; Fmt artist_id; Lit ")"].

(** The validity lookup of a saved artist ID and the request it sends. *)
Definition validity_lookup (artist_id client_token : value) : M value :=
  api_get [Lit "artists/"; Fmt artist_id] client_token VNone.

Definition validity_request (artist_id client_token : value) : Request :=
  request_of [Lit "artists/"; Fmt artist_id] client_token "GET" VNone VNone.

(** Whether a request is a search. *)
Definition is_search (r : Request) : bool :=
  match url r with
  | [Lit _; Lit _; Lit endpoint] => endpoint =? "search"
  | _ => false
  end.

(** [w'] differs from [w] at most in the requests sent, the lengths
    slept and the lines printed. *)
Definition traffic_only (w w' : World) : Prop :=
  w' = with_console (console w') (with_slept (slept w') (with_sent (sent w') w)).

(** ** Track lists *)

(** [track['id']], when the track has one. *)
Definition track_id (track : value) : value :=
  match getitem track "id" with Ok id => id | Raise _ => VNone end.

(** Two tracks have the same ID, in the sense of [==]. *)
Definition same_id (t u : value) : bool := py_eq (track_id t) (track_id u).

(** A track whose ID a set accepts. *)
Definition has_hashable_id (track : value) : Prop :=
  exists id, getitem track "id" = Ok id /\ hashable id = true.

(** [subsequence l1 l2]: [l1] is [l2] with some elements left out, the
    others in the same order. *)
Inductive subsequence {A : Type} : list A -> list A -> Prop :=
| subsequence_nil : subsequence [] []
| subsequence_keep x l1 l2 : subsequence l1 l2 -> subsequence (x :: l1) (x :: l2)
| subsequence_skip x l1 l2 : subsequence l1 l2 -> subsequence l1 (x :: l2).

(** The tracks of [l] whose ID is neither that of a track of [seen] nor
    that of an earlier track of [l]. *)
Fixpoint first_occurrences (seen : list value) (l : list value) : list value :=
  match l with
  | [] => []
  | t :: rest =>
      if existsb (same_id t) seen then first_occurrences seen rest
      else t :: first_occurrences (seen ++ [t]) rest
  end.

(** How many tracks of [l] have the ID of [t]. *)
Definition occurrences (t : value) (l : list value) : nat :=
  List.length (filter (same_id t) l).

(** ** Example worlds *)

(** A world at the start of a run: nothing sent, slept, printed or
    opened yet, no listener, the globals at their initial values. *)
Definition initial_world (remote : list Request -> res Response) (file : File)
  (keyboard : list string) (redirect : option string) : World :=
  mkWorld remote (1700000000 # 1) "2025-01-01" "c3RhdGU" true redirect
          [] [] [] keyboard file [] None VNone false.

Definition answer (status : Z) (headers : list (string * string)) (text : string)
  (body : res value) : res Response :=
  Ok (mkResponse status headers text body).



(** The remote side of a run in which the first batch is accepted and
    the second is refused with status 500. *)
Definition second_batch_refused (history : list Request) : res Response :=
  match history with
  | [_] => answer 201 [] "{snapshot_id: s1}" (Ok (VDict [("snapshot_id", VStr "s1")]))
  | _ => answer 500 [] "Internal Server Error" (Raise ValueError)
  end.

(** 150 tracks with their URIs, and a created playlist. *)
Definition some_tracks : list value :=
  repeat (VDict [("id", VStr "t"); ("uri", VStr "spotify:track:t")]) 150.

Definition some_uris : list value := repeat (VStr "spotify:track:t") 150.

Definition some_playlist : value :=
  VDict [("id", VStr "p1");
         ("external_urls", VDict [("spotify", VStr "https://open.spotify.com/playlist/p1")])].

(** The line [main] prints before it adds the tracks. *)
Definition adding_line (sorted_tracks : list value) : fstring :=
  [Lit "Adding "; Fmt (VInt (Z.of_nat (List.length sorted_tracks)));
   Lit " tracks to playlist..."].

(** A remote side that accepts every submission. *)
Definition accepts_all (history : list Request) : res Response :=
  answer 201 [] "{snapshot_id: s1}" (Ok (VDict [("snapshot_id", VStr "s1")])).

(** The artist of the repository's tests, and a catalog that finds it:
    a search has this one result and a lookup returns it. *)
Definition test_artist : value :=
  VDict [("id", VStr "test_id_123"); ("name", VStr "Test Artist Official");
         ("followers", VDict [("total", VInt 1000)])].

Definition catalog (history : list Request) : res Response :=
  match rev history with
  | r :: _ =>
      if is_search r then
        answer 200 [] "{artists: ...}"
          (Ok (VDict [("artists", VDict [("items", VList [test_artist])])]))
      else answer 200 [] "{id: ...}" (Ok test_artist)
  | [] => Raise RequestException
  end.

(** The same catalog once the artist ID has stopped being valid:
    lookups are answered with 404, or with an empty body. *)
Definition catalog_gone (empty_body : bool) (history : list Request) : res Response :=
  match rev history with
  | r :: _ =>
      if is_search r then
        answer 200 [] "{artists: ...}"
          (Ok (VDict [("artists", VDict [("items", VList [test_artist])])]))
      else if empty_body then answer 200 [] "" (Raise ValueError)
      else answer 404 [] "Not found" (Raise ValueError)
  | [] => Raise RequestException
  end.

(** A state document that holds a choice for "Test Artist". *)
Definition test_state : value :=
  VDict [("artist_choices",
          VDict [("Test Artist",
                  VDict [("id", VStr "test_id_123"); ("name", VStr "Test Artist Official")])]);
         ("access_token", VStr "test_access_token");
         ("refresh_token", VStr "test_refresh_token");
         ("expires_at", VInt 9999999999)].

(** The world a first resolution of "Test Artist" leaves, starting
    without a state file. *)
Definition after_first_resolution : World :=
  match find_artist "Test Artist" (VStr "test_token") (initial_world catalog Missing [] None) with
  | Some (_, w) => w
  | None => initial_world catalog Missing [] None
  end.

(** After a resolution that returned [artist], the state file holds a
    choice for the name with the ID of [artist]. *)
Definition choice_cached (w : World) (artist_name : string) (artist : value) : Prop :=
  exists state artist_id exact_name,
    state_file w = Document state /\
    getitem artist "id" = Ok artist_id /\
    cached_choice state artist_name artist_id exact_name.

(** A remote side that accepts everything and answers with an empty body. *)
Definition accepts_silently (history : list Request) : res Response :=
  answer 200 [] "" (Raise ValueError).

(** A remote side that refuses everything. *)
Definition refuses_all (history : list Request) : res Response :=
  answer 403 [] "Forbidden" (Raise ValueError).

(** The merged track lists of two artists who share the track "t2". *)
Definition shared_track_lists : list value :=
  [VDict [("id", VStr "t1"); ("name", VStr "One")];
   VDict [("id", VStr "t2"); ("name", VStr "Two"); ("album_release_date", VStr "2015-01-01")]]
  ++
  [VDict [("id", VStr "t2"); ("name", VStr "Two"); ("album_release_date", VStr "2020-05-05")];
   VDict [("id", VStr "t3"); ("name", VStr "Three")]].

(** ** Sorting by date *)

(** [x.get('album_release_date', '')] when it is a string. *)
Definition date_of (track : value) : string :=
  match get track "album_release_date" (VStr "") with
  | Ok (VStr s) => s
  | _ => ""
  end.

(** A track (a dict) whose release date is a string or is missing. *)
Definition dated (track : value) : Prop :=
  exists s, get track "album_release_date" (VStr "") = Ok (VStr s).

(** The dates of [a] and [b] are in lexicographic order. *)
Definition date_le (a b : value) : Prop := String.leb (date_of a) (date_of b) = true.

(** The tracks of [l] dated [d], in the order of [l]. *)
Definition dated_on (d : string) (l : list value) : list value :=
  filter (fun t => date_of t =? d) l.

(** The key of an element paired with its key, when it is a string. *)
Definition key_of (p : value * value) : string :=
  match fst p with VStr s => s | _ => "" end.

(** An element whose key is a string. *)
Definition string_keyed (p : value * value) : Prop := exists s, fst p = VStr s.

(** The keys of [p] and [q] are in lexicographic order. *)
Definition key_le (p q : value * value) : Prop := String.leb (key_of p) (key_of q) = true.

(** A track paired with its date as key. *)
Definition keyed_by_date (p : value * value) : Prop := fst p = VStr (date_of (snd p)).

(** The tracks of the sorting test, and two more that share a date. *)
Definition test_tracks : list value :=
  [VDict [("name", VStr "Old Track"); ("album_release_date", VStr "2010-01-01")];
   VDict [("name", VStr "New Track"); ("album_release_date", VStr "2023-01-01")];
   VDict [("name", VStr "Middle Track"); ("album_release_date", VStr "2015-01-01")];
   VDict [("name", VStr "Undated Track")];
   VDict [("name", VStr "Other Middle Track"); ("album_release_date", VStr "2015-01-01")]].

(** ** Sorting by popularity *)

(** The world after the progress line the loop prints at every tenth track. *)
Definition progress (total i : nat) (w : World) : World :=
  if (i mod 10 =? 0)%nat
  then with_console
         (console w ++ [[Lit "Processing track "; Fmt (VInt (Z.of_nat i)); Lit "/";
                         Fmt (VInt (Z.of_nat total)); Lit "..."]]) w
  else w.

(** [details_fetched token total i tracks w details w']: from world [w],
    fetching the details of [tracks] one by one (the first of them
    being track number [i] of [total]) ends in world [w'], no fetch
    raises, and [details] are the truthy results in order; a track with
    a falsy result contributes nothing. *)
Inductive details_fetched (token : value) (total : nat)
  : nat -> list value -> World -> list value -> World -> Prop :=
| details_none i w : details_fetched token total i [] w [] w
| details_next i track rest id detail w w1 w2 details :
    getitem track "id" = Ok id ->
    get_track_details id token (progress total i w) = Some (Ok detail, w1) ->
    details_fetched token total (S i) rest w1 details w2 ->
    details_fetched token total i (track :: rest) w
      (if truthy detail then detail :: details else details) w2.

(** The key of the popularity sort. *)
Definition popularity_key (x : value) : res value := get x "popularity" (VInt 0).

(** The world after the line [sort_tracks] prints before it fetches. *)
Definition fetching (w : World) : World :=
  with_console (console w ++ [[NL; Lit "Fetching popularity data for tracks..."]]) w.

(** Two tracks as [get_artist_tracks] returns them, annotated with the
    release date of their album. *)
Definition annotated_tracks : list value :=
  [VDict [("id", VStr "t1"); ("name", VStr "One"); ("album_release_date", VStr "2010-01-01")];
   VDict [("id", VStr "t2"); ("name", VStr "Two"); ("album_release_date", VStr "2015-01-01")]].

(** A remote side that knows the details of the first track it is
    asked about and answers 404 afterwards. *)
Definition knows_first_only (history : list Request) : res Response :=
  match history with
  | [_] => answer 200 [] "{id: t1, ...}"
             (Ok (VDict [("id", VStr "t1"); ("name", VStr "One"); ("popularity", VInt 50)]))
  | _ => answer 404 [] "Not found" (Raise ValueError)
  end.

(** ** User tokens *)

(** What [load_state] returns for a state file. *)
Definition loaded (f : File) : value :=
  match f with
  | Document v => v
  | _ => VDict [("artist_choices", VDict [])]
  end.

(** The state holds [access_token] and an expiry time that lies more
    than 120 seconds after [now]: it is greater than the float
    [now + 120], the sum as [float_add] computes it. *)
Definition fresh_token (float_add : Q -> Q -> res Q) (state : value) (now : Q)
  (access_token : value) : Prop :=
  getitem state "access_token" = Ok access_token /\
  exists expires_at q limit,
    getitem state "expires_at" = Ok expires_at /\
    as_number expires_at = Some q /\
    float_add now (inject_Z 120) = Ok limit /\
    (limit < q)%Q.

(** The requests of the two token exchanges. *)
Definition refresh_request (client_id client_secret : string) (refresh_token : value)
  : Request :=
  mkRequest "POST" token_url (token_headers client_id client_secret) VNone VNone
    (VDict [("grant_type", VStr "refresh_token"); ("refresh_token", refresh_token)]).

Definition exchange_request (client_id client_secret : string) (auth_code : value)
  (redirect_uri : string) : Request :=
  mkRequest "POST" token_url (token_headers client_id client_secret) VNone VNone
    (VDict [("grant_type", VStr "authorization_code"); ("code", auth_code);
            ("redirect_uri", VStr redirect_uri)]).

(** The remote side answered the last request of [w'] with status 200
    and the truthy JSON body [token_data]: a successful exchange. *)
Definition exchanged (w' : World) (token_data : value) : Prop :=
  exists response,
    remote w' (sent w') = Ok response /\
    status_code response = 200 /\
    json_method response = Ok token_data /\
    truthy token_data = true.

(** [w'] differs from [w] at most in the lines printed, the lines still
    to be typed, the listener and the two globals. *)
Definition quiet (w w' : World) : Prop :=
  remote w' = remote w /\ now w' = now w /\ sent w' = sent w /\
  opened w' = opened w /\ state_file w' = state_file w.

(** The three ways a token exchange ends. *)
Inductive exchange_outcome (w' : World) : res value -> Prop :=
| exchange_raised e : exchange_outcome w' (Raise e)
| exchange_refused response :
    remote w' (sent w') = Ok response -> status_code response <> 200 ->
    exchange_outcome w' (Ok VNone)
| exchange_answered response token_data :
    remote w' (sent w') = Ok response -> status_code response = 200 ->
    json_method response = Ok token_data ->
    exchange_outcome w' (Ok token_data).

(** A computation that ends in every world. *)
Definition total {A : Type} (m : M A) : Prop :=
  forall w, exists r w', m w = Some (r, w').

(** The call of [get_user_auth_token] contacted something between [w]
    and [w']: it sent a refresh request first, or it opened the
    authorize page in the browser. *)
Definition contacted (client_id client_secret : string) (w w' : World) : Prop :=
  (exists refresh_token rest,
      sent w' = sent w ++ refresh_request client_id client_secret refresh_token :: rest) \/
  (exists auth_url, opened w' = opened w ++ [auth_url]).

(** A state document with a saved token that expires at [expires_at]
    and, if [with_refresh], a refresh token. *)
Definition token_state (expires_at : Z) (with_refresh : bool) : value :=
  VDict ([("artist_choices", VDict []);
          ("access_token", VStr "saved_token");
          ("expires_at", VInt expires_at)]
         ++ if with_refresh then [("refresh_token", VStr "saved_refresh")] else []).

(** A token endpoint that answers 200 with a new token, or with a body
    whose [access_token] is [null]. *)
Definition token_endpoint (access_token : value) (history : list Request) : res Response :=
  answer 200 [] "{access_token: ...}"
    (Ok (VDict [("access_token", access_token); ("expires_in", VInt 3600);
                ("refresh_token", VStr "new_refresh")])).

(** What [urlparse] reads from the default callback URL. *)
Definition localhost (url : string) : res (option string) := Ok (Some "localhost").
Definition port_8888 (url : string) : res (option Z) := Ok (Some 8888).

(** The integer nearest to [n / d] for a positive [d], the even one of
    two at the same distance. *)
Definition round_half_even (n d : Z) : Z :=
  let q := n / d in
  match (2 * (n mod d) ?= d)%Z with
  | Lt => q
  | Gt => q + 1
  | Eq => if Z.even q then q else q + 1
  end.

(** The binary64 float nearest to a rational, ties to even: 53
    significant bits, exponents down to that of the subnormal floats;
    [None] when the nearest float would lie beyond the largest one. *)
Definition nearest_float (x : Q) : option Q :=
  let n := Z.abs (Qnum x) in
  let d := Zpos (Qden x) in
  if (n =? 0)%Z then Some 0%Q
  else
    let e0 := Z.log2 n - Z.log2 d in
    let e := if (if 0 <=? e0 then d * 2 ^ e0 <=? n else d <=? n * 2 ^ (- e0))%Z
             then e0 else e0 - 1 in
    let u := Z.max (e - 52) (-1074) in
    let m := if (0 <=? u)%Z then round_half_even n (d * 2 ^ u)
             else round_half_even (n * 2 ^ (- u)) d in
    if (0 <=? u)%Z then
      if (2 ^ 1024 <=? m * 2 ^ u)%Z then None
      else Some (inject_Z (Z.sgn (Qnum x) * m * 2 ^ u))
    else Some (Qred (Qmake (Z.sgn (Qnum x) * m) (Z.to_pos (2 ^ (- u))))).

(** The float sum on binary64 floats, the floats of CPython: the number
    added is rounded to a float first ([OverflowError] for an int
    beyond the largest float), then the sum is.  A sum beyond the
    largest float is [inf] on the machine, which is not among the
    numbers of a [value]; this instance raises there, far from the
    clock readings and lifetimes of the examples. *)
Definition binary64_add (x y : Q) : res Q :=
  match nearest_float y with
  | None => Raise OverflowError
  | Some y' =>
      match nearest_float (x + y') with
      | Some sum => Ok sum
      | None => Raise OverflowError
      end
  end.

(** ** Primary credit *)








(** A small discography of the artist "a1": an album of their own with
    a track of their own and a track led by a guest, and an album on
    which they are listed second. *)
Definition own_album : value :=
  VDict [("id", VStr "al1"); ("release_date", VStr "2015-01-01");
         ("artists", VList [VDict [("id", VStr "a1")]; VDict [("id", VStr "a2")]])].

Definition guest_album : value :=
  VDict [("id", VStr "al2"); ("release_date", VStr "2020-05-05");
         ("artists", VList [VDict [("id", VStr "a2")]; VDict [("id", VStr "a1")]])].




(** ** Failures of the transport *)

(** From world [w] on, the first [n] sendings of [req] fail with a
    [RequestException]: no answer comes back. *)
Definition unreachable (w : World) (req : Request) (n : nat) : Prop :=
  forall j, (j < n)%nat ->
    remote w (sent w ++ repeat req (S j)) = Raise RequestException.

(** A remote side on which the first [n] requests fail in transport and
    the following ones are answered with a JSON body. *)
Definition down_for (n : nat) (history : list Request) : res Response :=
  if (List.length history <=? n)%nat then Raise RequestException
  else answer 200 [] "{data: test}" (Ok (VDict [("data", VStr "test")])).




(** ** What a computation leaves as it was *)

(** Every run of [m] that ends takes a world [w] to a world [w'] with
    [R w w']. *)
Definition preserves {A : Type} (R : World -> World -> Prop) (m : M A) : Prop :=
  forall w r w', m w = Some (r, w') -> R w w'.

(** [w'] differs from [w] at most in the lines printed, the lines still
    to be typed, the state file and the requests sent, and every request
    sent in between is a GET: nothing was created or changed on the
    remote side, no page was opened in the browser and the listener and
    the globals are as they were. *)
Definition read_only (w w' : World) : Prop :=
  (exists requests,
      sent w' = sent w ++ requests /\
      Forall (fun r => verb r = "GET") requests) /\
  remote w' = remote w /\
  opened w' = opened w /\
  listening w' = listening w /\
  AUTH_CODE w' = AUTH_CODE w /\
  AUTH_CODE_RECEIVED w' = AUTH_CODE_RECEIVED w.

(** The request of [get_client_credentials_token]. *)
Definition credentials_request (client_id client_secret : string) : Request :=
  mkRequest "POST" token_url (token_headers client_id client_secret) VNone VNone
    (VDict [("grant_type", VStr "client_credentials")]).

(** A small service: the token endpoint, a search with one result, one
    album with two tracks, the current user, and playlists. *)
Definition artist_one : value := VDict [("id", VStr "a1"); ("name", VStr "Artist One")].

Definition album_one : value :=
  VDict [("id", VStr "al1"); ("release_date", VStr "2015-01-01");
         ("artists", VList [artist_one])].

Definition track_beta : value :=
  VDict [("id", VStr "t2"); ("name", VStr "Beta"); ("uri", VStr "spotify:track:t2");
         ("artists", VList [artist_one])].

Definition track_alpha : value :=
  VDict [("id", VStr "t1"); ("name", VStr "Alpha"); ("uri", VStr "spotify:track:t1");
         ("artists", VList [artist_one])].

(** Whether a piece of a URL is the literal [s]. *)
Definition is_lit (s : string) (p : piece) : bool :=
  match p with Lit t => t =? s | _ => false end.

Definition service (history : list Request) : res Response :=
  match rev history with
  | r :: _ =>
      match url r with
      | [_; p] =>
          if is_lit "/api/token" p then
            answer 200 [] "{access_token: ...}"
              (Ok (VDict [("access_token", VStr "token"); ("expires_in", VInt 3600);
                          ("refresh_token", VStr "refresh")]))
          else answer 404 [] "Not found" (Raise ValueError)
      | [_; _; p] =>
          if is_lit "search" p then
            answer 200 [] "{artists: ...}"
              (Ok (VDict [("artists", VDict [("items", VList [artist_one])])]))
          else if is_lit "me" p then
            answer 200 [] "{id: ...}"
              (Ok (VDict [("id", VStr "u1"); ("display_name", VStr "User One")]))
          else answer 404 [] "Not found" (Raise ValueError)
      | [_; _; p; Fmt _; q] =>
          if is_lit "artists/" p && is_lit "/albums" q then
            answer 200 [] "{items: ...}"
              (Ok (VDict [("items", VList [album_one]); ("next", VNone)]))
          else if is_lit "albums/" p && is_lit "/tracks" q then
            answer 200 [] "{items: ...}"
              (Ok (VDict [("items", VList [track_beta; track_alpha]); ("next", VNone)]))
          else if is_lit "users/" p && is_lit "/playlists" q then
            answer 201 [] "{id: ...}" (Ok some_playlist)
          else if is_lit "playlists/" p && is_lit "/tracks" q then
            answer 201 [] "{snapshot_id: s1}" (Ok (VDict [("snapshot_id", VStr "s1")]))
          else answer 404 [] "Not found" (Raise ValueError)
      | _ => answer 404 [] "Not found" (Raise ValueError)
      end
  | [] => Raise RequestException
  end.

(** A command line that asks for the tracks of "Artist One" by name. *)
Definition some_args (dryrun : bool) : Args :=
  mkArgs "Artist One" "name" "asc" "id" "secret" "http://localhost:8888/callback"
         dryrun (VStr "My Playlist").

(** ** Sorting by name and the order of popularity *)

(** [x['name']] when it is a string. *)
Definition name_of (track : value) : string :=
  match getitem track "name" with
  | Ok (VStr s) => s
  | _ => ""
  end.

(** A track (a dict) whose name is a string. *)
Definition named (track : value) : Prop :=
  exists s, getitem track "name" = Ok (VStr s).

(** The names of [a] and [b] are in the order of [<=] on strings: code
    point by code point, so that every capital letter comes before
    every small one. *)
Definition name_le (a b : value) : Prop := String.leb (name_of a) (name_of b) = true.

(** The tracks of [l] named [n], in the order of [l]. *)
Definition named_as (n : string) (l : list value) : list value :=
  filter (fun t => name_of t =? n) l.

(** [x.get('popularity', 0)] when it is a number. *)
Definition popularity_of (track : value) : Q :=
  match get track "popularity" (VInt 0) with
  | Ok v => match as_number v with Some q => q | None => 0%Q end
  | Raise _ => 0%Q
  end.

(** A track record (a dict) whose popularity is a number or is missing. *)
Definition rated (track : value) : Prop :=
  exists v q, get track "popularity" (VInt 0) = Ok v /\ as_number v = Some q.

Definition popularity_le (a b : value) : Prop :=
  (popularity_of a <= popularity_of b)%Q.

(** The tracks of [l] whose popularity is [q], in the order of [l]. *)
Definition rated_at (q : Q) (l : list value) : list value :=
  filter (fun t => Qeq_bool (popularity_of t) q) l.

(** [<=] on the keys of a sort, strings among themselves and numbers
    among themselves. *)
Definition key_leb (a b : value) : bool :=
  match a, b with
  | VStr s, VStr t => String.leb s t
  | _, _ =>
      match as_number a, as_number b with
      | Some p, Some q => Qle_bool p q
      | _, _ => false
      end
  end.

(** Keys that count as equal in a sort. *)
Definition key_eqv (a b : value) : bool := key_leb a b && key_leb b a.

Definition is_string (v : value) : Prop := exists s, v = VStr s.

Definition is_number (v : value) : Prop := exists q, as_number v = Some q.

(** Three tracks by name, two of which share a name, one without. *)
Definition named_tracks : list value :=
  [VDict [("id", VStr "t1"); ("name", VStr "beta")];
   VDict [("id", VStr "t2"); ("name", VStr "Gamma")];
   VDict [("id", VStr "t3"); ("name", VStr "alpha")];
   VDict [("id", VStr "t4"); ("name", VStr "beta")]].

Definition nameless_track : value := VDict [("id", VStr "t5")].

(** A remote side that knows the popularity of the tracks "t1" (50),
    "t2" (10) and "t3" (50) and of no other. *)
Definition charts (history : list Request) : res Response :=
  match rev history with
  | r :: _ =>
      match url r with
      | [_; _; _; Fmt (VStr id)] =>
          if id =? "t1" then
            answer 200 [] "{id: t1, ...}" (Ok (VDict [("id", VStr "t1"); ("popularity", VInt 50)]))
          else if id =? "t2" then
            answer 200 [] "{id: t2, ...}" (Ok (VDict [("id", VStr "t2"); ("popularity", VInt 10)]))
          else if id =? "t3" then
            answer 200 [] "{id: t3, ...}" (Ok (VDict [("id", VStr "t3"); ("popularity", VInt 50)]))
          else answer 404 [] "Not found" (Raise ValueError)
      | _ => answer 404 [] "Not found" (Raise ValueError)
      end
  | [] => Raise RequestException
  end.

(** ** Pages *)

(** [paged endpoint token params_at limit offset w items w']: from
    world [w], the pages of [endpoint] asked from [offset] on, [limit]
    items at a time, hold [items] in all, and the last request leaves
    world [w'].  The run of pages ends with an answer that is falsy or
    has no items, which adds nothing, or with a page that is shorter
    than [limit] or announces no next page. *)
Inductive paged (endpoint : fstring) (token : value) (params_at : Z -> value) (limit : Z)
  : Z -> World -> list value -> World -> Prop :=
| paged_end offset w result w' :
    api_get endpoint token (params_at offset) w = Some (Ok result, w') ->
    (truthy result = false \/
     exists items, get result "items" VNone = Ok items /\ truthy items = false) ->
    paged endpoint token params_at limit offset w [] w'
| paged_last offset w result items w' :
    api_get endpoint token (params_at offset) w = Some (Ok result, w') ->
    truthy result = true ->
    getitem result "items" = Ok (VList items) ->
    items <> [] ->
    (Z.of_nat (List.length items) < limit \/
     exists next, get result "next" VNone = Ok next /\ truthy next = false) ->
    paged endpoint token params_at limit offset w items w'
| paged_more offset w result items next w1 rest w' :
    api_get endpoint token (params_at offset) w = Some (Ok result, w1) ->
    truthy result = true ->
    getitem result "items" = Ok (VList items) ->
    items <> [] ->
    limit <= Z.of_nat (List.length items) ->
    get result "next" VNone = Ok next ->
    truthy next = true ->
    paged endpoint token params_at limit (offset + limit) w1 rest w' ->
    paged endpoint token params_at limit offset w (items ++ rest) w'.

(** The query parameters of the two listings. *)
Definition albums_params (offset : Z) : value :=
  VDict [("include_groups", VStr "album,single"); ("limit", VInt 50);
         ("offset", VInt offset)].

Definition tracks_params (offset : Z) : value :=
  VDict [("limit", VInt 50); ("offset", VInt offset)].

(** A remote side with 51 albums: a full page that announces a next
    one, then a page of one; and one whose second page fails. *)
Definition long_discography (second_fails : bool) (history : list Request)
  : res Response :=
  match rev history with
  | r :: _ =>
      match get (params r) "offset" VNone with
      | Ok offset =>
          if py_eq offset (VInt 0) then
            answer 200 [] "{items: ...}"
              (Ok (VDict [("items", VList (repeat own_album 50));
                          ("next", VStr "https://api.spotify.com/v1/...offset=50")]))
          else if second_fails then answer 500 [] "Internal Server Error" (Raise ValueError)
          else answer 200 [] "{items: ...}"
                 (Ok (VDict [("items", VList [guest_album]); ("next", VNone)]))
      | Raise _ => answer 404 [] "Not found" (Raise ValueError)
      end
  | [] => Raise RequestException
  end.

(** ** Choosing among several artists *)





(** ** The driver *)




(** ** The entries of the state document *)

(** [state["artist_choices"][name]]. *)
Definition choice_of (state : value) (name : string) : res value :=
  res_bind (getitem state "artist_choices") (fun choices => getitem choices name).

(** [state'] is [state] but for the choice saved for [artist_name]:
    every other entry of the document and the choice for every other
    name is what it was. *)
Definition choices_touched (artist_name : string) (state state' : value) : Prop :=
  (forall key, key <> "artist_choices" -> getitem state' key = getitem state key) /\
  (forall other, other <> artist_name -> choice_of state' other = choice_of state other).

(** The state file of [w'] is that of [w], or it holds a document that
    is [state] with the entries [keep] does not select replaced. *)
Definition rewritten (keep : value -> value -> Prop) (state : value) (w w' : World) : Prop :=
  state_file w' = state_file w \/
  exists state', state_file w' = Document state' /\ keep state state'.

(** [state'] is [state] but for the three entries of the user token. *)
Definition tokens_touched (state state' : value) : Prop :=
  forall key,
    key <> "access_token" -> key <> "refresh_token" -> key <> "expires_at" ->
    getitem state' key = getitem state key.

(** A state file with a user token and two choices, one of them for a
    name whose artist the catalog no longer has. *)
Definition full_state : value :=
  VDict [("artist_choices",
          VDict [("Gone", VDict [("id", VStr "a0"); ("name", VStr "Gone")]);
                 ("Other", VDict [("id", VStr "a9"); ("name", VStr "Other")])]);
         ("access_token", VStr "saved_token");
         ("refresh_token", VStr "saved_refresh");
         ("expires_at", VInt 0)].

(** ** The listener and the browser *)

(** Neither the listener nor the browser has been touched between [w]
    and [w']. *)
Definition idle (w w' : World) : Prop :=
  listening w' = listening w /\ opened w' = opened w.

(** * Properties *)

(** ** Monad laws used in the proofs *)

Lemma bind_Ok {A B} (m : M A) (k : A -> M B) w a w' :
  m w = Some (Ok a, w') -> bind m k w = k a w'.
Proof. unfold bind. intros ->. reflexivity. Qed.

Lemma bind_Raise {A B} (m : M A) (k : A -> M B) w e w' :
  m w = Some (Raise e, w') -> bind m k w = Some (Raise e, w').
Proof. unfold bind. intros ->. reflexivity. Qed.



Lemma while_S {S R} fuel (body : S -> M (step S R)) s w :
  while (Datatypes.S fuel) body s w =
  bind (body s) (fun c => match c with
                          | Again s' => while fuel body s'
                          | Return r => ret r
                          end) w.
Proof. reflexivity. Qed.

(** ** The HTTP client wrapper *)

Section Client.

Variables (endpoint : fstring) (token : value) (method : string).
Variables (data params : value) (max_retries : Z).
Hypothesis method_supported : supported method.

Let req : Request := request_of endpoint token method data params.
Let turn : Z -> M (step Z value) :=
  attempt ([Lit SPOTIFY_API_BASE; Lit "/"] ++ endpoint)
          [("Authorization", [Lit "Bearer "; Fmt token])]
          method data params max_retries.

(** A turn past the bound gives up without sending anything. *)
Lemma turn_exhausted retries w :
  max_retries < retries ->
  exists w', turn retries w = Some (Ok (Return VNone), w') /\
             sent w' = sent w /\ slept w' = slept w /\ remote w' = remote w.
Proof.
  intros H. unfold turn, attempt.
  destruct (Z.leb_spec retries max_retries); [lia|].
  eexists. split; [reflexivity|]. simpl. auto.
Qed.

(** A turn within the bound sends [req] once; what it does next depends
    on the answer. *)
Lemma turn_sends retries w :
  retries <= max_retries ->
  exists c w', turn retries w = Some (c, w') /\
               sent w' = sent w ++ [req] /\ remote w' = remote w /\
               (forall s, c = Ok (Again s) -> s = retries + 1).
Proof.
  intros H. unfold turn, attempt, req, request_of.
  destruct (Z.leb_spec retries max_retries); [|lia].
  unfold try_except, bind, requests_get, requests_post_json, requests_put_json, send.
  destruct method_supported as [-> | [-> | ->]]; simpl;
  match goal with
  | |- context [remote w ?h] => destruct (remote w h) as [response | e]
  end; simpl.
  all: try (destruct (status_code response =? 429)%Z; simpl;
            [ destruct (retry_after_of response) as [d | e]; simpl;
              [ unfold sleep;
                destruct ((d <? - sleep_max) || (sleep_max <? d))%Z; simpl;
                [ | destruct (d <? 0)%Z; simpl ] | ]
            | destruct (status_code response >=? 400)%Z; simpl;
              [ | destruct (text response =? ""); simpl;
                  [ | destruct (json_method response); simpl ] ] ]).
  all: try (destruct e; simpl; try (destruct (Z.ltb_spec retries max_retries); simpl)).
  all: try (do 2 eexists; split; [reflexivity|]; simpl;
            repeat split; auto; intros s Hs; congruence).
Qed.

(** A rate-limited turn sleeps as asked and goes round again. *)
Lemma turn_rate_limited retries w response d :
  retries <= max_retries ->
  remote w (sent w ++ [req]) = Ok response ->
  status_code response = 429 ->
  retry_after_of response = Ok d ->
  0 <= d <= sleep_max ->
  exists w', turn retries w = Some (Ok (Again (retries + 1)), w') /\
             sent w' = sent w ++ [req] /\ slept w' = slept w ++ [d] /\
             remote w' = remote w.
Proof.
  intros Hle Hans Hst Hd Hpos. unfold turn, attempt.
  destruct (Z.leb_spec retries max_retries); [|lia].
  unfold try_except, bind, requests_get, requests_post_json, requests_put_json, send.
  unfold req, request_of in Hans.
  destruct method_supported as [-> | [-> | ->]]; simpl in *;
    rewrite Hans; simpl; rewrite Hst; simpl; rewrite Hd; simpl;
    unfold sleep;
    (destruct (Z.ltb_spec d (- sleep_max)); [lia|]);
    (destruct (Z.ltb_spec sleep_max d); [lia|]);
    (destruct (Z.ltb_spec d 0); [lia|]); simpl;
    eexists; (split; [reflexivity|]); simpl; auto.
Qed.

(** A turn answered with a status below 400 returns the payload. *)
Lemma turn_answered retries w response v :
  retries <= max_retries ->
  remote w (sent w ++ [req]) = Ok response ->
  status_code response < 400 ->
  payload response = Ok v ->
  exists w', turn retries w = Some (Ok (Return v), w') /\
             sent w' = sent w ++ [req] /\ slept w' = slept w.
Proof.
  intros Hle Hans Hst Hv. unfold turn, attempt.
  destruct (Z.leb_spec retries max_retries); [|lia].
  unfold try_except, bind, requests_get, requests_post_json, requests_put_json, send.
  unfold req, request_of in Hans. unfold payload in Hv.
  destruct method_supported as [-> | [-> | ->]]; simpl in *;
    rewrite Hans; simpl;
    (destruct (Z.eqb_spec (status_code response) 429); [lia|]);
    (destruct (Z.geb_spec (status_code response) 400); [lia|]);
    destruct (text response =? ""); simpl;
    try rewrite Hv; simpl;
    try (injection Hv as <-);
    eexists; (split; [reflexivity|]); simpl; auto.
Qed.

Lemma rate_limited_tail w w' d ds :
  rate_limited w req (d :: ds) ->
  sent w' = sent w ++ [req] ->
  remote w' = remote w ->
  rate_limited w' req ds.
Proof.
  intros H Hs Hr j x Hj.
  destruct (H (S j) x Hj) as (response & Ha & Hrest).
  exists response. split; [|exact Hrest].
  rewrite Hr, Hs, <- app_assoc. exact Ha.
Qed.

(** The loop goes through a run of rate-limit answers, one turn and
    one sleep for each. *)
Lemma while_rate_limited ds :
  forall fuel retries w,
    rate_limited w req ds ->
    retries + Z.of_nat (List.length ds) <= max_retries + 1 ->
    exists w',
      while (List.length ds + fuel) turn retries w =
        while fuel turn (retries + Z.of_nat (List.length ds)) w' /\
      sent w' = sent w ++ repeat req (List.length ds) /\
      slept w' = slept w ++ ds /\
      remote w' = remote w.
Proof.
  induction ds as [|d ds IH]; intros fuel retries w Hrl Hlen.
  - exists w. simpl. rewrite Z.add_0_r, !app_nil_r. auto.
  - destruct (Hrl 0%nat d eq_refl) as (response & Ha & Hst & Hd & Hpos).
    simpl List.length in *.
    destruct (turn_rate_limited retries w response d) as (w1 & Ht & Hs1 & Hz1 & Hr1);
      auto; try lia.
    destruct (IH fuel (retries + 1) w1) as (w' & Hw & Hs & Hz & Hr).
    + eapply rate_limited_tail; eauto.
    + lia.
    + exists w'. split; [|split; [|split]].
      * change (Datatypes.S (List.length ds) + fuel)%nat
          with (Datatypes.S (List.length ds + fuel)).
        rewrite while_S, (bind_Ok _ _ _ _ _ Ht), Hw.
        f_equal. lia.
      * rewrite Hs, Hs1, <- app_assoc. reflexivity.
      * rewrite Hz, Hz1, <- app_assoc. reflexivity.
      * congruence.
Qed.

(** The loop always ends within the fuel [make_spotify_request] gives
    it, having sent [req] at most [max_retries + 1] times. *)
Lemma while_total fuel :
  forall retries w,
    0 <= retries ->
    Z.max 0 (max_retries + 1 - retries) < Z.of_nat fuel ->
    exists r w' n,
      while fuel turn retries w = Some (r, w') /\
      sent w' = sent w ++ repeat req n /\
      retries + Z.of_nat n <= Z.max retries (max_retries + 1).
Proof.
  induction fuel as [|fuel IH]; intros retries w H0 Hf; [simpl in Hf; lia|].
  rewrite while_S.
  destruct (Z.le_gt_cases retries max_retries) as [Hle | Hgt].
  - destruct (turn_sends retries w Hle) as (c & w1 & Ht & Hs1 & Hr1 & Hc).
    destruct c as [[s | r] | e].
    + rewrite (bind_Ok _ _ _ _ _ Ht). specialize (Hc s eq_refl). subst s.
      destruct (IH (retries + 1) w1) as (r & w' & n & Hw & Hs & Hn); try lia.
      exists r, w', (Datatypes.S n). split; [exact Hw|]. split.
      * rewrite Hs, Hs1, <- app_assoc. reflexivity.
      * lia.
    + rewrite (bind_Ok _ _ _ _ _ Ht). exists (Ok r), w1, 1%nat.
      split; [reflexivity|]. split; [exact Hs1|lia].
    + rewrite (bind_Raise _ _ _ _ _ Ht). exists (Raise e), w1, 1%nat.
      split; [reflexivity|]. split; [exact Hs1|lia].
  - destruct (turn_exhausted retries w) as (w1 & Ht & Hs1 & _); [lia|].
    rewrite (bind_Ok _ _ _ _ _ Ht). exists (Ok VNone), w1, 0%nat.
    split; [reflexivity|]. split; [rewrite Hs1, app_nil_r; reflexivity|lia].
Qed.

End Client.

(** *** The three facts behind the rate-limit property *)

Lemma make_spotify_request_sends endpoint token method data params max_retries w :
  supported method ->
  exists r w' n,
    make_spotify_request endpoint token method data params max_retries w = Some (r, w') /\
    sent w' = sent w ++ repeat (request_of endpoint token method data params) n /\
    Z.of_nat n <= Z.max 0 (max_retries + 1).
Proof.
  intros Hm. unfold make_spotify_request.
  destruct (while_total endpoint token method data params max_retries Hm
              (S (Z.to_nat (max_retries + 1))) 0 w) as (r & w' & n & H & Hs & Hn);
    try lia.
  exists r, w', n. split; [exact H|]. split; [exact Hs|]. lia.
Qed.

Lemma make_spotify_request_answered endpoint token method data params max_retries w
      ds response v :
  supported method ->
  rate_limited w (request_of endpoint token method data params) ds ->
  Z.of_nat (List.length ds) <= max_retries ->
  remote w (sent w ++ repeat (request_of endpoint token method data params)
                        (S (List.length ds))) = Ok response ->
  status_code response < 400 ->
  payload response = Ok v ->
  exists w',
    make_spotify_request endpoint token method data params max_retries w
    = Some (Ok v, w') /\
    slept w' = slept w ++ ds /\
    sent w' = sent w ++ repeat (request_of endpoint token method data params)
                          (S (List.length ds)).
Proof.
  intros Hm Hrl Hlen Hans Hst Hv. unfold make_spotify_request.
  destruct (while_rate_limited endpoint token method data params max_retries Hm ds
              (S (Z.to_nat (max_retries + 1) - List.length ds)) 0 w Hrl)
    as (w1 & Hw & Hs1 & Hz1 & Hr1); [lia|].
  replace (S (Z.to_nat (max_retries + 1)))
    with (List.length ds + S (Z.to_nat (max_retries + 1) - List.length ds))%nat by lia.
  rewrite Hw, while_S.
  destruct (turn_answered endpoint token method data params max_retries Hm
              (0 + Z.of_nat (List.length ds)) w1 response v)
    as (w' & Ht & Hs & Hz); auto; try lia.
  - rewrite Hr1, Hs1, <- app_assoc, <- repeat_cons. exact Hans.
  - rewrite (bind_Ok _ _ _ _ _ Ht). exists w'. split; [reflexivity|].
    split; [congruence|].
    rewrite Hs, Hs1, <- app_assoc, <- repeat_cons. reflexivity.
Qed.




(** ** Adding tracks in batches *)

Lemma skipn_skipn {A} (n m : nat) (l : list A) : skipn n (skipn m l) = skipn (m + n) l.
Proof.
  revert l. induction m as [|m IH]; intros l; [reflexivity|].
  destruct l; simpl; [apply skipn_nil | apply IH].
Qed.

Lemma chunks_concat {A} (size : nat) (m : nat) :
  forall l : list A,
    (List.length l <= m * size)%nat ->
    List.concat (map (fun k => firstn size (skipn (k * size) l)) (seq 0 m)) = l.
Proof.
  induction m as [|m IH]; intros l Hl.
  - destruct l; [reflexivity | simpl in Hl; lia].
  - change (seq 0 (S m)) with (0%nat :: seq 1 m).
    rewrite <- seq_shift, map_cons, map_map.
    cbn [List.concat]. simpl (0 * size)%nat. simpl skipn at 1.
    transitivity (firstn size l ++ skipn size l); [|apply firstn_skipn].
    f_equal. rewrite <- (IH (skipn size l)) at 1.
    + apply f_equal, map_ext. intros k. rewrite skipn_skipn. reflexivity.
    + rewrite length_skipn. lia.
Qed.

Lemma batches_concat track_uris : List.concat (batches track_uris) = track_uris.
Proof.
  unfold batches, range_step. rewrite map_map.
  apply (chunks_concat 100).
  pose proof (Nat.div_mod_eq (List.length track_uris + 100 - 1) 100).
  pose proof (Nat.mod_upper_bound (List.length track_uris + 100 - 1) 100).
  lia.
Qed.

Lemma batches_sizes track_uris :
  Forall (fun batch => (1 <= List.length batch <= 100)%nat) (batches track_uris).
Proof.
  unfold batches, range_step. rewrite map_map. apply Forall_forall.
  intros batch Hin. apply in_map_iff in Hin. destruct Hin as (k & <- & Hk).
  apply in_seq in Hk. unfold batch_at.
  rewrite length_firstn, length_skipn.
  pose proof (Nat.div_mod_eq (List.length track_uris + 100 - 1) 100).
  pose proof (Nat.mod_upper_bound (List.length track_uris + 100 - 1) 100).
  lia.
Qed.

Lemma range_step_nth stop step done i rest :
  range_step stop step = done ++ i :: rest -> i = (List.length done * step)%nat.
Proof.
  unfold range_step. intros H.
  assert (Hn : nth_error (map (fun k => (k * step)%nat) (seq 0 ((stop + step - 1) / step)))
                 (List.length done) = Some i).
  { rewrite H, nth_error_app2, Nat.sub_diag; [reflexivity | lia]. }
  rewrite nth_error_map in Hn.
  destruct (nth_error (seq 0 _) (List.length done)) as [k|] eqn:Hk; [|discriminate].
  apply nth_error_nth with (d := 0%nat) in Hk.
  assert (Hlt : (List.length done < (stop + step - 1) / step)%nat).
  { apply (f_equal (@List.length nat)) in H.
    rewrite length_map, length_seq, length_app in H. simpl in H. lia. }
  rewrite seq_nth in Hk by exact Hlt. simpl in Hn. injection Hn as <-. lia.
Qed.

Section Batches.

Variables (token playlist_id : value) (track_uris : list value).

Let body (i : nat) (_ : unit) : M (step unit bool) :=
  let batch := batch_at track_uris i in
  let data := VDict [("uris", VList batch)] in
  result <- make_spotify_request [Lit "playlists/"; Fmt playlist_id; Lit "/tracks"]
              token "POST" data VNone 5 ;;
  if negb (truthy result) then
    print [Lit "Failed to add tracks "; Fmt (VInt (Z.of_nat i + 1)); Lit " to ";
           Fmt (VInt (Z.of_nat i + Z.of_nat (List.length batch)));
           Lit " to playlist."] ;;
    ret (Return false)
  else ret (Again tt).

Lemma loop_submitted offsets :
  forall w w',
    submitted token playlist_id (map (batch_at track_uris) offsets) w w' ->
    forall rest, for_each (offsets ++ rest) body tt w = for_each rest body tt w'.
Proof.
  induction offsets as [|i offsets IH]; intros w w' H rest; simpl in H.
  - inversion H; subst. reflexivity.
  - inversion H as [|? ? ? result w1 ? Hs Ht Hrest]; subst.
    cbn [app for_each]. unfold submit in Hs.
    unfold bind at 1. unfold body at 1. unfold bind at 1.
    rewrite Hs, Ht. cbn [negb]. unfold ret at 1. apply IH. exact Hrest.
Qed.

Lemma loop_fails i rest w result w' :
  submit token playlist_id (batch_at track_uris i) w = Some (Ok result, w') ->
  truthy result = false ->
  for_each (i :: rest) body tt w =
  Some (Ok (Return false),
        with_console
          (console w' ++ [failure_report (Z.of_nat i + 1)
                            (Z.of_nat i + Z.of_nat (List.length (batch_at track_uris i)))])
          w').
Proof.
  intros Hs Hf. cbn [for_each]. unfold submit in Hs.
  unfold bind at 1. unfold body at 1. unfold bind at 1.
  rewrite Hs, Hf. reflexivity.
Qed.

Lemma add_tracks_all_submitted w w' :
  submitted token playlist_id (batches track_uris) w w' ->
  add_tracks_to_playlist token playlist_id track_uris w = Some (Ok true, w').
Proof.
  intros H. unfold add_tracks_to_playlist. fold body.
  rewrite <- (app_nil_r (range_step _ _)).
  unfold bind. rewrite (loop_submitted _ _ _ H). reflexivity.
Qed.

Lemma add_tracks_batch_fails done batch rest w w1 result w2 :
  batches track_uris = done ++ batch :: rest ->
  submitted token playlist_id done w w1 ->
  submit token playlist_id batch w1 = Some (Ok result, w2) ->
  truthy result = false ->
  add_tracks_to_playlist token playlist_id track_uris w =
  Some (Ok false,
        with_console
          (console w2 ++ [failure_report (100 * Z.of_nat (List.length done) + 1)
                            (100 * Z.of_nat (List.length done)
                             + Z.of_nat (List.length batch))])
          w2).
Proof.
  intros Hb Hd Hs Hf. unfold batches in Hb.
  apply map_eq_app in Hb. destruct Hb as (offs1 & offs2 & Ho & <- & Hb).
  apply map_eq_cons in Hb. destruct Hb as (i & offs3 & -> & <- & <-).
  pose proof (range_step_nth _ _ _ _ _ Ho) as Hi.
  unfold add_tracks_to_playlist. fold body. rewrite Ho.
  unfold bind. rewrite (loop_submitted _ _ _ Hd), (loop_fails _ _ _ _ _ Hs Hf).
  rewrite length_map. subst i.
  replace (Z.of_nat (List.length offs1 * 100))
    with (100 * Z.of_nat (List.length offs1)) by lia.
  reflexivity.
Qed.

Lemma submitted_sends bs :
  forall w w',
    submitted token playlist_id bs w w' ->
    exists attempts,
      List.length attempts = List.length bs /\
      sent w' = sent w ++ submissions token playlist_id bs attempts.
Proof.
  induction bs as [|b bs IH]; intros w w' H.
  - inversion H; subst. exists []. split; [reflexivity|].
    unfold submissions. simpl. rewrite app_nil_r. reflexivity.
  - inversion H as [|? ? ? result w1 ? Hs Ht Hrest]; subst.
    destruct (make_spotify_request_sends
                [Lit "playlists/"; Fmt playlist_id; Lit "/tracks"] token "POST"
                (VDict [("uris", VList b)]) VNone 5 w) as (r & wx & n & Hc & Hsent & _);
      [right; left; reflexivity|].
    unfold submit in Hs. rewrite Hs in Hc. injection Hc as <- <-.
    destruct (IH _ _ Hrest) as (attempts & Hlen & Hsent').
    exists (n :: attempts). split; [simpl; congruence|].
    rewrite Hsent', Hsent. unfold submissions. simpl.
    rewrite <- app_assoc. reflexivity.
Qed.

End Batches.

Lemma combine_append {A B} (l1 l2 : list A) (k1 k2 : list B) :
  List.length k1 = List.length l1 ->
  combine (l1 ++ l2) (k1 ++ k2) = combine l1 k1 ++ combine l2 k2.
Proof.
  revert k1. induction l1 as [|x l1 IH]; intros [|y k1] H; simpl in *;
    try discriminate; [reflexivity|].
  rewrite IH by congruence. reflexivity.
Qed.

Lemma submissions_app token playlist_id bs1 bs2 attempts1 attempts2 :
  List.length attempts1 = List.length bs1 ->
  submissions token playlist_id (bs1 ++ bs2) (attempts1 ++ attempts2) =
  submissions token playlist_id bs1 attempts1 ++ submissions token playlist_id bs2 attempts2.
Proof.
  intros Hlen. unfold submissions.
  rewrite combine_append by exact Hlen.
  rewrite map_app, concat_app. reflexivity.
Qed.

Lemma report_after_failure token playlist playlist_id sorted_tracks track_uris w w3 :
  uris_of sorted_tracks = Ok track_uris ->
  getitem playlist "id" = Ok playlist_id ->
  add_tracks_to_playlist token playlist_id track_uris
    (with_console (console w ++ [adding_line sorted_tracks]) w) = Some (Ok false, w3) ->
  exists r w',
    add_tracks_and_report token playlist sorted_tracks w = Some (r, w') /\
    sent w' = sent w3 /\
    In [NL; Lit "Playlist was created but there was an error adding some tracks."]
       (console w').
Proof.
  intros Hu Hp Ha. unfold add_tracks_and_report.
  unfold bind at 1. unfold print at 1. fold (adding_line sorted_tracks).
  rewrite Hu. unfold bind at 1. unfold lift at 1, ret at 1.
  rewrite Hp. unfold bind at 1. unfold lift at 1, ret at 1.
  unfold bind at 1. rewrite Ha.
  unfold bind, print, lift, ret.
  destruct (getitem playlist "external_urls") as [urls|e]; simpl.
  - destruct (getitem urls "spotify") as [link|e]; simpl;
      do 2 eexists; (split; [reflexivity|]); simpl; (split; [reflexivity|]);
      apply in_or_app; simpl; auto.
    left. apply in_or_app. simpl. auto.
  - do 2 eexists. split; [reflexivity|]. simpl. split; [reflexivity|].
    apply in_or_app. simpl. auto.
Qed.

(** C7.  [add_tracks_to_playlist] cuts the URI list into consecutive
    batches of 1 to 100 URIs that put together give the list back, and
    submits them in that order.  If every submission gives a truthy
    result it returns [True].  If the batch after the batches [done]
    gives a falsy result, it prints the range of positions of that
    batch, counted from 1, returns [False] and sends nothing more: all
    the requests sent are the submissions of [done] and of the failing
    batch, in order.  [main] then reports that the playlist was created
    and sends nothing either, so what was submitted stays. *)
Theorem add_tracks_to_playlist_batches :
  forall (token playlist_id : value) (track_uris : list value) (w : World),
    List.concat (batches track_uris) = track_uris
    /\
    Forall (fun batch => (1 <= List.length batch <= 100)%nat) (batches track_uris)
    /\
    (forall w',
        submitted token playlist_id (batches track_uris) w w' ->
        add_tracks_to_playlist token playlist_id track_uris w = Some (Ok true, w'))
    /\
    (forall done batch rest w1 result w2,
        batches track_uris = done ++ batch :: rest ->
        submitted token playlist_id done w w1 ->
        submit token playlist_id batch w1 = Some (Ok result, w2) ->
        truthy result = false ->
        let first := 100 * Z.of_nat (List.length done) + 1 in
        let last := 100 * Z.of_nat (List.length done) + Z.of_nat (List.length batch) in
        add_tracks_to_playlist token playlist_id track_uris w =
          Some (Ok false, with_console (console w2 ++ [failure_report first last]) w2)
        /\
        exists attempts,
          List.length attempts = S (List.length done) /\
          sent w2 = sent w ++ submissions token playlist_id (done ++ [batch]) attempts)
    /\
    (forall playlist sorted_tracks w0 w3,
        uris_of sorted_tracks = Ok track_uris ->
        getitem playlist "id" = Ok playlist_id ->
        add_tracks_to_playlist token playlist_id track_uris
          (with_console (console w0 ++ [adding_line sorted_tracks]) w0)
        = Some (Ok false, w3) ->
        exists r w',
          add_tracks_and_report token playlist sorted_tracks w0 = Some (r, w') /\
          sent w' = sent w3 /\
          In [NL; Lit "Playlist was created but there was an error adding some tracks."]
             (console w')).
Proof.
  intros token playlist_id track_uris w.
  split; [apply batches_concat|].
  split; [apply batches_sizes|].
  split; [intros w'; apply add_tracks_all_submitted|].
  split.
  - intros done batch rest w1 result w2 Hb Hd Hs Hf first last. split.
    + eapply add_tracks_batch_fails; eauto.
    + destruct (submitted_sends _ _ _ _ _ Hd) as (attempts & Hlen & Hsent).
      destruct (make_spotify_request_sends
                  [Lit "playlists/"; Fmt playlist_id; Lit "/tracks"] token "POST"
                  (VDict [("uris", VList batch)]) VNone 5 w1)
        as (r & wx & n & Hc & Hsent2 & _); [right; left; reflexivity|].
      unfold submit in Hs. rewrite Hs in Hc. injection Hc as <- <-.
      exists (attempts ++ [n]). split; [rewrite length_app; simpl; lia|].
      rewrite submissions_app by exact Hlen.
      rewrite Hsent2, Hsent, <- app_assoc. f_equal. f_equal.
      unfold submissions. simpl. rewrite app_nil_r. reflexivity.
  - intros playlist sorted_tracks w0 w3. apply report_after_failure.
Qed.

(** 150 URIs: with a remote side that accepts everything both batches
    go through; with one that refuses the second batch, the tracks 101
    to 150 are reported, after two requests, and [main] sends no third. *)
Lemma add_tracks_to_playlist_batches_witness :
  (exists w',
      add_tracks_to_playlist (VStr "tok") (VStr "p1") some_uris
        (initial_world accepts_all Missing [] None) = Some (Ok true, w') /\
      List.length (sent w') = 2%nat)
  /\
  (exists w2,
      add_tracks_to_playlist (VStr "tok") (VStr "p1") some_uris
        (initial_world second_batch_refused Missing [] None)
      = Some (Ok false, with_console (console w2 ++ [failure_report 101 150]) w2) /\
      List.length (sent w2) = 2%nat)
  /\
  (exists r w',
      add_tracks_and_report (VStr "tok") some_playlist some_tracks
        (initial_world second_batch_refused Missing [] None) = Some (r, w') /\
      List.length (sent w') = 2%nat).
Proof.
  split; [|split].
  - destruct (add_tracks_to_playlist_batches (VStr "tok") (VStr "p1") some_uris
                (initial_world accepts_all Missing [] None)) as (_ & _ & H & _).
    eexists. split.
    + apply H. vm_compute batches.
      eapply submitted_cons; [vm_compute; reflexivity | reflexivity |].
      eapply submitted_cons; [vm_compute; reflexivity | reflexivity |].
      apply submitted_nil.
    + reflexivity.
  - destruct (add_tracks_to_playlist_batches (VStr "tok") (VStr "p1") some_uris
                (initial_world second_batch_refused Missing [] None)) as (_ & _ & _ & H & _).
    edestruct (H [firstn 100 some_uris] (skipn 100 some_uris) []) as (Hr & _).
    + vm_compute. reflexivity.
    + eapply submitted_cons; [vm_compute; reflexivity | reflexivity | apply submitted_nil].
    + vm_compute. reflexivity.
    + reflexivity.
    + eexists. split; [exact Hr|]. reflexivity.
  - destruct (add_tracks_to_playlist_batches (VStr "tok") (VStr "p1") some_uris
                (initial_world second_batch_refused Missing [] None)) as (_ & _ & _ & _ & H).
    edestruct (H some_playlist some_tracks
                 (initial_world second_batch_refused Missing [] None))
      as (r & w' & Hc & Hs & _).
    + vm_compute. reflexivity.
    + reflexivity.
    + vm_compute. reflexivity.
    + exists r, w'. split; [exact Hc|]. rewrite Hs. reflexivity.
Defined.

(** ** The cache of artist choices *)


Lemma traffic_only_trans w1 w2 w3 :
  traffic_only w1 w2 -> traffic_only w2 w3 -> traffic_only w1 w3.
Proof.
  unfold traffic_only. intros H12 H23. rewrite H23 at 1. rewrite H12 at 1.
  destruct w1; reflexivity.
Qed.


Lemma getitem_dict v k x :
  getitem v k = Ok x -> exists d, v = VDict d /\ lookup k d = Some x.
Proof.
  destruct v; simpl; try discriminate.
  destruct (lookup k d) eqn:E; [|discriminate].
  intros [= <-]. eauto.
Qed.

Lemma find_artist_cached artist_name client_token w state artist_id exact_name :
  state_file w = Document state ->
  cached_choice state artist_name artist_id exact_name ->
  find_artist artist_name client_token w =
  (artist_data <- validity_lookup artist_id client_token ;;
   if truthy artist_data then ret artist_data
   else
     print [Lit "Saved artist ID no longer valid, searching again..."] ;;
     save_state (evict state artist_name) ;;
     search_artist (evict state artist_name) artist_name client_token)
    (with_console (console w ++ [using_saved exact_name artist_id]) w).
Proof.
  intros Hf (choices & entry & Hc & He & Hi & Hn).
  destruct (getitem_dict _ _ _ Hc) as (d & -> & Hd).
  destruct (getitem_dict _ _ _ He) as (c & -> & Hl).
  unfold find_artist, validity_lookup, load_state, bind, lift, ret, print, save_state,
    contains, has_key, delitem, setitem, evict, using_saved.
  rewrite Hf. simpl. rewrite Hd. simpl. rewrite Hl. simpl.
  simpl in Hi. rewrite Hi. simpl in Hn. rewrite Hn. 
  destruct (api_get _ _ _ _) as [[[artist_data|e] w1]|]; try reflexivity.
  destruct (truthy artist_data); try reflexivity.
  simpl. unfold has_key. rewrite Hl. reflexivity.
Qed.

Ltac break_hyp H :=
  match type of H with
  | context [match ?x with _ => _ end] =>
      match x with
      | context [match _ with _ => _ end] => fail 1
      | _ => destruct x eqn:?
      end
  end.

Section Frame.
Variables (url : fstring) (headers : list (string * fstring)) (method : string).
Variables (data params : value) (max_retries : Z).

Lemma attempt_traffic retries w c w' :
  attempt url headers method data params max_retries retries w = Some (c, w') ->
  traffic_only w w'.
Proof.
  unfold attempt, try_except, bind, requests_get, requests_post_json, requests_put_json,
    send, print, sleep, lift, ret, raise.
  intros H.
  repeat (break_hyp H; simpl in H; try discriminate).
  all: try (injection H as <- <-; destruct w; reflexivity).
Qed.

Lemma while_attempt_traffic fuel :
  forall retries w r w',
    while fuel (attempt url headers method data params max_retries) retries w = Some (r, w') ->
    traffic_only w w'.
Proof.
  induction fuel as [|fuel IH]; intros retries w r w' H; [discriminate|].
  rewrite while_S in H. unfold bind in H.
  destruct (attempt _ _ _ _ _ _ _ _) as [[[c|e] w1]|] eqn:Ha; try discriminate.
  - pose proof (attempt_traffic _ _ _ _ Ha) as H1.
    destruct c as [s|v].
    + eapply traffic_only_trans; eauto.
    + injection H as <- <-. exact H1.
  - injection H as <- <-. eapply attempt_traffic; eauto.
Qed.
End Frame.

Lemma make_spotify_request_traffic endpoint token method data params max_retries w r w' :
  make_spotify_request endpoint token method data params max_retries w = Some (r, w') ->
  traffic_only w w'.
Proof. apply while_attempt_traffic. Qed.

Lemma lookup_update_same k v d : lookup k (update k v d) = Some v.
Proof.
  induction d as [|[k' v'] d IH]; simpl.
  - rewrite String.eqb_refl. reflexivity.
  - destruct (k' =? k) eqn:E; simpl.
    + rewrite String.eqb_refl. reflexivity.
    + rewrite E. exact IH.
Qed.

Lemma lookup_remove_same k d : lookup k (remove k d) = None.
Proof.
  unfold remove. induction d as [|[k' v'] d IH]; simpl; [reflexivity|].
  destruct (k' =? k) eqn:E; simpl; [exact IH|]. rewrite E. exact IH.
Qed.

Lemma save_choice_caches state artist_name artist w w' :
  save_choice state artist_name artist w = Some (Ok tt, w') ->
  exists state' artist_id exact_name,
    w' = with_state_file (Document state') w /\
    getitem artist "id" = Ok artist_id /\
    getitem artist "name" = Ok exact_name /\
    cached_choice state' artist_name artist_id exact_name.
Proof.
  unfold save_choice, bind, lift, ret, raise, save_state. intros H.
  repeat (break_hyp H; simpl in H; try discriminate).
  all: injection H as <-.
  all: repeat match goal with
         | H : Some _ = Some _ |- _ => injection H; clear H; intros; subst
         | H : setitem _ _ _ = Ok _ |- _ =>
             let d := fresh "d" in
             unfold setitem in H; break_hyp H; try discriminate;
             injection H; clear H; intros; subst
         end.
  all: do 3 eexists; split; [reflexivity|].
  all: split; [reflexivity|]; split; [reflexivity|].
  all: unfold cached_choice; do 2 eexists; simpl; rewrite !lookup_update_same; simpl;
    rewrite ?String.eqb_refl; simpl.
  all: split; [reflexivity|]; simpl; rewrite lookup_update_same; auto.
Qed.

Lemma ask_choice_caches state artist_name artists fuel :
  forall w artist w',
    while fuel (ask_choice state artist_name artists) tt w = Some (Ok artist, w') ->
    artist = VNone \/ choice_cached w' artist_name artist.
Proof.
  induction fuel as [|fuel IH]; intros w artist w' H; [discriminate|].
  rewrite while_S in H. unfold bind at 1 in H.
  destruct (ask_choice state artist_name artists tt w) as [[[[[]|r]|e] w1]|] eqn:Ha;
    try discriminate.
  - eapply IH; eauto.
  - injection H as <- <-.
    unfold ask_choice, try_except in Ha.
    match type of Ha with
    | context [match ?body w with _ => _ end] => destruct (body w) as [[[c|e] w2]|] eqn:Hb
    end; try discriminate.
    + injection Ha as -> <-.
      unfold bind at 1 in Hb. unfold input in Hb.
      destruct (keyboard w) as [|line rest]; [discriminate|].
      destruct (lower line =? "q"); [injection Hb as <- _; left; reflexivity|].
      unfold bind at 1 in Hb.
      destruct (int_of_string line); [|discriminate]. unfold ret at 1 in Hb.
      unfold bind at 1 in Hb.
      match type of Hb with
      | context [match ?m ?x with _ => _ end] => destruct (m x) as [[[b|e] w3]|] eqn:Hr
      end; try discriminate.
      destruct b.
      * unfold bind, lift, ret, raise, print in Hb.
        repeat (break_hyp Hb; simpl in Hb; try discriminate).
        match goal with
        | Hs : save_choice _ _ _ _ = Some (Ok ?u, _) |- _ =>
            destruct u;
            destruct (save_choice_caches _ _ _ _ _ Hs)
              as (state' & id & nm & -> & Hid & Hnm & Hc)
        end.
        injection Hb as <- <-. right. exists state', id, nm. simpl. auto.
      * unfold bind, print, ret in Hb. discriminate.
    + destruct e; discriminate.
Qed.

Lemma search_artist_caches state artist_name client_token w artist w' :
  search_artist state artist_name client_token w = Some (Ok artist, w') ->
  artist = VNone \/ choice_cached w' artist_name artist.
Proof.
  unfold search_artist. unfold bind at 1.
  destruct (api_get _ _ _ w) as [[[results|e] w1]|]; try discriminate.
  unfold bind at 1.
  match goal with
  | |- context [match ?m w1 with _ => _ end] => destruct (m w1) as [[[found|e] w2]|]
  end; try discriminate.
  destruct found; cbn [negb].
  2: { unfold bind, print, ret. intros [= <- _]. left; reflexivity. }
  unfold bind at 1. destruct (getitem results "artists") as [artists|e]; [|discriminate].
  cbn [lift]. unfold ret at 1.
  unfold bind at 1. destruct (getitem artists "items") as [items|e]; [|discriminate].
  cbn [lift]. unfold ret at 1.
  unfold bind at 1. destruct (len items) as [n|e]; [|discriminate].
  cbn [lift]. unfold ret at 1.
  destruct (n =? 1)%nat.
  - unfold bind, lift, ret, raise, print. intros H.
    repeat (break_hyp H; simpl in H; try discriminate).
    match goal with
    | Hs : save_choice _ _ _ _ = Some (Ok ?u, _) |- _ =>
        destruct u;
        destruct (save_choice_caches _ _ _ _ _ Hs)
          as (state' & id & nm & -> & Hid & Hnm & Hc)
    end.
    injection H as <- <-. right. exists state', id, nm. simpl. auto.
  - unfold bind at 1. unfold print at 1.
    unfold bind at 1. destruct (iterate items) as [listed|e]; [|discriminate].
    cbn [lift]. unfold ret at 1.
    unfold bind at 1.
    destruct (print_choices 1 listed _) as [[[[]|e] w3]|]; try discriminate.
    apply ask_choice_caches.
Qed.

Lemma traffic_only_state_file w w' : traffic_only w w' -> state_file w' = state_file w.
Proof. intros ->. reflexivity. Qed.

Lemma find_artist_caches artist_name client_token w artist w' :
  find_artist artist_name client_token w = Some (Ok artist, w') ->
  artist = VNone \/
  exists state artist_id exact_name,
    state_file w' = Document state /\
    cached_choice state artist_name artist_id exact_name.
Proof.
  assert (Hsearch : forall state w0,
             search_artist state artist_name client_token w0 = Some (Ok artist, w') ->
             artist = VNone \/
             exists state artist_id exact_name,
               state_file w' = Document state /\
               cached_choice state artist_name artist_id exact_name).
  { intros state w0 H. destruct (search_artist_caches _ _ _ _ _ _ H) as [-> | Hc];
      [left; reflexivity|].
    destruct Hc as (st & id & nm & Hf & _ & Hc). right. eauto. }
  unfold find_artist. unfold bind at 1.
  destruct (load_state w) as [[[state|e] w0]|] eqn:Hload; try discriminate.
  assert (Hw0 : state_file w0 = Document state \/ state = VDict [("artist_choices", VDict [])]).
  { unfold load_state in Hload. destruct (state_file w) eqn:Hf.
    - injection Hload as <- <-. auto.
    - injection Hload as <- <-. auto.
    - injection Hload as <- <-. auto. }
  unfold bind at 1.
  match goal with
  | |- context [match ?m w0 with _ => _ end] =>
      destruct (m w0) as [[[cached|e] w1]|] eqn:Hcached
  end; try discriminate.
  assert (w1 = w0) as ->.
  { unfold bind, lift, ret, raise in Hcached.
    repeat (break_hyp Hcached; simpl in Hcached; try discriminate); congruence. }
  destruct cached; [|apply Hsearch].
  unfold bind at 1. destruct (getitem state "artist_choices") as [choices|e] eqn:Hc;
    [|discriminate]. cbn [lift]. unfold ret at 1.
  unfold bind at 1. destruct (getitem choices artist_name) as [entry|e] eqn:He;
    [|discriminate]. cbn [lift]. unfold ret at 1.
  unfold bind at 1. destruct (getitem entry "id") as [artist_id|e] eqn:Hi;
    [|discriminate]. cbn [lift]. unfold ret at 1.
  unfold bind at 1. destruct (getitem entry "name") as [exact_name|e] eqn:Hn;
    [|discriminate]. cbn [lift]. unfold ret at 1.
  unfold bind at 1. unfold print at 1.
  unfold bind at 1.
  destruct (api_get _ _ _ _) as [[[artist_data|e] w2]|] eqn:Hget; try discriminate.
  destruct (truthy artist_data).
  - intros [= <- <-]. right. exists state, artist_id, exact_name. split.
    + apply make_spotify_request_traffic, traffic_only_state_file in Hget.
      rewrite Hget. simpl. destruct Hw0 as [Hw0 | ->]; [exact Hw0|].
      simpl in Hc. injection Hc as <-. discriminate.
    + exists choices, entry. auto.
  - unfold bind at 1. unfold print at 1.
    unfold bind at 1. destruct (contains "artist_choices" state) as [present|e];
      [|discriminate]. cbn [lift]. unfold ret at 1.
    unfold bind at 1.
    match goal with
    | |- context [match ?m ?x with _ => _ end] => destruct (m x) as [[[st|e] w3]|]
    end; try discriminate.
    apply Hsearch.
Qed.

Lemma evict_forgets state artist_name artist_id exact_name :
  cached_choice state artist_name artist_id exact_name ->
  forall id name, ~ cached_choice (evict state artist_name) artist_name id name.
Proof.
  intros (choices & entry & Hc & He & _) id name (choices' & entry' & Hc' & He' & _).
  destruct (getitem_dict _ _ _ Hc) as (d & -> & Hd).
  destruct (getitem_dict _ _ _ He) as (c & -> & Hl).
  unfold evict in Hc'. rewrite Hd in Hc'. simpl in Hc'.
  rewrite lookup_update_same in Hc'. injection Hc' as <-.
  simpl in He'. rewrite lookup_remove_same in He'. discriminate.
Qed.

Lemma validity_lookup_sends artist_id token w r w' :
  validity_lookup artist_id token w = Some (r, w') ->
  (exists n, sent w' = sent w ++ repeat (validity_request artist_id token) n) /\
  state_file w' = state_file w.
Proof.
  intros H. split.
  - destruct (make_spotify_request_sends [Lit "artists/"; Fmt artist_id] token "GET"
                VNone VNone 5 w) as (r0 & w0 & n & Hc & Hs & _); [left; reflexivity|].
    unfold validity_lookup, api_get in H. rewrite H in Hc. injection Hc as <- <-.
    exists n. exact Hs.
  - apply traffic_only_state_file. eapply make_spotify_request_traffic. exact H.
Qed.

(** C3.  The cache of artist choices, for every name and token, in
    every world.
    - A call of [find_artist] that returns an artist leaves a state
      file that holds a choice for the name.
    - When the state file holds a choice for the name, a call of
      [find_artist] first makes one validity lookup of the saved ID,
      whose requests are no searches.  If the lookup gives a truthy
      result, the call returns it, having sent nothing but the requests
      of that lookup, and the state file is as before.  If it gives a
      falsy result, the choice is removed from the state, the state is
      saved, and the call goes on as the search part of the function
      does from that state. *)
Theorem find_artist_cache_round_trip :
  forall (artist_name : string) (token : value) (w : World),
    (forall artist w1,
        find_artist artist_name token w = Some (Ok artist, w1) ->
        artist <> VNone ->
        exists state artist_id exact_name,
          state_file w1 = Document state /\
          cached_choice state artist_name artist_id exact_name)
    /\
    (forall state artist_id exact_name,
        state_file w = Document state ->
        cached_choice state artist_name artist_id exact_name ->
        let announced :=
          with_console (console w ++ [using_saved exact_name artist_id]) w in
        is_search (validity_request artist_id token) = false
        /\
        (forall artist_data w',
            validity_lookup artist_id token announced = Some (Ok artist_data, w') ->
            truthy artist_data = true ->
            find_artist artist_name token w = Some (Ok artist_data, w') /\
            (exists n, sent w' = sent w ++ repeat (validity_request artist_id token) n) /\
            state_file w' = Document state)
        /\
        (forall artist_data w',
            validity_lookup artist_id token announced = Some (Ok artist_data, w') ->
            truthy artist_data = false ->
            let evicted := evict state artist_name in
            (forall id name, ~ cached_choice evicted artist_name id name) /\
            find_artist artist_name token w =
            search_artist evicted artist_name token
              (with_state_file (Document evicted)
                 (with_console
                    (console w' ++ [[Lit "Saved artist ID no longer valid, searching again..."]])
                    w')))).
Proof.
  intros artist_name token w. split.
  - intros artist w1 H Hn.
    destruct (find_artist_caches _ _ _ _ _ H) as [-> | Hc]; [congruence | exact Hc].
  - intros state artist_id exact_name Hf Hc announced.
    split; [reflexivity|]. split.
    + intros artist_data w' Hl Ht.
      rewrite (find_artist_cached _ _ _ _ _ _ Hf Hc). fold announced.
      unfold bind at 1. rewrite Hl, Ht. split; [reflexivity|].
      destruct (validity_lookup_sends _ _ _ _ _ Hl) as (Hs & Hd).
      split; [exact Hs|]. rewrite Hd. exact Hf.
    + intros artist_data w' Hl Ht evicted.
      split; [eapply evict_forgets; exact Hc|].
      rewrite (find_artist_cached _ _ _ _ _ _ Hf Hc). fold announced.
      unfold bind at 1. rewrite Hl, Ht. reflexivity.
Qed.

(** A first resolution of "Test Artist" through a search, then a second
    one in the world the first has left, with the artist still in the
    catalog and with the artist gone. *)
Lemma find_artist_cache_round_trip_witness :
  (exists state artist_id exact_name,
      state_file after_first_resolution = Document state /\
      cached_choice state "Test Artist" artist_id exact_name)
  /\
  (exists w',
      find_artist "Test Artist" (VStr "test_token") after_first_resolution
      = Some (Ok test_artist, w') /\
      List.length (sent w') = 2%nat /\
      forallb is_search (skipn 1 (sent w')) = false)
  /\
  (exists w',
      find_artist "Test Artist" (VStr "test_token")
        (initial_world (catalog_gone false) (Document test_state) [] None)
      = Some (Ok test_artist, w') /\
      forallb is_search (skipn 1 (sent w')) = true).
Proof.
  split; [|split].
  - destruct (find_artist_cache_round_trip "Test Artist" (VStr "test_token")
                (initial_world catalog Missing [] None)) as (H & _).
    apply (H test_artist after_first_resolution); [reflexivity | discriminate].
  - destruct (find_artist_cache_round_trip "Test Artist" (VStr "test_token")
                after_first_resolution) as (_ & H).
    edestruct (H (VDict [("artist_choices",
                          VDict [("Test Artist",
                                  VDict [("id", VStr "test_id_123");
                                         ("name", VStr "Test Artist Official")])])])
                 (VStr "test_id_123") (VStr "Test Artist Official"))
      as (_ & Hhit & _).
    + reflexivity.
    + do 2 eexists. repeat split; reflexivity.
    + edestruct (Hhit test_artist) as (Hr & _ & _).
      * vm_compute. reflexivity.
      * reflexivity.
      * eexists. split; [exact Hr|]. split; reflexivity.
  - destruct (find_artist_cache_round_trip "Test Artist" (VStr "test_token")
                (initial_world (catalog_gone false) (Document test_state) [] None))
      as (_ & H).
    edestruct (H test_state (VStr "test_id_123") (VStr "Test Artist Official"))
      as (_ & _ & Hmiss).
    + reflexivity.
    + do 2 eexists. repeat split; reflexivity.
    + edestruct (Hmiss VNone) as (_ & Hr).
      * vm_compute. reflexivity.
      * reflexivity.
      * eexists. split; [rewrite Hr; vm_compute; reflexivity|]. reflexivity.
Defined.

(** ** Successful answers with an empty body *)

(** C9.  A response with a status below 400 and an empty body makes
    [make_spotify_request] return the empty object, not [None]; the
    empty object is falsy, as [None] is.  The two callers that test the
    result for truth do with the empty object exactly what they do with
    [None]: [add_tracks_to_playlist] reports the batch as failed and
    returns [False], and [find_artist] drops the saved choice, saves
    the state and searches again. *)
Theorem empty_body_counts_as_failure :
  (forall endpoint token method data params max_retries w response,
      supported method ->
      0 <= max_retries ->
      remote w (sent w ++ [request_of endpoint token method data params]) = Ok response ->
      status_code response < 400 ->
      text response = "" ->
      exists w',
        make_spotify_request endpoint token method data params max_retries w
        = Some (Ok (VDict []), w') /\
        sent w' = sent w ++ [request_of endpoint token method data params])
  /\
  truthy (VDict []) = false /\ truthy VNone = false /\ VDict [] <> VNone
  /\
  (forall token playlist_id track_uris batch rest w result w1,
      batches track_uris = batch :: rest ->
      submit token playlist_id batch w = Some (Ok result, w1) ->
      result = VDict [] \/ result = VNone ->
      add_tracks_to_playlist token playlist_id track_uris w =
      Some (Ok false,
            with_console
              (console w1 ++ [failure_report 1 (Z.of_nat (List.length batch))]) w1))
  /\
  (forall artist_name token w state artist_id exact_name result w1,
      state_file w = Document state ->
      cached_choice state artist_name artist_id exact_name ->
      validity_lookup artist_id token
        (with_console (console w ++ [using_saved exact_name artist_id]) w)
      = Some (Ok result, w1) ->
      result = VDict [] \/ result = VNone ->
      find_artist artist_name token w =
      search_artist (evict state artist_name) artist_name token
        (with_state_file (Document (evict state artist_name))
           (with_console
              (console w1 ++ [[Lit "Saved artist ID no longer valid, searching again..."]])
              w1))).
Proof.
  split; [|split; [|split; [|split; [|split]]]]; try reflexivity; try discriminate.
  - intros endpoint token method data params max_retries w response Hm Hr Ha Hs Ht.
    destruct (make_spotify_request_answered endpoint token method data params
                max_retries w [] response (VDict []) Hm) as (w' & Hc & _ & Hsent); auto.
    + intros j d Hj. destruct j; discriminate.
    + unfold payload. rewrite Ht. reflexivity.
    + exists w'. split; [exact Hc | exact Hsent].
  - intros token playlist_id track_uris batch rest w result w1 Hb Hs Hr.
    assert (Hf : truthy result = false) by (destruct Hr as [-> | ->]; reflexivity).
    rewrite (add_tracks_batch_fails token playlist_id track_uris [] batch rest
               w w result w1 Hb (submitted_nil _ _ _) Hs Hf).
    reflexivity.
  - intros artist_name token w state artist_id exact_name result w1 Hf Hc Hl Hr.
    assert (Ht : truthy result = false) by (destruct Hr as [-> | ->]; reflexivity).
    rewrite (find_artist_cached _ _ _ _ _ _ Hf Hc).
    unfold bind at 1. rewrite Hl, Ht. reflexivity.
Qed.

(** An empty 200 answer and a 403 answer, seen from the two callers. *)
Lemma empty_body_counts_as_failure_witness :
  (exists w',
      make_spotify_request [Lit "me"] (VStr "tok") "GET" VNone VNone 5
        (initial_world accepts_silently Missing [] None) = Some (Ok (VDict []), w'))
  /\
  (exists w1 w2,
      add_tracks_to_playlist (VStr "tok") (VStr "p1") [VStr "spotify:track:t"]
        (initial_world accepts_silently Missing [] None)
      = Some (Ok false, with_console (console w1 ++ [failure_report 1 1]) w1) /\
      add_tracks_to_playlist (VStr "tok") (VStr "p1") [VStr "spotify:track:t"]
        (initial_world refuses_all Missing [] None)
      = Some (Ok false, with_console (console w2 ++ [failure_report 1 1]) w2))
  /\
  (exists w1,
      find_artist "Test Artist" (VStr "tok")
        (initial_world (catalog_gone true) (Document test_state) [] None) =
      search_artist (evict test_state "Test Artist") "Test Artist" (VStr "tok") w1 /\
      state_file w1 = Document (evict test_state "Test Artist")).
Proof.
  destruct empty_body_counts_as_failure as (Hreq & _ & _ & _ & Hadd & Hfind).
  split; [|split].
  - edestruct (Hreq [Lit "me"] (VStr "tok") "GET" VNone VNone 5
                 (initial_world accepts_silently Missing [] None)) as (w' & Hc & _).
    + left; reflexivity.
    + lia.
    + reflexivity.
    + simpl. lia.
    + reflexivity.
    + exists w'. exact Hc.
  - do 2 eexists. split.
    + eapply (Hadd (VStr "tok") (VStr "p1") [VStr "spotify:track:t"]
                [VStr "spotify:track:t"] []).
      * reflexivity.
      * vm_compute. reflexivity.
      * left; reflexivity.
    + eapply (Hadd (VStr "tok") (VStr "p1") [VStr "spotify:track:t"]
                [VStr "spotify:track:t"] []).
      * reflexivity.
      * vm_compute. reflexivity.
      * right; reflexivity.
  - eexists. split.
    + eapply (Hfind "Test Artist" (VStr "tok") _ test_state
                (VStr "test_id_123") (VStr "Test Artist Official")).
      * reflexivity.
      * do 2 eexists. repeat split; reflexivity.
      * vm_compute. reflexivity.
      * left; reflexivity.
    + reflexivity.
Defined.

(** ** Removing duplicates *)

Lemma py_eq_hashable_refl a : hashable a = true -> py_eq a a = true.
Proof.
  destruct a; simpl; try discriminate; intros _; auto.
  - destruct b; reflexivity.
  - apply Qeq_bool_iff. reflexivity.
  - apply String.eqb_refl.
Qed.

Lemma py_eq_number a b :
  hashable a = true -> hashable b = true ->
  py_eq a b = true <->
  (a = VNone /\ b = VNone) \/
  (exists s, a = VStr s /\ b = VStr s) \/
  (exists p q, as_number a = Some p /\ as_number b = Some q /\ Qeq p q).
Proof.
  intros Ha Hb.
  destruct a, b; simpl in *; try discriminate; split; intros H;
    try discriminate; auto;
    try (right; right; do 2 eexists; repeat split; try reflexivity;
         apply Qeq_bool_iff; exact H);
    try (destruct H as [[H1 H2] | [(s' & H1 & H2) | (p & q' & H1 & H2 & H3)]];
         try discriminate;
         try (injection H1 as <-; injection H2 as <-; apply Qeq_bool_iff; exact H3)).
  - apply String.eqb_eq in H. subst. right; left. eauto.
  - injection H1 as <-. injection H2 as <-. apply String.eqb_refl.
Qed.

Lemma py_eq_hashable_sym a b :
  hashable a = true -> hashable b = true -> py_eq a b = py_eq b a.
Proof.
  intros Ha Hb. apply eq_true_iff_eq.
  rewrite !py_eq_number by assumption.
  split; (intros [[H1 H2] | [(s & H1 & H2) | (p & q & H1 & H2 & H3)]];
          [left; auto | right; left; eauto |
           right; right; exists q, p; repeat split; auto; symmetry; exact H3]).
Qed.

Lemma py_eq_hashable_trans a b c :
  hashable a = true -> hashable b = true -> hashable c = true ->
  py_eq a b = true -> py_eq b c = true -> py_eq a c = true.
Proof.
  intros Ha Hb Hc. rewrite !py_eq_number by assumption.
  intros [[H1 H2] | [(s & H1 & H2) | (p & q & H1 & H2 & H3)]]
         [[H4 H5] | [(s' & H4 & H5) | (p' & q' & H4 & H5 & H6)]]; subst;
    try discriminate; simpl in *; try congruence.
  - left; auto.
  - injection H4 as <-. right; left; eauto.
  - right; right. exists p, q'. repeat split; auto.
    rewrite H2 in H4. injection H4 as <-. rewrite H3. exact H6.
Qed.

Lemma track_id_hashable t : has_hashable_id t -> hashable (track_id t) = true.
Proof. intros (id & H & Hh). unfold track_id. rewrite H. exact Hh. Qed.

Lemma same_id_refl t : has_hashable_id t -> same_id t t = true.
Proof. intros H. apply py_eq_hashable_refl, track_id_hashable, H. Qed.

Lemma same_id_sym t u :
  has_hashable_id t -> has_hashable_id u -> same_id t u = same_id u t.
Proof. intros Ht Hu. apply py_eq_hashable_sym; apply track_id_hashable; assumption. Qed.

Lemma same_id_trans t u v :
  has_hashable_id t -> has_hashable_id u -> has_hashable_id v ->
  same_id t u = true -> same_id u v = true -> same_id t v = true.
Proof.
  intros Ht Hu Hv. apply py_eq_hashable_trans; apply track_id_hashable; assumption.
Qed.

(** Tracks with the same ID are found in the same lists. *)
Lemma existsb_same_id t u l :
  has_hashable_id t -> has_hashable_id u -> Forall has_hashable_id l ->
  same_id t u = true ->
  existsb (same_id t) l = existsb (same_id u) l.
Proof.
  intros Ht Hu Hl Htu. induction Hl as [|x l Hx Hl IH]; [reflexivity|].
  simpl. rewrite IH. f_equal. apply eq_true_iff_eq. split; intros H.
  - apply (same_id_trans u t x); auto. rewrite same_id_sym; auto.
  - apply (same_id_trans t u x); auto.
Qed.

Lemma first_occurrences_subsequence l :
  forall seen, subsequence (first_occurrences seen l) l.
Proof.
  induction l as [|t l IH]; intros seen; simpl; [constructor|].
  destruct (existsb (same_id t) seen); constructor; apply IH.
Qed.

Lemma existsb_snoc {A} (f : A -> bool) l x : existsb f (l ++ [x]) = existsb f l || f x.
Proof. rewrite existsb_app. simpl. rewrite orb_false_r. reflexivity. Qed.

(** A track whose ID has been seen does not occur among the first
    occurrences; another occurs once if it occurs in the list at all. *)
Lemma first_occurrences_count t l :
  has_hashable_id t ->
  Forall has_hashable_id l ->
  forall seen,
    Forall has_hashable_id seen ->
    occurrences t (first_occurrences seen l) =
    if existsb (same_id t) seen then 0%nat
    else if existsb (same_id t) l then 1%nat else 0%nat.
Proof.
  intros Ht Hl. unfold occurrences.
  induction Hl as [|x l Hx Hl IH]; intros seen Hs; simpl.
  - destruct (existsb (same_id t) seen); reflexivity.
  - destruct (existsb (same_id x) seen) eqn:Ex.
    + rewrite IH by exact Hs.
      destruct (existsb (same_id t) seen) eqn:Et; [reflexivity|].
      destruct (same_id t x) eqn:Etx; [|reflexivity].
      rewrite (existsb_same_id t x seen) in Et by auto. congruence.
    + simpl.
      destruct (same_id t x) eqn:Etx; simpl.
      * rewrite IH by (apply Forall_app; auto).
        rewrite existsb_snoc, Etx, orb_true_r.
        rewrite (existsb_same_id t x seen), Ex by auto. reflexivity.
      * rewrite IH by (apply Forall_app; auto).
        rewrite existsb_snoc, Etx, orb_false_r. reflexivity.
Qed.

(** The first occurrence in the list is the one that is kept. *)
Lemma first_occurrences_find t l :
  has_hashable_id t ->
  Forall has_hashable_id l ->
  forall seen,
    Forall has_hashable_id seen ->
    find (same_id t) (first_occurrences seen l) =
    if existsb (same_id t) seen then None else find (same_id t) l.
Proof.
  intros Ht Hl.
  induction Hl as [|x l Hx Hl IH]; intros seen Hs; simpl.
  - destruct (existsb (same_id t) seen); reflexivity.
  - destruct (existsb (same_id x) seen) eqn:Ex.
    + rewrite IH by exact Hs.
      destruct (existsb (same_id t) seen) eqn:Et; [reflexivity|].
      destruct (same_id t x) eqn:Etx; [|reflexivity].
      rewrite (existsb_same_id t x seen) in Et by auto. congruence.
    + simpl.
      destruct (same_id t x) eqn:Etx; simpl.
      * rewrite (existsb_same_id t x seen), Ex by auto. reflexivity.
      * rewrite IH by (apply Forall_app; auto).
        rewrite existsb_snoc, Etx, orb_false_r. reflexivity.
Qed.

(** The loop of [main] computes the first occurrences. *)
Lemma remove_duplicates_first_occurrences all_tracks :
  Forall has_hashable_id all_tracks ->
  forall unique,
    remove_duplicates all_tracks unique (map track_id unique) =
    Ok (unique ++ first_occurrences unique all_tracks).
Proof.
  intros H. induction H as [|t l (id & Hid & Hh) Hl IH]; intros unique; simpl.
  - rewrite app_nil_r. reflexivity.
  - rewrite Hid. simpl. rewrite Hh. simpl.
    assert (E : existsb (py_eq id) (map track_id unique) = existsb (same_id t) unique).
    { unfold same_id, track_id at 2. rewrite Hid.
      induction unique as [|u unique IHu]; simpl; [reflexivity|].
      rewrite IHu. reflexivity. }
    rewrite E. destruct (existsb (same_id t) unique); simpl.
    + apply IH.
    + replace (map track_id unique ++ [id]) with (map track_id (unique ++ [t])).
      * rewrite IH, <- app_assoc. reflexivity.
      * rewrite map_app. simpl. unfold track_id at 2. rewrite Hid. reflexivity.
Qed.

(** C5.  The deduplication step of [main], for every list of tracks
    that have hashable IDs (strings, as the catalog gives them, for
    which [==] is equality of the strings): the step succeeds, and its
    output is a subsequence of the input (first-seen order) in which
    the ID of every input track occurs exactly once, on the first
    input track that has it.  This holds in particular when the input
    is the concatenation of the track lists of two artists that share
    a track ID. *)
Theorem unique_tracks_deduplicates :
  forall all_tracks : list value,
    Forall has_hashable_id all_tracks ->
    exists unique,
      unique_tracks all_tracks = Ok unique /\
      subsequence unique all_tracks /\
      (forall t,
          In t all_tracks ->
          occurrences t unique = 1%nat /\
          find (same_id t) unique = find (same_id t) all_tracks) /\
      (forall s1 s2, py_eq (VStr s1) (VStr s2) = true <-> s1 = s2).
Proof.
  intros all_tracks H.
  exists (first_occurrences [] all_tracks).
  split; [apply (remove_duplicates_first_occurrences all_tracks H [])|].
  split; [apply first_occurrences_subsequence|].
  split.
  - intros t Hin.
    assert (Ht : has_hashable_id t) by (rewrite Forall_forall in H; auto).
    split.
    + rewrite first_occurrences_count by auto. simpl.
      replace (existsb (same_id t) all_tracks) with true; [reflexivity|].
      symmetry. apply existsb_exists. exists t. split; [exact Hin|].
      apply same_id_refl, Ht.
    + rewrite first_occurrences_find by auto. reflexivity.
  - intros s1 s2. simpl. apply String.eqb_eq.
Qed.

(** Two artists that both contribute the track "t2", on different albums. *)
Lemma unique_tracks_deduplicates_witness :
  unique_tracks (shared_track_lists) =
  Ok [VDict [("id", VStr "t1"); ("name", VStr "One")];
      VDict [("id", VStr "t2"); ("name", VStr "Two"); ("album_release_date", VStr "2015-01-01")];
      VDict [("id", VStr "t3"); ("name", VStr "Three")]]
  /\
  exists unique,
    unique_tracks shared_track_lists = Ok unique /\
    occurrences (VDict [("id", VStr "t2"); ("name", VStr "Two");
                        ("album_release_date", VStr "2020-05-05")]) unique = 1%nat.
Proof.
  split; [reflexivity|].
  destruct (unique_tracks_deduplicates shared_track_lists) as (unique & Hu & _ & H & _).
  - repeat constructor; eexists; split; reflexivity.
  - exists unique. split; [exact Hu|].
    apply H. simpl. auto.
Defined.

(** ** Sorting by date *)

Lemma ascii_compare_trans a b c o :
  Ascii.compare a b = o -> Ascii.compare b c = o -> Ascii.compare a c = o.
Proof.
  unfold Ascii.compare. intros H1 H2. destruct o.
  - apply N.compare_eq_iff in H1. apply N.compare_eq_iff in H2.
    apply N.compare_eq_iff. congruence.
  - apply N.compare_lt_iff in H1. apply N.compare_lt_iff in H2.
    apply N.compare_lt_iff. eapply N.lt_trans; eauto.
  - apply N.compare_gt_iff in H1. apply N.compare_gt_iff in H2.
    apply N.compare_gt_iff. eapply N.lt_trans; eauto.
Qed.

Lemma string_compare_refl s : String.compare s s = Eq.
Proof.
  induction s as [|c s IH]; simpl; [reflexivity|].
  unfold Ascii.compare. rewrite N.compare_refl. exact IH.
Qed.

Lemma string_compare_trans o :
  forall a b c,
    String.compare a b = o -> String.compare b c = o -> String.compare a c = o.
Proof.
  induction a as [|x a IH]; intros [|y b] [|z c]; simpl; intros H1 H2;
    try congruence.
  destruct (Ascii.compare x y) eqn:Exy; destruct (Ascii.compare y z) eqn:Eyz;
    try congruence.
  - rewrite (ascii_compare_trans _ _ _ _ Exy Eyz). eapply IH; eauto.
  - apply Ascii.compare_eq_iff in Exy. subst y. rewrite Eyz. congruence.
  - apply Ascii.compare_eq_iff in Exy. subst y. rewrite Eyz. congruence.
  - apply Ascii.compare_eq_iff in Eyz. subst z. rewrite Exy. congruence.
  - rewrite (ascii_compare_trans _ _ _ _ Exy Eyz). congruence.
  - apply Ascii.compare_eq_iff in Eyz. subst z. rewrite Exy. congruence.
  - rewrite (ascii_compare_trans _ _ _ _ Exy Eyz). congruence.
Qed.

Lemma string_leb_trans a b c :
  String.leb a b = true -> String.leb b c = true -> String.leb a c = true.
Proof.
  unfold String.leb. intros H1 H2.
  destruct (String.compare a b) eqn:Eab; try discriminate;
    destruct (String.compare b c) eqn:Ebc; try discriminate.
  - rewrite (string_compare_trans _ _ _ _ Eab Ebc). reflexivity.
  - apply String.compare_eq_iff in Eab. subst. rewrite Ebc. reflexivity.
  - apply String.compare_eq_iff in Ebc. subst. rewrite Eab. reflexivity.
  - rewrite (string_compare_trans _ _ _ _ Eab Ebc). reflexivity.
Qed.

Lemma string_ltb_leb a b : String.ltb a b = negb (String.leb b a).
Proof.
  unfold String.ltb, String.leb. rewrite (String.compare_antisym b a).
  destruct (String.compare a b); reflexivity.
Qed.

Lemma string_ltb_irrefl a : String.ltb a a = false.
Proof. unfold String.ltb. rewrite string_compare_refl. reflexivity. Qed.

Lemma string_ltb_le a b : String.ltb a b = true -> String.leb a b = true.
Proof.
  unfold String.ltb, String.leb. destruct (String.compare a b); auto; discriminate.
Qed.

Lemma insert_string_keyed x l :
  string_keyed x -> Forall string_keyed l ->
  exists r,
    insert x l = Ok r /\
    Permutation r (x :: l) /\
    Forall string_keyed r /\
    (StronglySorted key_le l -> StronglySorted key_le r) /\
    (forall d, filter (fun p => key_of p =? d) r =
               filter (fun p => key_of p =? d) (x :: l)).
Proof.
  intros Hx Hl. induction Hl as [|y l Hy Hl IH].
  - exists [x]. simpl. repeat split; auto. intros _. repeat constructor.
  - destruct IH as (r & Hr & Hp & Hk & Hs & Hf).
    pose proof Hx as Hx'. pose proof Hy as Hy'.
    destruct x as [kx' vx]. destruct y as [ky' vy].
    destruct Hx' as (kx & Ex). destruct Hy' as (ky & Ey).
    simpl in Ex, Ey. subst kx' ky'.
    cbn [insert fst py_lt res_bind]. unfold str_lt.
    destruct (String.ltb ky kx) eqn:Elt.
    + rewrite Hr. cbn [res_bind]. exists ((VStr ky, vy) :: r). split; [reflexivity|].
      split; [|split; [|split]].
      * rewrite Hp. apply perm_swap.
      * constructor; [exact Hy | exact Hk].
      * intros Hsorted. inversion Hsorted as [|? ? Hs' Hall]; subst.
        constructor; [apply Hs, Hs'|].
        eapply Permutation_Forall; [symmetry; exact Hp|].
        constructor; [|exact Hall].
        unfold key_le, key_of. simpl. apply string_ltb_le, Elt.
      * intros d. cbn [filter]. rewrite Hf. cbn [filter].
        change (key_of (VStr kx, vx)) with kx.
        change (key_of (VStr ky, vy)) with ky.
        destruct (kx =? d) eqn:Exd; [|reflexivity].
        destruct (ky =? d) eqn:Eyd; [|reflexivity].
        apply String.eqb_eq in Exd, Eyd. subst.
        rewrite string_ltb_irrefl in Elt. discriminate.
    + exists ((VStr kx, vx) :: (VStr ky, vy) :: l). split; [reflexivity|].
      split; [reflexivity|]. split; [|split; [|reflexivity]].
      * constructor; [exact Hx|]. constructor; [exact Hy | exact Hl].
      * intros Hsorted. constructor; [exact Hsorted|].
        assert (Hxy : key_le (VStr kx, vx) (VStr ky, vy)).
        { unfold key_le, key_of. simpl.
          rewrite string_ltb_leb in Elt. apply negb_false_iff in Elt. exact Elt. }
        constructor; [exact Hxy|].
        inversion Hsorted as [|? ? _ Hall]; subst.
        eapply Forall_impl; [|exact Hall].
        intros z Hz. unfold key_le in *. eapply string_leb_trans; eauto.
Qed.

Lemma stable_sort_string_keyed l :
  Forall string_keyed l ->
  exists r,
    stable_sort l = Ok r /\
    Permutation r l /\
    Forall string_keyed r /\
    StronglySorted key_le r /\
    (forall d, filter (fun p => key_of p =? d) r = filter (fun p => key_of p =? d) l).
Proof.
  intros Hl. induction Hl as [|x l Hx Hl IH].
  - exists []. simpl. repeat split; auto; constructor.
  - destruct IH as (r & Hr & Hp & Hk & Hs & Hf).
    destruct (insert_string_keyed x r Hx Hk) as (r' & Hr' & Hp' & Hk' & Hs' & Hf').
    exists r'. simpl. rewrite Hr. simpl. split; [exact Hr'|].
    split; [rewrite Hp'; constructor; exact Hp|].
    split; [exact Hk'|]. split; [apply Hs', Hs|].
    intros d. rewrite Hf'. simpl. rewrite Hf. reflexivity.
Qed.

Lemma StronglySorted_snoc {A} (R : A -> A -> Prop) l x :
  StronglySorted R l -> Forall (fun a => R a x) l -> StronglySorted R (l ++ [x]).
Proof.
  induction 1 as [|y l Hs IH Hall]; intros Hx; simpl.
  - repeat constructor.
  - inversion Hx; subst. constructor; [apply IH; assumption|].
    apply Forall_app. split; [exact Hall | repeat constructor; assumption].
Qed.

Lemma StronglySorted_rev {A} (R : A -> A -> Prop) l :
  StronglySorted R l -> StronglySorted (fun a b => R b a) (rev l).
Proof.
  induction 1 as [|x l Hs IH Hall]; simpl; [constructor|].
  apply StronglySorted_snoc; [exact IH|].
  apply Forall_rev. exact Hall.
Qed.

Lemma StronglySorted_map {A B} (f : A -> B) (R : B -> B -> Prop) l :
  StronglySorted (fun a b => R (f a) (f b)) l -> StronglySorted R (map f l).
Proof.
  induction 1 as [|x l Hs IH Hall]; simpl; constructor; [exact IH|].
  apply Forall_map. exact Hall.
Qed.

Lemma filter_rev {A} (f : A -> bool) l : filter f (rev l) = rev (filter f l).
Proof.
  induction l as [|x l IH]; simpl; [reflexivity|].
  rewrite filter_app, IH. simpl. destruct (f x); simpl;
    [reflexivity | apply app_nil_r].
Qed.

(** The keyed list [sorted] builds from dated tracks. *)
Lemma with_keys_dated tracks :
  Forall dated tracks ->
  with_keys (fun x => get x "album_release_date" (VStr "")) tracks =
  Ok (map (fun t => (VStr (date_of t), t)) tracks).
Proof.
  induction 1 as [|t l (s & Hs) Hl IH]; simpl; [reflexivity|].
  rewrite Hs, IH. simpl. unfold date_of. rewrite Hs. reflexivity.
Qed.

Lemma keyed_by_date_filter d l :
  Forall keyed_by_date l ->
  map snd (filter (fun p => key_of p =? d) l) = dated_on d (map snd l).
Proof.
  unfold dated_on. induction 1 as [|p l Hp Hl IH]; simpl; [reflexivity|].
  unfold key_of at 1. rewrite Hp.
  destruct (date_of (snd p) =? d); simpl; rewrite IH; reflexivity.
Qed.

Lemma keyed_by_date_sorted l :
  Forall keyed_by_date l ->
  (StronglySorted key_le l -> StronglySorted date_le (map snd l)) /\
  (StronglySorted (fun p q => key_le q p) l ->
   StronglySorted (fun a b => date_le b a) (map snd l)).
Proof.
  intros Hk.
  assert (Hkey : forall p, In p l -> key_of p = date_of (snd p)).
  { intros p Hin. rewrite Forall_forall in Hk. unfold key_of. rewrite (Hk p Hin).
    reflexivity. }
  clear Hk. split; intros Hs; apply StronglySorted_map.
  - induction Hs as [|p l Hs IH Hall]; constructor.
    + apply IH. intros q Hq. apply Hkey. right; exact Hq.
    + rewrite Forall_forall in *. intros q Hq. specialize (Hall q Hq).
      unfold key_le, date_le in *.
      rewrite <- (Hkey p), <- (Hkey q) by (simpl; auto). exact Hall.
  - induction Hs as [|p l Hs IH Hall]; constructor.
    + apply IH. intros q Hq. apply Hkey. right; exact Hq.
    + rewrite Forall_forall in *. intros q Hq. specialize (Hall q Hq).
      unfold key_le, date_le in *.
      rewrite <- (Hkey p), <- (Hkey q) by (simpl; auto). exact Hall.
Qed.

(** [sorted] by date on dated tracks: a stable sort in either direction. *)
Lemma sorted_by_date tracks reverse :
  Forall dated tracks ->
  exists sorted_tracks,
    sorted tracks (fun x => get x "album_release_date" (VStr "")) reverse
    = Ok sorted_tracks /\
    Permutation sorted_tracks tracks /\
    (if reverse then StronglySorted (fun a b => date_le b a) sorted_tracks
     else StronglySorted date_le sorted_tracks) /\
    (forall d, dated_on d sorted_tracks = dated_on d tracks).
Proof.
  intros Hd. unfold sorted. rewrite (with_keys_dated _ Hd). cbn [res_bind].
  set (keyed := map (fun t => (VStr (date_of t), t)) tracks).
  assert (Hsk : Forall string_keyed keyed).
  { apply Forall_map, Forall_forall. intros t _. exists (date_of t). reflexivity. }
  assert (Hkd : Forall keyed_by_date keyed).
  { apply Forall_map, Forall_forall. intros t _. reflexivity. }
  assert (Hsnd : map snd keyed = tracks).
  { unfold keyed. rewrite map_map. simpl. apply map_id. }
  destruct reverse.
  - destruct (stable_sort_string_keyed (rev keyed)) as (r & Hr & Hp & Hk & Hs & Hf).
    { apply Forall_rev, Hsk. }
    rewrite Hr. cbn [res_bind]. eexists. split; [reflexivity|].
    assert (Hkd' : Forall keyed_by_date (rev r)).
    { apply Forall_rev. eapply Permutation_Forall; [symmetry; exact Hp|].
      apply Forall_rev, Hkd. }
    split; [|split].
    + transitivity (map snd keyed); [|rewrite Hsnd; reflexivity].
      apply Permutation_map.
      rewrite <- Permutation_rev, Hp, <- Permutation_rev. reflexivity.
    + apply (keyed_by_date_sorted _ Hkd'). apply (StronglySorted_rev key_le), Hs.
    + intros d. rewrite <- (keyed_by_date_filter d _ Hkd').
      rewrite filter_rev, Hf, filter_rev, rev_involutive.
      rewrite (keyed_by_date_filter d _ Hkd), Hsnd. reflexivity.
  - destruct (stable_sort_string_keyed keyed Hsk) as (r & Hr & Hp & Hk & Hs & Hf).
    rewrite Hr. cbn [res_bind]. eexists. split; [reflexivity|].
    assert (Hkd' : Forall keyed_by_date r).
    { eapply Permutation_Forall; [symmetry; exact Hp | exact Hkd]. }
    split; [|split].
    + transitivity (map snd keyed); [|rewrite Hsnd; reflexivity].
      apply Permutation_map, Hp.
    + apply (keyed_by_date_sorted _ Hkd'), Hs.
    + intros d. rewrite <- (keyed_by_date_filter d _ Hkd'), Hf.
      rewrite (keyed_by_date_filter d _ Hkd), Hsnd. reflexivity.
Qed.

(** C6.  [sort_tracks] with method 'date', on every list of tracks
    whose release dates are strings (a missing date counting as the
    empty string), in either direction: it changes nothing in the
    world and returns a permutation of its input, in ascending
    lexicographic order of the dates unless the order argument is
    'desc' (in any letter case), in descending order when it is; and
    the tracks of any one date come in the order they had in the
    input. *)
Theorem sort_tracks_by_date :
  forall (tracks : list value) (sort_order : string) (token : value) (w : World),
    Forall dated tracks ->
    exists sorted_tracks,
      sort_tracks tracks "date" sort_order token w = Some (Ok sorted_tracks, w) /\
      Permutation sorted_tracks tracks /\
      (lower sort_order = "desc" ->
       StronglySorted (fun a b => date_le b a) sorted_tracks) /\
      (lower sort_order <> "desc" -> StronglySorted date_le sorted_tracks) /\
      (forall d, dated_on d sorted_tracks = dated_on d tracks).
Proof.
  intros tracks sort_order token w Hd.
  destruct (sorted_by_date tracks (lower sort_order =? "desc") Hd)
    as (sorted_tracks & Hs & Hp & Ho & Hst).
  exists sorted_tracks. unfold sort_tracks. cbn [String.eqb Ascii.eqb Bool.eqb].
  rewrite Hs. split; [reflexivity|]. split; [exact Hp|].
  destruct (String.eqb_spec (lower sort_order) "desc") as [E | E].
  - split; [intros _; exact Ho|]. split; [contradiction | exact Hst].
  - split; [contradiction|]. split; [intros _; exact Ho | exact Hst].
Qed.

(** The sorting test of the repository, with an undated track and two
    tracks of the same date added. *)
Lemma sort_tracks_by_date_witness :
  (sort_tracks test_tracks "date" "asc" VNone (initial_world catalog Missing [] None) =
      Some (Ok [VDict [("name", VStr "Undated Track")];
                VDict [("name", VStr "Old Track"); ("album_release_date", VStr "2010-01-01")];
                VDict [("name", VStr "Middle Track"); ("album_release_date", VStr "2015-01-01")];
                VDict [("name", VStr "Other Middle Track"); ("album_release_date", VStr "2015-01-01")];
                VDict [("name", VStr "New Track"); ("album_release_date", VStr "2023-01-01")]],
            initial_world catalog Missing [] None))
  /\
  (sort_tracks test_tracks "date" "desc" VNone (initial_world catalog Missing [] None) =
      Some (Ok [VDict [("name", VStr "New Track"); ("album_release_date", VStr "2023-01-01")];
                VDict [("name", VStr "Middle Track"); ("album_release_date", VStr "2015-01-01")];
                VDict [("name", VStr "Other Middle Track"); ("album_release_date", VStr "2015-01-01")];
                VDict [("name", VStr "Old Track"); ("album_release_date", VStr "2010-01-01")];
                VDict [("name", VStr "Undated Track")]],
            initial_world catalog Missing [] None))
  /\
  (exists l1 l2,
      Permutation l1 test_tracks /\ StronglySorted date_le l1 /\
      Permutation l2 test_tracks /\ StronglySorted (fun a b => date_le b a) l2).
Proof.
  assert (Hd : Forall dated test_tracks).
  { repeat constructor; eexists; reflexivity. }
  split; [|split].
  - reflexivity.
  - reflexivity.
  - destruct (sort_tracks_by_date test_tracks "asc" VNone
                (initial_world catalog Missing [] None) Hd)
      as (l1 & _ & Hp1 & _ & Hs1 & _).
    destruct (sort_tracks_by_date test_tracks "desc" VNone
                (initial_world catalog Missing [] None) Hd)
      as (l2 & _ & Hp2 & Hs2 & _ & _).
    exists l1, l2. split; [exact Hp1|]. split; [apply Hs1; discriminate|].
    split; [exact Hp2|]. apply Hs2. reflexivity.
Defined.

(** ** Sorting by popularity *)

Lemma insert_permutation x l r : insert x l = Ok r -> Permutation r (x :: l).
Proof.
  revert r. induction l as [|y l IH]; simpl; intros r H.
  - injection H as <-. reflexivity.
  - destruct (py_lt (fst y) (fst x)) as [[|]|e]; simpl in H; try discriminate.
    + destruct (insert x l) as [r'|e]; simpl in H; [|discriminate].
      injection H as <-. rewrite (IH r' eq_refl). apply perm_swap.
    + injection H as <-. reflexivity.
Qed.

Lemma stable_sort_permutation l r : stable_sort l = Ok r -> Permutation r l.
Proof.
  revert r. induction l as [|x l IH]; simpl; intros r H.
  - injection H as <-. reflexivity.
  - destruct (stable_sort l) as [r'|e]; simpl in H; [|discriminate].
    rewrite (insert_permutation _ _ _ H). constructor. apply IH. reflexivity.
Qed.

Lemma with_keys_snd key l keyed : with_keys key l = Ok keyed -> map snd keyed = l.
Proof.
  revert keyed. induction l as [|x l IH]; simpl; intros keyed H.
  - injection H as <-. reflexivity.
  - destruct (key x) as [k|e]; simpl in H; [|discriminate].
    destruct (with_keys key l) as [keyed'|e]; simpl in H; [|discriminate].
    injection H as <-. simpl. rewrite (IH keyed' eq_refl). reflexivity.
Qed.

(** Whatever the keys, a list that [sorted] returns is a permutation of
    its argument. *)
Lemma sorted_permutation l key reverse r :
  sorted l key reverse = Ok r -> Permutation r l.
Proof.
  unfold sorted. intros H.
  destruct (with_keys key l) as [keyed|e] eqn:Hk; simpl in H; [|discriminate].
  destruct (stable_sort _) as [s|e] eqn:Hs; simpl in H; [|discriminate].
  injection H as <-. rewrite <- (with_keys_snd _ _ _ Hk).
  apply Permutation_map. apply stable_sort_permutation in Hs.
  destruct reverse.
  - rewrite <- Permutation_rev, Hs, <- Permutation_rev. reflexivity.
  - exact Hs.
Qed.

Lemma get_track_details_total id token w :
  exists r w', get_track_details id token w = Some (r, w').
Proof.
  destruct (make_spotify_request_sends [Lit "tracks/"; Fmt id] token "GET" VNone VNone 5 w)
    as (r & w' & _ & H & _); [left; reflexivity|].
  exists r, w'. exact H.
Qed.

Lemma fetch_details_step token total i track rest detailed w :
  fetch_details token total i (track :: rest) detailed w =
  match getitem track "id" with
  | Ok id =>
      match get_track_details id token (progress total i w) with
      | Some (Ok detail, w1) =>
          fetch_details token total (S i) rest
            (if truthy detail then detailed ++ [detail] else detailed) w1
      | Some (Raise e, w1) => Some (Raise e, w1)
      | None => None
      end
  | Raise e => Some (Raise e, progress total i w)
  end.
Proof.
  cbn [fetch_details]. unfold progress, bind, print, ret, lift, raise.
  destruct (i mod 10 =? 0)%nat; destruct (getitem track "id"); reflexivity.
Qed.

Lemma fetch_details_total token total tracks :
  forall i detailed w, exists r w', fetch_details token total i tracks detailed w = Some (r, w').
Proof.
  induction tracks as [|track rest IH]; intros i detailed w.
  - do 2 eexists. reflexivity.
  - rewrite fetch_details_step. destruct (getitem track "id") as [id|e]; [|eauto].
    destruct (get_track_details_total id token (progress total i w)) as ([detail|e] & w1 & H);
      rewrite H; [apply IH | eauto].
Qed.

Lemma fetch_details_fetched token total tracks :
  forall i detailed w out w',
    fetch_details token total i tracks detailed w = Some (Ok out, w') ->
    exists details,
      details_fetched token total i tracks w details w' /\ out = detailed ++ details.
Proof.
  induction tracks as [|track rest IH]; intros i detailed w out w' H.
  - injection H as <- <-. exists []. split; [constructor | symmetry; apply app_nil_r].
  - rewrite fetch_details_step in H.
    destruct (getitem track "id") as [id|e] eqn:Hid; [|discriminate].
    destruct (get_track_details id token (progress total i w)) as [[[detail|e] w1]|] eqn:Hd;
      try discriminate.
    destruct (IH _ _ _ _ _ H) as (details & Hf & ->).
    exists (if truthy detail then detail :: details else details). split.
    + econstructor; eauto.
    + destruct (truthy detail); [rewrite <- app_assoc|]; reflexivity.
Qed.

Lemma fetched_fetch_details token total tracks :
  forall i detailed w details w',
    details_fetched token total i tracks w details w' ->
    fetch_details token total i tracks detailed w = Some (Ok (detailed ++ details), w').
Proof.
  induction tracks as [|track rest IH]; intros i detailed w details w' H;
    inversion H; subst.
  - simpl. rewrite app_nil_r. reflexivity.
  - rewrite fetch_details_step.
    match goal with Hid : getitem track "id" = _ |- _ => rewrite Hid end.
    match goal with Hd : get_track_details _ _ _ = _ |- _ => rewrite Hd end.
    erewrite IH by eassumption.
    destruct (truthy detail); [rewrite <- app_assoc|]; reflexivity.
Qed.

Lemma details_fetched_length token total tracks :
  forall i w details w',
    details_fetched token total i tracks w details w' ->
    (List.length details <= List.length tracks)%nat /\
    Forall (fun d => truthy d = true) details.
Proof.
  induction tracks as [|track rest IH]; intros i w details w' H; inversion H; subst.
  - split; [reflexivity | constructor].
  - match goal with Hr : details_fetched _ _ _ rest _ _ _ |- _ =>
      destruct (IH _ _ _ _ Hr) as (Hl & Ht) end.
    destruct (truthy detail) eqn:E; simpl; split; auto; lia.
Qed.

(** The loop reads nothing of a track but its ID. *)
Lemma fetch_details_ids token total tracks1 tracks2 :
  Forall2 (fun t u => getitem t "id" = getitem u "id") tracks1 tracks2 ->
  forall i detailed w,
    fetch_details token total i tracks1 detailed w =
    fetch_details token total i tracks2 detailed w.
Proof.
  induction 1 as [|t u l1 l2 Hid Hl IH]; intros i detailed w; [reflexivity|].
  rewrite !fetch_details_step, Hid.
  destruct (getitem u "id") as [id|e]; [|reflexivity].
  destruct (get_track_details id token (progress total i w)) as [[[detail|e] w1]|];
    try reflexivity.
  apply IH.
Qed.

Lemma sort_tracks_popularity tracks sort_order token w :
  sort_tracks tracks "popularity" sort_order token w =
  match fetch_details token (List.length tracks) 1 tracks [] (fetching w) with
  | Some (Ok detailed_tracks, w1) =>
      lift (sorted detailed_tracks popularity_key (lower sort_order =? "desc")) w1
  | Some (Raise e, w1) => Some (Raise e, w1)
  | None => None
  end.
Proof. reflexivity. Qed.

(** C10.  [sort_tracks] with method 'popularity'.
    - The call always returns.
    - When it returns a list, that list is a permutation of the truthy
      results of the detail fetches, one fetch per input track in
      order; a track whose fetch gave a falsy result has no element in
      it, so it can be shorter than the input.  Conversely, such a run
      of fetches makes the call return those results sorted.
    - The call reads nothing of an input track but its ID: two inputs
      with the same IDs give the same outcome, so no annotation of the
      input reaches the output.
    - On two annotated tracks of which the remote side knows one, the
      output has one element, is no permutation of the input, and its
      element has no [album_release_date] although every input track
      has one. *)
Theorem sort_tracks_by_popularity :
  (forall tracks sort_order token w,
      exists r w', sort_tracks tracks "popularity" sort_order token w = Some (r, w'))
  /\
  (forall tracks sort_order token w out w',
      sort_tracks tracks "popularity" sort_order token w = Some (Ok out, w') ->
      exists details,
        details_fetched token (List.length tracks) 1 tracks (fetching w) details w' /\
        Permutation out details /\
        (List.length out <= List.length tracks)%nat)
  /\
  (forall tracks sort_order token w details w',
      details_fetched token (List.length tracks) 1 tracks (fetching w) details w' ->
      sort_tracks tracks "popularity" sort_order token w =
      lift (sorted details popularity_key (lower sort_order =? "desc")) w')
  /\
  (forall tracks1 tracks2 sort_order token w,
      Forall2 (fun t u => getitem t "id" = getitem u "id") tracks1 tracks2 ->
      sort_tracks tracks1 "popularity" sort_order token w =
      sort_tracks tracks2 "popularity" sort_order token w)
  /\
  (exists out w',
      sort_tracks annotated_tracks "popularity" "asc" VNone
        (initial_world knows_first_only Missing [] None) = Some (Ok out, w') /\
      List.length out = 1%nat /\
      ~ Permutation out annotated_tracks /\
      Forall (fun t => contains "album_release_date" t = Ok true) annotated_tracks /\
      Forall (fun t => contains "album_release_date" t = Ok false) out).
Proof.
  split; [|split; [|split; [|split]]].
  - intros tracks sort_order token w. rewrite sort_tracks_popularity.
    destruct (fetch_details_total token (List.length tracks) tracks 1 [] (fetching w))
      as ([details|e] & w' & H); rewrite H; [|eauto].
    destruct (sorted details _ _); do 2 eexists; reflexivity.
  - intros tracks sort_order token w out w'. rewrite sort_tracks_popularity.
    destruct (fetch_details _ _ _ _ _ _) as [[[detailed|e] w1]|] eqn:Hf; try discriminate.
    destruct (sorted detailed _ _) as [s|e] eqn:Hs; simpl; intros H; try discriminate.
    injection H as <- <-.
    destruct (fetch_details_fetched _ _ _ _ _ _ _ _ Hf) as (details & Hd & ->).
    exists details. split; [exact Hd|]. simpl in Hs.
    apply sorted_permutation in Hs. split; [exact Hs|].
    rewrite (Permutation_length Hs).
    apply (proj1 (details_fetched_length _ _ _ _ _ _ _ Hd)).
  - intros tracks sort_order token w details w' Hd. rewrite sort_tracks_popularity.
    rewrite (fetched_fetch_details _ _ _ _ [] _ _ _ Hd). reflexivity.
  - intros tracks1 tracks2 sort_order token w H. rewrite !sort_tracks_popularity.
    rewrite (Forall2_length H).
    rewrite (fetch_details_ids token _ _ _ H). reflexivity.
  - do 2 eexists. split; [vm_compute; reflexivity|].
    split; [reflexivity|]. split.
    + intros Hp. apply Permutation_length in Hp. discriminate.
    + split; repeat constructor.
Qed.

(** The run on the two annotated tracks, seen through the general facts. *)
Lemma sort_tracks_by_popularity_witness :
  exists out w',
    sort_tracks annotated_tracks "popularity" "asc" VNone
      (initial_world knows_first_only Missing [] None) = Some (Ok out, w') /\
    exists details,
      details_fetched VNone 2 1 annotated_tracks
        (fetching (initial_world knows_first_only Missing [] None)) details w' /\
      Permutation out details /\
      sort_tracks annotated_tracks "popularity" "asc" VNone
        (initial_world knows_first_only Missing [] None) =
      lift (sorted details popularity_key false) w'.
Proof.
  destruct sort_tracks_by_popularity as (_ & Hback & Hforth & _ & (out & w' & Hrun & _)).
  exists out, w'. split; [exact Hrun|].
  destruct (Hback _ _ _ _ _ _ Hrun) as (details & Hd & Hp & _).
  exists details. split; [exact Hd|]. split; [exact Hp|].
  apply (Hforth annotated_tracks "asc" VNone _ details w' Hd).
Defined.

(** ** User tokens *)


Lemma quiet_trans w1 w2 w3 : quiet w1 w2 -> quiet w2 w3 -> quiet w1 w3.
Proof. unfold quiet. intuition congruence. Qed.

Lemma load_state_loaded w :
  exists w0, load_state w = Some (Ok (loaded (state_file w)), w0) /\ quiet w w0 /\
             (forall v, state_file w = Document v -> w0 = w).
Proof.
  unfold load_state. destruct (state_file w) eqn:E; simpl.
  - exists w. repeat split; auto.
  - eexists. split; [reflexivity|]. split; [repeat split; auto | discriminate].
  - exists w. repeat split; auto.
Qed.

Lemma post_token_outcome req (label : fstring) w r w' :
  (response <- send req ;;
   if negb (status_code response =? 200)%Z then
     print (label ++ [Fmt (VInt (status_code response))]) ;;
     print [Lit (text response)] ;;
     ret VNone
   else lift (json_method response)) w = Some (r, w') ->
  sent w' = sent w ++ [req] /\ remote w' = remote w /\ now w' = now w /\
  opened w' = opened w /\ state_file w' = state_file w /\
  exchange_outcome w' r.
Proof.
  unfold bind, send, print, ret, lift, raise.
  destruct (remote w (sent w ++ [req])) as [response|e] eqn:Hr.
  - destruct (Z.eqb_spec (status_code response) 200) as [Hs|Hs]; simpl.
    + destruct (json_method response) as [v|e] eqn:Hj; intros [= <- <-]; simpl;
        repeat split; auto; [eapply exchange_answered; simpl; eauto | constructor].
    + intros [= <- <-]. simpl. repeat split; auto.
      eapply exchange_refused; simpl; eauto.
  - intros [= <- <-]. simpl. repeat split; auto. constructor.
Qed.

Lemma refresh_access_token_outcome client_id client_secret refresh_token w r w' :
  refresh_access_token client_id client_secret refresh_token w = Some (r, w') ->
  sent w' = sent w ++ [refresh_request client_id client_secret refresh_token] /\
  remote w' = remote w /\ now w' = now w /\
  opened w' = opened w /\ state_file w' = state_file w /\
  exchange_outcome w' r.
Proof. apply (post_token_outcome _ [Lit "Error refreshing access token: "]). Qed.

Lemma exchange_auth_code_outcome client_id client_secret auth_code redirect_uri w r w' :
  exchange_auth_code client_id client_secret auth_code redirect_uri w = Some (r, w') ->
  sent w' = sent w ++ [exchange_request client_id client_secret auth_code redirect_uri] /\
  remote w' = remote w /\ now w' = now w /\
  opened w' = opened w /\ state_file w' = state_file w /\
  exchange_outcome w' r.
Proof. apply (post_token_outcome _ [Lit "Error exchanging code for tokens: "]). Qed.

Lemma start_callback_server_quiet hostname port callback_url w :
  exists server w',
    start_callback_server hostname port callback_url w = Some (Ok server, w') /\
    quiet w w'.
Proof.
  unfold start_callback_server, try_except, bind, lift, ret, raise, print.
  destruct (hostname callback_url) as [[host|]|e]; simpl;
    destruct (port callback_url) as [p|e']; simpl;
    try destruct (is_loopback host); simpl;
    try destruct (can_listen w); simpl;
    do 2 eexists; (split; [reflexivity|]); repeat split.
Qed.

Lemma bind_inv {A B} (m : M A) (k : A -> M B) w r w' :
  bind m k w = Some (r, w') ->
  (exists a w1, m w = Some (Ok a, w1) /\ k a w1 = Some (r, w')) \/
  (exists e, m w = Some (Raise e, w') /\ r = Raise e).
Proof.
  unfold bind. destruct (m w) as [[[a|e] w1]|]; intros H; try discriminate.
  - left. eauto.
  - injection H as <- <-. right. eauto.
Qed.

Lemma lift_inv {A} (x : res A) w r w' : lift x w = Some (r, w') -> r = x /\ w' = w.
Proof. destruct x; intros [= <- <-]; auto. Qed.

Lemma lookup_update_other k k' v d : k <> k' -> lookup k (update k' v d) = lookup k d.
Proof.
  intros Hk. induction d as [|[k0 v0] d IH]; simpl.
  - destruct (String.eqb_spec k' k); [congruence | reflexivity].
  - destruct (String.eqb_spec k0 k').
    + subst k0. simpl. destruct (String.eqb_spec k' k); [congruence | reflexivity].
    + simpl. destruct (String.eqb_spec k0 k); [reflexivity | exact IH].
Qed.

Lemma saved_token_valid_fresh float_add state now :
  saved_token_valid float_add state (VNum now) = Ok true <->
  exists access_token, fresh_token float_add state now access_token.
Proof.
  assert (Hgt : forall e limit,
             py_gt e (VNum limit) = Ok true <->
             exists q, as_number e = Some q /\ (limit < q)%Q).
  { intros e limit. unfold py_gt. split.
    - intros H. destruct (as_number e) as [q|] eqn:Hq.
      + exists q. split; [reflexivity|].
        assert (Hb : negb (Qle_bool q limit) = true).
        { destruct e; simpl in Hq; try discriminate; simpl in H;
            injection Hq as <-; injection H as H; exact H. }
        apply negb_true_iff in Hb. apply Qnot_le_lt. intros Hle.
        apply Qle_bool_iff in Hle. congruence.
      + destruct e; simpl in *; discriminate.
    - intros (q & Hq & Hlt).
      assert (Hb : negb (Qle_bool q limit) = true).
      { apply negb_true_iff. destruct (Qle_bool q limit) eqn:E; auto.
        apply Qle_bool_iff in E. apply Qlt_not_le in Hlt. contradiction. }
      destruct e; simpl in Hq; try discriminate; simpl;
        injection Hq as <-; rewrite Hb; reflexivity. }
  unfold saved_token_valid, fresh_token, py_add. split.
  - destruct state; simpl; try discriminate.
    + destruct (is_substring "access_token" s); simpl; try discriminate.
      destruct (is_substring "expires_at" s); simpl; discriminate.
    + destruct (existsb _ l); simpl; try discriminate.
      destruct (existsb _ l); simpl; discriminate.
    + unfold has_key.
      destruct (lookup "access_token" d) as [tok|]; simpl; try discriminate.
      destruct (lookup "expires_at" d) as [e|]; simpl; try discriminate.
      destruct (float_add now (inject_Z 120)) as [limit|err]; simpl; [|discriminate].
      intros H. exists tok. split; [reflexivity|].
      apply Hgt in H. destruct H as (q & Hq & Hlt).
      exists e, q, limit. auto.
  - intros (tok & Ht & e & q & limit & He & Hq & Hl & Hlt).
    destruct state; simpl in *; try discriminate. unfold has_key.
    destruct (lookup "access_token" d); [|discriminate].
    destruct (lookup "expires_at" d) as [e'|]; [|discriminate].
    injection He as ->. simpl. rewrite Hl. simpl.
    apply Hgt. eauto.
Qed.

(** Inversion of one bind: [H] becomes the hypothesis on the
    continuation, [Hm] the one on the first computation. *)
Tactic Notation "inv_bind" hyp(H) "as" ident(a) ident(w1) ident(Hm) :=
  let e := fresh "e" in let Heq := fresh "Heq" in
  apply bind_inv in H; destruct H as [(a & w1 & Hm & H) | (e & Hm & Heq)];
  [ | subst; try (injection Heq as Heq; subst) ].

(** Inversion of a lifted pure computation. *)
Tactic Notation "inv_lift" hyp(H) "as" ident(E) :=
  apply lift_inv in H; destruct H as [E ->]; try discriminate E;
  try (injection E as E); try (symmetry in E).

(** [x <- lift c ;; k]: either [c] is [Ok x], or it raises and the
    goal is closed by [tac]. *)
Tactic Notation "step_lift" hyp(H) "as" ident(x) ident(E) "else" tactic(tac) :=
  let w1 := fresh "w" in let Hm := fresh "Hm" in let e := fresh "e" in
  let Heq := fresh "Heq" in
  apply bind_inv in H; destruct H as [(x & w1 & Hm & H) | (e & Hm & Heq)];
  [ apply lift_inv in Hm; destruct Hm as [E ->]; symmetry in E
  | apply lift_inv in Hm; destruct Hm as [E ->]; symmetry in E;
    subst; try (injection Heq as Heq; subst); tac ].

Lemma exchange_outcome_exchanged w r token_data :
  exchange_outcome w r -> r = Ok token_data -> truthy token_data = true ->
  exchanged w token_data.
Proof.
  intros H -> Ht. inversion H; subst; try discriminate.
  exists response. auto.
Qed.

Lemma refresh_saved_token_outcome float_add client_id client_secret state current_time
      w r w' :
  refresh_saved_token float_add client_id client_secret state current_time w
  = Some (r, w') ->
  remote w' = remote w /\ now w' = now w /\ opened w' = opened w /\
  (sent w' = sent w \/
   exists refresh_token,
     sent w' = sent w ++ [refresh_request client_id client_secret refresh_token]) /\
  match r with
  | Ok (Some access_token) =>
      exists token_data,
        sent w' <> sent w /\
        exchanged w' token_data /\
        getitem token_data "access_token" = Ok access_token
  | Ok None => state_file w' = state_file w /\
               (sent w' = sent w -> contains "refresh_token" state = Ok false)
  | Raise _ => state_file w' = state_file w
  end.
Proof.
  unfold refresh_saved_token. intros H.
  step_lift H as has_refresh E1 else (repeat split; auto).
  destruct has_refresh.
  2: { injection H as <- <-. repeat split; auto. }
  inv_bind H as u w1 Hp; [|discriminate Hp].
  unfold print in Hp. injection Hp as <- <-.
  step_lift H as refresh_token E2 else (repeat split; auto).
  assert (Hne : forall (l : list Request) x, l ++ [x] <> l).
  { intros l x Hl. apply (f_equal (@List.length _)) in Hl.
    rewrite length_app in Hl. simpl in Hl. lia. }
  inv_bind H as token_data w0 Hm.
  2: { apply refresh_access_token_outcome in Hm.
       destruct Hm as (Hs & Hr & Hn & Ho & Hf & _). simpl in *.
       repeat split; eauto. }
  pose proof (refresh_access_token_outcome _ _ _ _ _ _ Hm) as (Hs & Hr & Hn & Ho & Hf & Hx).
  simpl in Hs, Hr, Hn, Ho, Hf.
  assert (Hs' : sent w0 <> sent w) by (rewrite Hs; apply Hne).
  destruct (truthy token_data) eqn:Ht.
  2: { injection H as <- <-. repeat split; eauto. intros Hc. contradiction. }
  pose proof (exchange_outcome_exchanged _ _ _ Hx eq_refl Ht) as Hex.
  step_lift H as access_token E3 else (repeat split; eauto).
  step_lift H as state1 E4 else (repeat split; eauto).
  step_lift H as expires_in E5 else (repeat split; eauto).
  step_lift H as expires_at E6 else (repeat split; eauto).
  step_lift H as state2 E7 else (repeat split; eauto).
  step_lift H as renewed E8 else (repeat split; eauto).
  destruct state as [| | | | |d]; try discriminate. simpl in E4. injection E4 as <-.
  simpl in E7. injection E7 as <-.
  inv_bind H as state3 w2 Hr3.
  2: { destruct renewed; [|discriminate].
       inv_bind Hr3 as x w3 Hx3; inv_lift Hx3 as E9; try discriminate;
         repeat split; eauto. }
  assert (Hd : w2 = w0 /\
               exists d', state3 = VDict d' /\ lookup "access_token" d' = Some access_token).
  { destruct renewed.
    - inv_bind Hr3 as x w3 Hx3; [|discriminate]. inv_lift Hx3 as E9.
      inv_lift Hr3 as E10. simpl in E10. subst state3.
      split; [reflexivity|]. eexists. split; [reflexivity|].
      rewrite !lookup_update_other by discriminate. apply lookup_update_same.
    - injection Hr3 as <- <-. split; [reflexivity|]. eexists. split; [reflexivity|].
      rewrite !lookup_update_other by discriminate. apply lookup_update_same. }
  destruct Hd as (-> & d' & -> & Hl).
  inv_bind H as u' w3 Hsv; [|discriminate]. unfold save_state in Hsv.
  injection Hsv as <- <-.
  simpl in H. rewrite Hl in H. injection H as <- <-. simpl.
  repeat split; eauto.
Qed.

Lemma print_quiet line w r w' : print line w = Some (r, w') -> quiet w w'.
Proof. intros [= <- <-]. repeat split. Qed.

Lemma wait_for_code_quiet w r w' : wait_for_code w = Some (r, w') -> quiet w w'.
Proof.
  unfold wait_for_code. intros [= <- <-].
  destruct (AUTH_CODE_RECEIVED w); [repeat split|].
  destruct (listening w); [|repeat split].
  destruct (redirect w); repeat split.
Qed.

Lemma stop_callback_server_quiet server w r w' :
  stop_callback_server server w = Some (r, w') -> quiet w w'.
Proof. intros [= <- <-]. destruct server; repeat split. Qed.

Lemma input_quiet prompt w r w' : input prompt w = Some (r, w') -> quiet w w'.
Proof.
  unfold input. destruct (keyboard w); intros [= <- <-]; repeat split.
Qed.

(** Waiting for the code, or asking for it, contacts nothing. *)
Lemma obtain_code_quiet (is_local_callback server : bool) w r w' :
  (if is_local_callback then
     print [Lit "Waiting for authorization... (check your browser)"] ;;
     wait_for_code ;;
     stop_callback_server server ;;
     read_AUTH_CODE
   else
     print [NL; Lit "After authorizing in the browser, you will be redirected to your callback URL."] ;;
     print [Lit "Please copy the 'code' parameter from the URL and paste it here."] ;;
     line <- input [NL; Lit "Enter the authorization code: "] ;;
     ret (VStr (strip line))) w = Some (r, w') ->
  quiet w w'.
Proof.
  destruct is_local_callback; intros H.
  - inv_bind H as u1 w1 H1; [|discriminate].
    inv_bind H as u2 w2 H2; [|discriminate].
    inv_bind H as u3 w3 H3; [|discriminate].
    injection H as _ <-.
    eapply quiet_trans; [eapply print_quiet; eauto|].
    eapply quiet_trans; [eapply wait_for_code_quiet; eauto|].
    eapply stop_callback_server_quiet; eauto.
  - inv_bind H as u1 w1 H1; [|discriminate].
    inv_bind H as u2 w2 H2; [|discriminate].
    eapply quiet_trans; [eapply print_quiet; eauto|].
    eapply quiet_trans; [eapply print_quiet; eauto|].
    inv_bind H as u3 w3 H3.
    + injection H as _ <-. eapply input_quiet; eauto.
    + eapply input_quiet; eauto.
Qed.

Lemma authorize_outcome hostname port float_add client_id client_secret callback_url
      state current_time w r w' :
  authorize hostname port float_add client_id client_secret callback_url state
    current_time w
  = Some (r, w') ->
  remote w' = remote w /\ now w' = now w /\
  (sent w' = sent w \/
   exists auth_code,
     sent w' = sent w ++ [exchange_request client_id client_secret auth_code callback_url]) /\
  match r with
  | Raise _ => state_file w' = state_file w
  | Ok access_token =>
      (exists auth_url, opened w' = opened w ++ [auth_url]) /\
      ((access_token = VNone /\ state_file w' = state_file w) \/
       exists token_data,
         exchanged w' token_data /\
         getitem token_data "access_token" = Ok access_token)
  end.
Proof.
  unfold authorize. intros H.
  step_lift H as host E1 else (repeat split; auto).
  inv_bind H as is_local w1 Hl.
  2: { destruct host; [discriminate|]. injection Hl as <- <-. repeat split; auto. }
  assert (w1 = w) as ->.
  { destruct host; [injection Hl as <- <-; reflexivity | discriminate]. }
  clear Hl.
  inv_bind H as auth_state w1 Hu; [|discriminate].
  unfold urandom in Hu. injection Hu as <- <-.
  inv_bind H as server w1 Hsrv.
  2: { destruct (start_callback_server_quiet hostname port callback_url w)
         as (sv & wq & Hq & _). congruence. }
  destruct (start_callback_server_quiet hostname port callback_url w)
    as (sv & wq & Hq & Hquiet).
  rewrite Hq in Hsrv. injection Hsrv as <- <-. clear Hq.
  destruct Hquiet as (Hqr & Hqn & Hqs & Hqo & Hqf).
  inv_bind H as u1 w2 Hp1; [|discriminate]. unfold print in Hp1. injection Hp1 as <- <-.
  inv_bind H as u2 w2 Hp2; [|discriminate]. unfold print in Hp2. injection Hp2 as <- <-.
  inv_bind H as u3 w2 Hop; [|discriminate]. unfold webbrowser_open in Hop.
  injection Hop as <- <-.
  set (auth_url := authorize_url client_id callback_url (entropy w)) in *.
  inv_bind H as auth_code w3 Hcode.
  2: { apply obtain_code_quiet in Hcode.
       destruct Hcode as (Hr3 & Hn3 & Hs3 & Ho3 & Hf3). simpl in *.
       repeat split; try congruence. left. congruence. }
  assert (Hw3 : remote w3 = remote w /\ now w3 = now w /\ sent w3 = sent w /\
                opened w3 = opened w ++ [auth_url] /\ state_file w3 = state_file w).
  { apply obtain_code_quiet in Hcode.
    destruct Hcode as (Hr3 & Hn3 & Hs3 & Ho3 & Hf3). simpl in *.
    repeat split; congruence. }
  destruct Hw3 as (Hr3 & Hn3 & Hs3 & Ho3 & Hf3). clear Hcode.
  destruct (truthy auth_code); cbn [negb] in H.
  2: { unfold bind, print, ret in H. injection H as <- <-. simpl.
       repeat split; eauto. }
  inv_bind H as token_data w4 Hex.
  2: { apply exchange_auth_code_outcome in Hex.
       destruct Hex as (Hs & Hr & Hn & Ho & Hf & _).
       repeat split; try congruence. right. exists auth_code. congruence. }
  assert (Hsent : forall w5, sent w5 = sent w4 ->
             sent w5 = sent w \/
             exists auth_code,
               sent w5 = sent w ++ [exchange_request client_id client_secret auth_code
                                      callback_url]).
  { intros w5 H5. right. exists auth_code.
    apply exchange_auth_code_outcome in Hex. destruct Hex as (Hs & _).
    rewrite H5, Hs, Hs3. reflexivity. }
  pose proof (exchange_auth_code_outcome _ _ _ _ _ _ _ Hex) as (Hs & Hr & Hn & Ho & Hf & Hx).
  destruct (truthy token_data) eqn:Ht; cbn [negb] in H.
  2: { unfold bind, print, ret in H. injection H as <- <-. simpl.
       repeat split; try congruence.
       - apply Hsent. reflexivity.
       - exists auth_url. congruence.
       - left. split; [reflexivity | congruence]. }
  pose proof (exchange_outcome_exchanged _ _ _ Hx eq_refl Ht) as Hexd.
  step_lift H as access_token E3 else (repeat split; try congruence; apply Hsent; reflexivity).
  step_lift H as state1 E4 else (repeat split; try congruence; apply Hsent; reflexivity).
  step_lift H as refresh_token E5 else (repeat split; try congruence; apply Hsent; reflexivity).
  step_lift H as state2 E6 else (repeat split; try congruence; apply Hsent; reflexivity).
  step_lift H as expires_in E7 else (repeat split; try congruence; apply Hsent; reflexivity).
  step_lift H as expires_at E8 else (repeat split; try congruence; apply Hsent; reflexivity).
  step_lift H as state3 E9 else (repeat split; try congruence; apply Hsent; reflexivity).
  inv_bind H as u4 w5 Hsv; [|discriminate]. unfold save_state in Hsv.
  injection Hsv as <- <-.
  inv_lift H as E10. rewrite E3 in E10. subst r. simpl.
  repeat split; try congruence.
  - apply Hsent. reflexivity.
  - exists auth_url. congruence.
  - right. exists token_data. split; [exact Hexd | exact E3].
Qed.

Lemma total_bind {A B} (m : M A) (k : A -> M B) :
  total m -> (forall a, total (k a)) -> total (bind m k).
Proof.
  intros Hm Hk w. destruct (Hm w) as ([a|e] & w1 & H); unfold bind; rewrite H.
  - apply Hk.
  - eauto.
Qed.

Lemma total_simple {A} (m : M A) :
  (forall w, match m w with Some _ => True | None => False end) -> total m.
Proof.
  intros H w. specialize (H w). destruct (m w) as [[r w']|]; [eauto | contradiction].
Qed.

Ltac total_primitive :=
  apply total_simple; intros ?w;
  unfold ret, raise, lift, print, send, requests_post_data, save_state, load_state,
    time, input, urandom, webbrowser_open, wait_for_code, stop_callback_server,
    read_AUTH_CODE, bind;
  cbn;
  repeat match goal with
         | |- context [match ?x with _ => _ end] =>
             match x with
             | context [match _ with _ => _ end] => fail 1
             | _ => destruct x; cbn
             end
         end; exact I.

Ltac totality :=
  repeat first
    [ apply total_bind; [|intros ?]
    | match goal with
      | |- total (if ?c then _ else _) => destruct c
      | |- total (match ?x with _ => _ end) => destruct x
      end
    | total_primitive ].

Lemma refresh_access_token_total client_id client_secret refresh_token :
  total (refresh_access_token client_id client_secret refresh_token).
Proof. unfold refresh_access_token. totality. Qed.

Lemma exchange_auth_code_total client_id client_secret auth_code redirect_uri :
  total (exchange_auth_code client_id client_secret auth_code redirect_uri).
Proof. unfold exchange_auth_code. totality. Qed.

Lemma start_callback_server_total hostname port callback_url :
  total (start_callback_server hostname port callback_url).
Proof.
  intros w. destruct (start_callback_server_quiet hostname port callback_url w)
    as (server & w' & H & _). eauto.
Qed.

Lemma get_user_auth_token_total hostname port float_add client_id client_secret
      callback_url :
  total (get_user_auth_token hostname port float_add client_id client_secret
           callback_url).
Proof.
  unfold get_user_auth_token, refresh_saved_token, authorize.
  pose proof refresh_access_token_total. pose proof exchange_auth_code_total.
  pose proof start_callback_server_total.
  repeat first
    [ apply total_bind; [|intros ?]
    | match goal with
      | H : _ |- _ => apply H
      | |- total (if ?c then _ else _) => destruct c
      | |- total (match ?x with _ => _ end) => destruct x
      end
    | total_primitive ].
Qed.

Lemma get_user_auth_token_outcome hostname port float_add client_id client_secret
      callback_url w r w' :
  get_user_auth_token hostname port float_add client_id client_secret callback_url w
  = Some (r, w') ->
  (exists access_token,
      fresh_token float_add (loaded (state_file w)) (now w) access_token /\
      r = Ok access_token /\
      w' = with_console (console w ++ [[Lit "Using saved access token"]]) w)
  \/
  ((forall access_token,
       ~ fresh_token float_add (loaded (state_file w)) (now w) access_token) /\
   match r with
   | Raise _ => state_file w' = state_file w
   | Ok access_token =>
       contacted client_id client_secret w w' /\
       ((access_token = VNone /\ state_file w' = state_file w) \/
        exists token_data,
          exchanged w' token_data /\
          getitem token_data "access_token" = Ok access_token)
   end).
Proof.
  unfold get_user_auth_token. intros H.
  destruct (load_state_loaded w) as (w0 & Hload & Hq0 & Hdoc).
  set (state := loaded (state_file w)) in *.
  inv_bind H as st w0' Hl; [|congruence].
  rewrite Hload in Hl. injection Hl as <- <-.
  inv_bind H as current_time w1 Ht; [|discriminate].
  unfold time in Ht. injection Ht as <- <-.
  destruct Hq0 as (Hr0 & Hn0 & Hs0 & Ho0 & Hf0).
  rewrite Hn0 in H.
  pose proof (saved_token_valid_fresh float_add state (now w)) as Hfresh.
  destruct (saved_token_valid float_add state (VNum (now w))) as [valid|e] eqn:Hv.
  2: { inv_bind H as x w1 Hx; [discriminate|]. injection Hx as <- <-.
       right. split; [|exact Hf0].
       intros tok Hf. destruct Hfresh as [_ Hfresh].
       specialize (Hfresh (ex_intro _ tok Hf)). discriminate. }
  inv_bind H as x w1 Hx; [|discriminate]. injection Hx as <- <-.
  destruct valid.
  - destruct Hfresh as [Hfresh _]. destruct (Hfresh eq_refl) as (tok & Hf).
    left. exists tok. split; [exact Hf|].
    assert (w0 = w) as ->.
    { destruct (state_file w) eqn:Ef; [| |eapply Hdoc; reflexivity];
        destruct Hf as (Hg & _); discriminate. }
    inv_bind H as u w1 Hp; [|discriminate]. injection Hp as <- <-.
    destruct Hf as (Hg & Hrest). unfold lift in H. rewrite Hg in H.
    injection H as <- <-. auto.
  - right. split.
    { intros tok Hf. destruct Hfresh as [_ Hfresh].
      specialize (Hfresh (ex_intro _ tok Hf)). discriminate. }
    inv_bind H as refreshed w1 Href.
    2: { apply refresh_saved_token_outcome in Href.
         destruct Href as (_ & _ & _ & _ & Hf). congruence. }
    pose proof (refresh_saved_token_outcome _ _ _ _ _ _ _ _ Href)
      as (Hr1 & Hn1 & Ho1 & Hs1 & Hm).
    destruct refreshed as [access_token|].
    + injection H as <- <-. destruct Hm as (token_data & Hne & Hex & Hg).
      split; [|right; eauto].
      left. destruct Hs1 as [Hs1 | (rt & Hs1)]; [contradiction|].
      exists rt, []. congruence.
    + destruct Hm as (Hf1 & Hnone).
      pose proof (authorize_outcome _ _ _ _ _ _ _ _ _ _ _ H) as (Hr2 & Hn2 & Hs2 & Hm2).
      destruct r as [access_token|e]; [|congruence].
      destruct Hm2 as ((auth_url & Ho2) & Hm2). split.
      * right. exists auth_url. congruence.
      * destruct Hm2 as [(-> & Hf2) | Hm2]; [left; split; [reflexivity | congruence]|].
        right. exact Hm2.
Qed.

Lemma contacted_changes client_id client_secret w w' :
  contacted client_id client_secret w w' ->
  sent w' <> sent w \/ opened w' <> opened w.
Proof.
  assert (Hne : forall A (l k : list A), k <> [] -> l ++ k <> l).
  { intros A l k Hk E. apply (f_equal (@List.length A)) in E.
    rewrite length_app in E. destruct k; [congruence | simpl in E; lia]. }
  intros [(rt & rest & H) | (url & H)]; [left | right]; rewrite H;
    apply Hne; discriminate.
Qed.

(** C8.  [get_user_auth_token], for every client, callback URL and
    world, whatever float the machine computes for a sum; [state] is
    what [load_state] reads.  The call always returns.  If the state
    holds an access token and an expiry time greater than the current
    time plus 120 seconds, the float sum the comparison is made with,
    it returns that token and changes nothing in the world but the
    console: no request is sent and no page is opened.  In every other
    case, a call that does not raise has contacted something: it has
    first sent the refresh-token exchange, or it has opened the
    authorize page of the interactive flow.  So a call returns without
    contacting anything exactly when the saved token is fresh. *)
Theorem saved_token_used_when_fresh :
  forall (hostname : string -> res (option string)) (port : string -> res (option Z))
         (float_add : Q -> Q -> res Q)
         (client_id client_secret callback_url : string) (w : World),
    let state := loaded (state_file w) in
    let call := get_user_auth_token hostname port float_add client_id client_secret
                  callback_url in
    (exists r w', call w = Some (r, w'))
    /\
    (forall access_token,
        fresh_token float_add state (now w) access_token ->
        call w = Some (Ok access_token,
                       with_console (console w ++ [[Lit "Using saved access token"]]) w))
    /\
    (forall r w',
        call w = Some (r, w') ->
        (exists access_token,
            fresh_token float_add state (now w) access_token /\ r = Ok access_token /\
            sent w' = sent w /\ opened w' = opened w)
        \/
        ((forall access_token, ~ fresh_token float_add state (now w) access_token) /\
         ((exists e, r = Raise e) \/
          (contacted client_id client_secret w w' /\
           (sent w' <> sent w \/ opened w' <> opened w))))).
Proof.
  intros hostname port float_add client_id client_secret callback_url w state call.
  split; [apply get_user_auth_token_total|]. split.
  - intros access_token Hf.
    destruct (get_user_auth_token_total hostname port float_add client_id client_secret
                callback_url w) as (r & w' & H).
    unfold call. rewrite H.
    destruct (get_user_auth_token_outcome _ _ _ _ _ _ _ _ _ H)
      as [(tok & (Hg & _) & -> & ->) | (Hn & _)].
    + destruct Hf as (Hg' & _). fold state in Hg. rewrite Hg in Hg'.
      injection Hg' as <-. reflexivity.
    + exfalso. apply (Hn access_token). exact Hf.
  - intros r w' H.
    destruct (get_user_auth_token_outcome _ _ _ _ _ _ _ _ _ H)
      as [(tok & Hf & -> & ->) | (Hn & Hm)].
    + left. exists tok. split; [exact Hf|]. repeat split; auto.
    + right. split; [exact Hn|]. destruct r as [tok|e]; [|left; eauto].
      right. destruct Hm as (Hc & _). split; [exact Hc|].
      eapply contacted_changes; eauto.
Qed.

(** With binary64 sums: a token that expires far in the future is
    returned as it is; one that has expired makes the call send the
    refresh exchange. *)
Lemma saved_token_used_when_fresh_witness :
  get_user_auth_token localhost port_8888 binary64_add "id" "secret"
    "http://localhost:8888/callback"
    (initial_world (token_endpoint (VStr "new_token"))
       (Document (token_state 9999999999 true)) [] None)
  = Some (Ok (VStr "saved_token"),
          with_console [[Lit "Using saved access token"]]
            (initial_world (token_endpoint (VStr "new_token"))
               (Document (token_state 9999999999 true)) [] None))
  /\
  (exists w',
      get_user_auth_token localhost port_8888 binary64_add "id" "secret"
        "http://localhost:8888/callback"
        (initial_world (token_endpoint (VStr "new_token"))
           (Document (token_state 0 true)) [] None)
      = Some (Ok (VStr "new_token"), w') /\
      contacted "id" "secret"
        (initial_world (token_endpoint (VStr "new_token"))
           (Document (token_state 0 true)) [] None) w').
Proof.
  split.
  - destruct (saved_token_used_when_fresh localhost port_8888 binary64_add "id" "secret"
                "http://localhost:8888/callback"
                (initial_world (token_endpoint (VStr "new_token"))
                   (Document (token_state 9999999999 true)) [] None)) as (_ & H & _).
    apply (H (VStr "saved_token")).
    split; [reflexivity|].
    exists (VInt 9999999999), (inject_Z 9999999999), (inject_Z 1700000120).
    split; [reflexivity|]. split; [reflexivity|].
    split; [vm_compute; reflexivity|]. reflexivity.
  - destruct (saved_token_used_when_fresh localhost port_8888 binary64_add "id" "secret"
                "http://localhost:8888/callback"
                (initial_world (token_endpoint (VStr "new_token"))
                   (Document (token_state 0 true)) [] None)) as (_ & _ & H).
    eexists. split; [vm_compute; reflexivity|].
    match goal with
    | |- contacted _ _ _ ?w' =>
        destruct (H (Ok (VStr "new_token")) w') as [(tok & Hf & _) | (_ & [(e & He) | (Hc & _)])]
    end.
    + vm_compute. reflexivity.
    + exfalso. destruct Hf as (_ & e & q & limit & He & Hq & Hl & Hlt).
      vm_compute in He. injection He as <-. vm_compute in Hq. injection Hq as <-.
      vm_compute in Hl. injection Hl as <-.
      vm_compute in Hlt. discriminate.
    + discriminate.
    + exact Hc.
Defined.




(** ** Primary credit *)









(** ** Failures of the transport and refusals *)

Section ClientErrors.

Variables (endpoint : fstring) (token : value) (method : string).
Variables (data params : value) (max_retries : Z).
Hypothesis method_supported : supported method.

Let req : Request := request_of endpoint token method data params.
Let turn : Z -> M (step Z value) :=
  attempt ([Lit SPOTIFY_API_BASE; Lit "/"] ++ endpoint)
          [("Authorization", [Lit "Bearer "; Fmt token])]
          method data params max_retries.

(** A turn whose request fails in transport, with retries left: two
    seconds of sleep and another turn. *)
Lemma turn_lost retries w :
  retries < max_retries ->
  remote w (sent w ++ [req]) = Raise RequestException ->
  exists w', turn retries w = Some (Ok (Again (retries + 1)), w') /\
             sent w' = sent w ++ [req] /\ slept w' = slept w ++ [2] /\
             remote w' = remote w.
Proof.
  intros Hlt Hans. unfold turn, attempt.
  destruct (Z.leb_spec retries max_retries); [|lia].
  unfold try_except, bind, requests_get, requests_post_json, requests_put_json, send.
  unfold req, request_of in Hans.
  destruct method_supported as [-> | [-> | ->]]; simpl in *;
    rewrite Hans; simpl;
    (destruct (Z.ltb_spec retries max_retries); [|lia]); simpl;
    eexists; (split; [reflexivity|]); simpl; auto.
Qed.

(** The same at the last turn: the call gives up at once. *)
Lemma turn_lost_last w :
  0 <= max_retries ->
  remote w (sent w ++ [req]) = Raise RequestException ->
  exists w', turn max_retries w = Some (Ok (Return VNone), w') /\
             sent w' = sent w ++ [req] /\ slept w' = slept w.
Proof.
  intros Hpos Hans. unfold turn, attempt.
  destruct (Z.leb_spec max_retries max_retries); [|lia].
  unfold try_except, bind, requests_get, requests_post_json, requests_put_json, send.
  unfold req, request_of in Hans.
  destruct method_supported as [-> | [-> | ->]]; simpl in *;
    rewrite Hans; simpl;
    (destruct (Z.ltb_spec max_retries max_retries); [lia|]); simpl;
    eexists; (split; [reflexivity|]); simpl; auto.
Qed.

Lemma unreachable_tail w w' n :
  unreachable w req (S n) ->
  sent w' = sent w ++ [req] ->
  remote w' = remote w ->
  unreachable w' req n.
Proof.
  intros H Hs Hr j Hj.
  rewrite Hr, Hs, <- app_assoc. apply (H (S j)). lia.
Qed.

(** The loop goes through a run of transport failures, one turn and
    one sleep of two seconds for each. *)
Lemma while_lost n :
  forall fuel retries w,
    unreachable w req n ->
    retries + Z.of_nat n <= max_retries ->
    exists w',
      while (n + fuel) turn retries w = while fuel turn (retries + Z.of_nat n) w' /\
      sent w' = sent w ++ repeat req n /\
      slept w' = slept w ++ repeat 2 n /\
      remote w' = remote w.
Proof.
  induction n as [|n IH]; intros fuel retries w Hun Hlen.
  - exists w. simpl. rewrite Z.add_0_r, !app_nil_r. auto.
  - destruct (turn_lost retries w) as (w1 & Ht & Hs1 & Hz1 & Hr1); [lia| |].
    { apply (Hun 0%nat). lia. }
    destruct (IH fuel (retries + 1) w1) as (w' & Hw & Hs & Hz & Hr).
    + eapply unreachable_tail; eauto.
    + lia.
    + exists w'. split; [|split; [|split]].
      * change (Datatypes.S n + fuel)%nat with (Datatypes.S (n + fuel)).
        rewrite while_S, (bind_Ok _ _ _ _ _ Ht), Hw. f_equal. lia.
      * rewrite Hs, Hs1, <- app_assoc. reflexivity.
      * rewrite Hz, Hz1, <- app_assoc. reflexivity.
      * congruence.
Qed.



End ClientErrors.

(** X1.  Transport failures in [make_spotify_request], for every
    supported method and every retry bound [max_retries >= 0]:
    - if the first [n <= max_retries] sendings fail with a
      [RequestException] and the next one is answered with a status
      below 400, the call returns that answer's payload after [n]
      sleeps of two seconds and [n + 1] sendings;
    - if all [max_retries + 1] sendings fail, the call returns [None]
      (it raises nothing) after [max_retries] sleeps of two seconds:
      the last failure is not followed by a sleep. *)
Theorem make_spotify_request_transport_failures :
  forall (endpoint : fstring) (token : value) (method : string)
         (data params : value) (max_retries : Z) (w : World),
    supported method ->
    0 <= max_retries ->
    let req := request_of endpoint token method data params in
    let call := make_spotify_request endpoint token method data params max_retries in
    (forall n response v,
        unreachable w req n ->
        Z.of_nat n <= max_retries ->
        remote w (sent w ++ repeat req (S n)) = Ok response ->
        status_code response < 400 ->
        payload response = Ok v ->
        exists w',
          call w = Some (Ok v, w') /\
          slept w' = slept w ++ repeat 2 n /\
          sent w' = sent w ++ repeat req (S n))
    /\
    (unreachable w req (S (Z.to_nat max_retries)) ->
     exists w',
       call w = Some (Ok VNone, w') /\
       slept w' = slept w ++ repeat 2 (Z.to_nat max_retries) /\
       sent w' = sent w ++ repeat req (S (Z.to_nat max_retries))).
Proof.
  intros endpoint token method data params max_retries w Hm Hpos req call.
  split.
  - intros n response v Hun Hlen Hans Hst Hv. unfold call, make_spotify_request.
    destruct (while_lost endpoint token method data params max_retries Hm n
                (S (Z.to_nat (max_retries + 1) - n)) 0 w Hun)
      as (w1 & Hw & Hs1 & Hz1 & Hr1); [lia|].
    replace (S (Z.to_nat (max_retries + 1)))
      with (n + S (Z.to_nat (max_retries + 1) - n))%nat by lia.
    rewrite Hw, while_S.
    destruct (turn_answered endpoint token method data params max_retries Hm
                (0 + Z.of_nat n) w1 response v) as (w' & Ht & Hs & Hz); auto; try lia.
    + rewrite Hr1, Hs1, <- app_assoc, <- repeat_cons. exact Hans.
    + rewrite (bind_Ok _ _ _ _ _ Ht). exists w'. split; [reflexivity|].
      split; [congruence|].
      rewrite Hs, Hs1, <- app_assoc, <- repeat_cons. reflexivity.
  - intros Hun. unfold call, make_spotify_request.
    set (n := Z.to_nat max_retries).
    destruct (while_lost endpoint token method data params max_retries Hm n 2%nat 0 w)
      as (w1 & Hw & Hs1 & Hz1 & Hr1).
    + intros j Hj. apply Hun. fold n. lia.
    + lia.
    + replace (S (Z.to_nat (max_retries + 1))) with (n + 2)%nat by lia.
      rewrite Hw, while_S.
      replace (0 + Z.of_nat n) with max_retries by lia.
      destruct (turn_lost_last endpoint token method data params max_retries Hm w1 Hpos)
        as (w' & Ht & Hs & Hz).
      * rewrite Hr1, Hs1, <- app_assoc, <- repeat_cons. apply (Hun n). fold n. lia.
      * rewrite (bind_Ok _ _ _ _ _ Ht). exists w'. split; [reflexivity|].
        split; [congruence|].
        rewrite Hs, Hs1, <- app_assoc, <- repeat_cons. reflexivity.
Qed.

(** Two failures and then an answer, with the default bound; and a
    remote side that cannot be reached at any of the three attempts of
    a call with [max_retries=2]. *)
Lemma make_spotify_request_transport_failures_witness :
  (exists w',
      make_spotify_request [Lit "test_endpoint"] (VStr "test_token") "GET" VNone VNone 5
        (initial_world (down_for 2) Missing [] None)
      = Some (Ok (VDict [("data", VStr "test")]), w') /\
      slept w' = [2; 2] /\ List.length (sent w') = 3%nat)
  /\
  (exists w',
      make_spotify_request [Lit "test_endpoint"] (VStr "test_token") "GET" VNone VNone 2
        (initial_world (down_for 3) Missing [] None)
      = Some (Ok VNone, w') /\
      slept w' = [2; 2] /\ List.length (sent w') = 3%nat).
Proof.
  split.
  - destruct (make_spotify_request_transport_failures [Lit "test_endpoint"]
                (VStr "test_token") "GET" VNone VNone 5
                (initial_world (down_for 2) Missing [] None)
                (or_introl eq_refl) ltac:(lia)) as (H & _).
    destruct (H 2%nat (mkResponse 200 [] "{data: test}"
                         (Ok (VDict [("data", VStr "test")])))
                (VDict [("data", VStr "test")])) as (w' & Hc & Hz & Hs).
    + intros j Hj. destruct j as [|[|j]]; [reflexivity|reflexivity|lia].
    + lia.
    + reflexivity.
    + simpl. lia.
    + reflexivity.
    + exists w'. split; [exact Hc|]. split; [exact Hz|]. rewrite Hs. reflexivity.
  - destruct (make_spotify_request_transport_failures [Lit "test_endpoint"]
                (VStr "test_token") "GET" VNone VNone 2
                (initial_world (down_for 3) Missing [] None)
                (or_introl eq_refl) ltac:(lia)) as (_ & H).
    destruct H as (w' & Hc & Hz & Hs).
    + intros j Hj. destruct j as [|[|[|j]]]; try reflexivity.
      change (Z.to_nat 2) with 2%nat in Hj. lia.
    + exists w'. split; [exact Hc|]. split; [exact Hz|]. rewrite Hs. reflexivity.
Defined.





(** ** What a computation leaves as it was *)

Section Preservation.

Variable R : World -> World -> Prop.
Hypothesis R_refl : forall w, R w w.
Hypothesis R_trans : forall w1 w2 w3, R w1 w2 -> R w2 w3 -> R w1 w3.

Lemma preserves_ret {A} (a : A) : preserves R (ret a).
Proof. intros w r w' [= <- <-]. apply R_refl. Qed.

Lemma preserves_raise {A} (e : exn) : preserves R (@raise A e).
Proof. intros w r w' [= <- <-]. apply R_refl. Qed.

Lemma preserves_lift {A} (x : res A) : preserves R (lift x).
Proof. destruct x; [apply preserves_ret | apply preserves_raise]. Qed.

Lemma preserves_bind {A B} (m : M A) (k : A -> M B) :
  preserves R m -> (forall a, preserves R (k a)) -> preserves R (bind m k).
Proof.
  intros Hm Hk w r w' H. unfold bind in H.
  destruct (m w) as [[[a|e] w1]|] eqn:E; try discriminate.
  - eapply R_trans; [eapply Hm; eauto | eapply Hk; eauto].
  - injection H as <- <-. eapply Hm; eauto.
Qed.

Lemma preserves_try_except {A} (body : M A) catches handler :
  preserves R body -> (forall e, preserves R (handler e)) ->
  preserves R (try_except body catches handler).
Proof.
  intros Hb Hh w r w' H. unfold try_except in H.
  destruct (body w) as [[[a|e] w1]|] eqn:E; try discriminate.
  - injection H as <- <-. eapply Hb; eauto.
  - destruct (catches e).
    + eapply R_trans; [eapply Hb; eauto | eapply Hh; eauto].
    + injection H as <- <-. eapply Hb; eauto.
Qed.

Lemma preserves_while {S T} (body : S -> M (step S T)) :
  (forall s, preserves R (body s)) ->
  forall fuel s, preserves R (while fuel body s).
Proof.
  intros Hb fuel. induction fuel as [|fuel IH]; intros s; [intros w r w' [=]|].
  cbn [while]. apply preserves_bind; [apply Hb|].
  intros [s'|t]; [apply IH | apply preserves_ret].
Qed.

Lemma preserves_for_each {A S T} (body : A -> S -> M (step S T)) :
  (forall a s, preserves R (body a s)) ->
  forall l s, preserves R (for_each l body s).
Proof.
  intros Hb l. induction l as [|a l IH]; intros s; cbn [for_each]; [apply preserves_ret|].
  apply preserves_bind; [apply Hb|].
  intros [s'|t]; [apply IH | apply preserves_ret].
Qed.

End Preservation.

(** One step of a proof that a computation preserves [R]: [refl] and
    [trans] prove that [R] is a preorder and [prim] deals with the
    primitive effects and with the functions already treated. *)
Ltac frame_step refl trans prim :=
  first
    [ prim
    | lazymatch goal with
      | |- preserves _ (ret _) => apply (preserves_ret _ refl)
      | |- preserves _ (raise _) => apply (preserves_raise _ refl)
      | |- preserves _ (lift _) => apply (preserves_lift _ refl)
      | |- preserves _ (bind _ _) => apply (preserves_bind _ trans); [|intros ?]
      | |- preserves _ (try_except _ _ _) =>
          apply (preserves_try_except _ trans); [|intros ?]
      | |- preserves _ (while _ _ _) => apply (preserves_while _ refl trans); intros ?
      | |- preserves _ (for_each _ _ _) =>
          apply (preserves_for_each _ refl trans); intros ? ?
      | |- preserves _ (if ?b then _ else _) => destruct b
      | |- preserves _ (match ?x with _ => _ end) => destruct x
      end ].

Ltac frame refl trans prim := repeat frame_step refl trans prim.

(** *** The catalog reads and the resolver, for any preorder that
    printing and GET requests preserve *)

Section CatalogFrame.

Variable R : World -> World -> Prop.
Hypothesis R_refl : forall w, R w w.
Hypothesis R_trans : forall w1 w2 w3, R w1 w2 -> R w2 w3 -> R w1 w3.
Hypothesis R_print : forall line, preserves R (print line).
Hypothesis R_api_get :
  forall endpoint token params, preserves R (api_get endpoint token params).

Ltac catalog_prim :=
  idtac;
  lazymatch goal with
  | |- preserves _ (print _) => apply R_print
  | |- preserves _ (api_get _ _ _) => apply R_api_get
  | |- preserves _ (get_track_details _ _) => apply R_api_get
  end.

Ltac catalog := frame R_refl R_trans catalog_prim.

Lemma fetch_page_preserves endpoint client_token params_at limit s :
  preserves R (fetch_page endpoint client_token params_at limit s).
Proof. unfold fetch_page. catalog. Qed.

Lemma get_artist_albums_preserves fuel artist_id client_token :
  preserves R (get_artist_albums fuel artist_id client_token).
Proof.
  unfold get_artist_albums. apply (preserves_while _ R_refl R_trans).
  intros s. apply fetch_page_preserves.
Qed.

Lemma get_album_tracks_preserves fuel album_id client_token :
  preserves R (get_album_tracks fuel album_id client_token).
Proof.
  unfold get_album_tracks. apply (preserves_while _ R_refl R_trans).
  intros s. apply fetch_page_preserves.
Qed.

Lemma collect_tracks_preserves fuel artist_id client_token primary_albums :
  forall all_tracks,
    preserves R (collect_tracks fuel artist_id client_token primary_albums all_tracks).
Proof.
  induction primary_albums as [|album rest IH]; intros all_tracks; cbn [collect_tracks].
  - catalog.
  - apply (preserves_bind _ R_trans); [catalog|intros album_id].
    apply (preserves_bind _ R_trans); [apply get_album_tracks_preserves|intros tracks].
    apply (preserves_bind _ R_trans); [catalog|intros kept]. apply IH.
Qed.

Lemma get_artist_tracks_preserves fuel artist_id client_token :
  preserves R (get_artist_tracks fuel artist_id client_token).
Proof.
  unfold get_artist_tracks.
  apply (preserves_bind _ R_trans); [apply get_artist_albums_preserves|intros albums].
  apply (preserves_bind _ R_trans); [catalog|intros primary_albums].
  apply (preserves_bind _ R_trans); [catalog|intros _].
  apply collect_tracks_preserves.
Qed.

Lemma fetch_details_preserves client_token total tracks :
  forall i detailed_tracks,
    preserves R (fetch_details client_token total i tracks detailed_tracks).
Proof.
  induction tracks as [|track rest IH]; intros i detailed_tracks; cbn [fetch_details].
  - catalog.
  - apply (preserves_bind _ R_trans); [catalog|intros _].
    apply (preserves_bind _ R_trans); [catalog|intros id].
    apply (preserves_bind _ R_trans); [catalog|intros detailed_track].
    apply IH.
Qed.

Lemma sort_tracks_preserves tracks sort_method sort_order client_token :
  preserves R (sort_tracks tracks sort_method sort_order client_token).
Proof.
  unfold sort_tracks.
  destruct (sort_method =? "date"); [catalog|].
  destruct (sort_method =? "popularity"); [|destruct (sort_method =? "name"); catalog].
  apply (preserves_bind _ R_trans); [catalog|intros _].
  apply (preserves_bind _ R_trans); [apply fetch_details_preserves|intros details].
  catalog.
Qed.

Lemma print_tracks_preserves sorted_tracks :
  forall i, preserves R (print_tracks i sorted_tracks).
Proof.
  induction sorted_tracks as [|track rest IH]; intros i; cbn [print_tracks].
  - catalog.
  - do 5 (apply (preserves_bind _ R_trans); [catalog|intros ?]).
    apply (preserves_bind _ R_trans); [catalog|intros _]. apply IH.
Qed.

Lemma print_choices_preserves artists :
  forall i, preserves R (print_choices i artists).
Proof.
  induction artists as [|artist rest IH]; intros i; cbn [print_choices].
  - catalog.
  - do 4 (apply (preserves_bind _ R_trans); [catalog|intros ?]).
    apply (preserves_bind _ R_trans); [catalog|intros _]. apply IH.
Qed.

(** The resolver reads the keyboard and the state file and writes the
    state file. *)
Hypothesis R_input : forall prompt, preserves R (input prompt).
Hypothesis R_load_state : preserves R load_state.
Hypothesis R_save_state : forall state, preserves R (save_state state).

Ltac resolver_prim :=
  idtac;
  lazymatch goal with
  | |- preserves _ (print _) => apply R_print
  | |- preserves _ (api_get _ _ _) => apply R_api_get
  | |- preserves _ (input _) => apply R_input
  | |- preserves _ load_state => apply R_load_state
  | |- preserves _ (save_state _) => apply R_save_state
  end.

Ltac resolver := frame R_refl R_trans resolver_prim.

Lemma save_choice_preserves state artist_name artist :
  preserves R (save_choice state artist_name artist).
Proof. unfold save_choice. resolver. Qed.

Lemma ask_choice_preserves state artist_name artists u :
  preserves R (ask_choice state artist_name artists u).
Proof.
  unfold ask_choice.
  apply (preserves_try_except _ R_trans); [|intros e; resolver].
  apply (preserves_bind _ R_trans); [resolver|intros choice].
  destruct (lower choice =? "q"); [resolver|].
  apply (preserves_bind _ R_trans); [resolver|intros choice_idx].
  apply (preserves_bind _ R_trans); [resolver|intros in_range].
  destruct in_range; [|resolver].
  do 3 (apply (preserves_bind _ R_trans); [resolver|intros ?]).
  apply (preserves_bind _ R_trans); [apply save_choice_preserves|intros ?].
  resolver.
Qed.

Lemma search_artist_preserves state artist_name client_token :
  preserves R (search_artist state artist_name client_token).
Proof.
  unfold search_artist.
  apply (preserves_bind _ R_trans); [resolver|intros results].
  apply (preserves_bind _ R_trans); [resolver|intros found].
  destruct (negb found); [resolver|].
  do 3 (apply (preserves_bind _ R_trans); [resolver|intros ?]).
  destruct (_ =? 1)%nat.
  - do 4 (apply (preserves_bind _ R_trans); [resolver|intros ?]).
    apply (preserves_bind _ R_trans); [apply save_choice_preserves|intros ?].
    resolver.
  - apply (preserves_bind _ R_trans); [resolver|intros ?].
    apply (preserves_bind _ R_trans); [resolver|intros listed].
    apply (preserves_bind _ R_trans); [apply print_choices_preserves|intros ?].
    intros w r w' H. revert H.
    apply (preserves_while _ R_refl R_trans). intros s. apply ask_choice_preserves.
Qed.

Lemma find_artist_preserves artist_name client_token :
  preserves R (find_artist artist_name client_token).
Proof.
  unfold find_artist.
  apply (preserves_bind _ R_trans); [resolver|intros state].
  apply (preserves_bind _ R_trans); [resolver|intros cached].
  destruct cached; [|apply search_artist_preserves].
  do 5 (apply (preserves_bind _ R_trans); [resolver|intros ?]).
  apply (preserves_bind _ R_trans); [resolver|intros artist_data].
  destruct (truthy artist_data); [resolver|].
  do 2 (apply (preserves_bind _ R_trans); [resolver|intros ?]).
  apply (preserves_bind _ R_trans); [resolver|intros ?].
  apply search_artist_preserves.
Qed.

Lemma gather_preserves fuel client_token artist_list :
  forall all_tracks artist_names,
    preserves R (gather fuel client_token artist_list all_tracks artist_names).
Proof.
  induction artist_list as [|artist_name rest IH]; intros all_tracks artist_names;
    cbn [gather].
  - resolver.
  - apply (preserves_bind _ R_trans); [apply find_artist_preserves|intros artist].
    destruct (truthy artist); [|apply IH].
    do 2 (apply (preserves_bind _ R_trans); [resolver|intros ?]).
    apply (preserves_bind _ R_trans); [apply get_artist_tracks_preserves|intros tracks].
    do 2 (apply (preserves_bind _ R_trans); [resolver|intros ?]).
    apply IH.
Qed.

End CatalogFrame.

(** *** Traffic only *)

Lemma traffic_only_refl w : traffic_only w w.
Proof. destruct w; reflexivity. Qed.

Lemma print_traffic line : preserves traffic_only (print line).
Proof. intros w r w' [= <- <-]. destruct w; reflexivity. Qed.

Lemma make_spotify_request_preserves_traffic endpoint token method data params max_retries :
  preserves traffic_only (make_spotify_request endpoint token method data params max_retries).
Proof. intros w r w'. apply make_spotify_request_traffic. Qed.

Lemma api_get_traffic endpoint token params :
  preserves traffic_only (api_get endpoint token params).
Proof. apply make_spotify_request_preserves_traffic. Qed.

Lemma add_tracks_to_playlist_traffic token playlist_id track_uris :
  preserves traffic_only (add_tracks_to_playlist token playlist_id track_uris).
Proof.
  unfold add_tracks_to_playlist.
  apply (preserves_bind _ traffic_only_trans).
  - apply (preserves_for_each _ traffic_only_refl traffic_only_trans). intros i u.
    apply (preserves_bind _ traffic_only_trans);
      [apply make_spotify_request_preserves_traffic|intros result].
    destruct (negb (truthy result)).
    + apply (preserves_bind _ traffic_only_trans); [apply print_traffic|intros _].
      apply (preserves_ret _ traffic_only_refl).
    + apply (preserves_ret _ traffic_only_refl).
  - intros [u|r]; apply (preserves_ret _ traffic_only_refl).
Qed.

(** *** Read only *)

Lemma read_only_refl w : read_only w w.
Proof.
  split; [|repeat split]. exists []. rewrite app_nil_r. auto.
Qed.

Lemma read_only_trans w1 w2 w3 : read_only w1 w2 -> read_only w2 w3 -> read_only w1 w3.
Proof.
  intros ((r1 & Hs1 & Hg1) & Hr1 & Ho1 & Hl1 & Hc1 & He1)
         ((r2 & Hs2 & Hg2) & Hr2 & Ho2 & Hl2 & Hc2 & He2).
  split; [|repeat split; congruence].
  exists (r1 ++ r2). split.
  - rewrite Hs2, Hs1, app_assoc. reflexivity.
  - apply Forall_app. auto.
Qed.

Lemma read_only_simple (w w' : World) :
  sent w' = sent w -> remote w' = remote w -> opened w' = opened w ->
  listening w' = listening w -> AUTH_CODE w' = AUTH_CODE w ->
  AUTH_CODE_RECEIVED w' = AUTH_CODE_RECEIVED w -> read_only w w'.
Proof.
  intros Hs. split; [|repeat split; auto]. exists []. rewrite app_nil_r. auto.
Qed.

Lemma print_read_only line : preserves read_only (print line).
Proof. intros w r w' [= <- <-]. apply read_only_simple; reflexivity. Qed.

Lemma sleep_read_only seconds : preserves read_only (sleep seconds).
Proof.
  intros w r w'. unfold sleep.
  destruct ((seconds <? - sleep_max) || (sleep_max <? seconds))%Z;
    [|destruct (seconds <? 0)%Z]; intros [= <- <-];
    apply read_only_simple; reflexivity.
Qed.

Lemma input_read_only prompt : preserves read_only (input prompt).
Proof.
  intros w r w'. unfold input. destruct (keyboard w); intros [= <- <-];
    apply read_only_simple; reflexivity.
Qed.

Lemma load_state_read_only : preserves read_only load_state.
Proof.
  intros w r w'. unfold load_state. destruct (state_file w); intros [= <- <-];
    apply read_only_simple; reflexivity.
Qed.

Lemma save_state_read_only state : preserves read_only (save_state state).
Proof. intros w r w' [= <- <-]. apply read_only_simple; reflexivity. Qed.

Lemma requests_get_read_only url headers params :
  preserves read_only (requests_get url headers params).
Proof.
  intros w r w' [= <- <-]. split; [|repeat split].
  eexists. split; [reflexivity|]. constructor; [reflexivity|constructor].
Qed.

Lemma api_get_read_only endpoint token params :
  preserves read_only (api_get endpoint token params).
Proof.
  unfold api_get, make_spotify_request.
  apply (preserves_while _ read_only_refl read_only_trans). intros retries.
  unfold attempt. cbn [String.eqb Ascii.eqb Bool.eqb].
  frame read_only_refl read_only_trans
    ltac:(idtac;
          lazymatch goal with
          | |- preserves _ (print _) => apply print_read_only
          | |- preserves _ (sleep _) => apply sleep_read_only
          | |- preserves _ (requests_get _ _ _) => apply requests_get_read_only
          end).
Qed.

(** X4.  The catalog reads and the playlist calls only generate
    traffic: whatever [get_artist_albums], [get_album_tracks],
    [get_artist_tracks], [sort_tracks], [get_current_user],
    [create_playlist] and [add_tracks_to_playlist] return or raise, the
    world they leave differs from the one they started in at most in
    the requests sent, the lengths slept and the lines printed.  They
    never read or write the state file, read the keyboard, open the
    browser or touch the listener. *)
Theorem catalog_calls_traffic_only :
  forall (fuel : nat) (id token : value) (tracks : list value)
         (sort_method sort_order description : string) (name : value),
    preserves traffic_only (get_artist_albums fuel id token) /\
    preserves traffic_only (get_album_tracks fuel id token) /\
    preserves traffic_only (get_artist_tracks fuel id token) /\
    preserves traffic_only (sort_tracks tracks sort_method sort_order token) /\
    preserves traffic_only (get_current_user token) /\
    preserves traffic_only (create_playlist token id name description) /\
    preserves traffic_only (add_tracks_to_playlist token id tracks).
Proof.
  intros.
  pose proof traffic_only_refl as Hr. pose proof traffic_only_trans as Ht.
  pose proof print_traffic as Hp. pose proof api_get_traffic as Ha.
  repeat split.
  - apply get_artist_albums_preserves; assumption.
  - apply get_album_tracks_preserves; assumption.
  - apply get_artist_tracks_preserves; assumption.
  - apply sort_tracks_preserves; assumption.
  - apply api_get_traffic.
  - apply make_spotify_request_preserves_traffic.
  - apply add_tracks_to_playlist_traffic.
Qed.

Lemma get_client_credentials_token_sends client_id client_secret w r w1 :
  get_client_credentials_token client_id client_secret w = Some (r, w1) ->
  sent w1 = sent w ++ [credentials_request client_id client_secret] /\
  remote w1 = remote w /\ opened w1 = opened w /\ listening w1 = listening w /\
  AUTH_CODE w1 = AUTH_CODE w /\ AUTH_CODE_RECEIVED w1 = AUTH_CODE_RECEIVED w /\
  state_file w1 = state_file w /\ keyboard w1 = keyboard w /\ slept w1 = slept w.
Proof.
  unfold get_client_credentials_token, requests_post_data, send. intros H.
  apply bind_inv in H. destruct H as [(response & w0 & Hs & H) | (e & Hs & ->)].
  - injection Hs as _ <-.
    destruct (negb (status_code response =? 200)%Z).
    + unfold bind, print, ret in H. injection H as <- <-. simpl. repeat split.
    + apply bind_inv in H. destruct H as [(body & w2 & Hj & H) | (e & Hj & ->)];
        apply lift_inv in Hj; destruct Hj as [_ ->];
        [apply lift_inv in H; destruct H as [_ ->]|]; simpl; repeat split.
  - injection Hs as _ <-. simpl. repeat split.
Qed.

Lemma main_body_dry_run hostname port float_add fuel args w r w' :
  dryrun args = true ->
  main_body hostname port float_add fuel args w = Some (r, w') ->
  exists w1,
    sent w1 = sent w ++ [credentials_request (client_id args) (client_secret args)] /\
    opened w1 = opened w /\ listening w1 = listening w /\
    read_only w1 w'.
Proof.
  intros Hdry H. unfold main_body in H.
  apply bind_inv in H. destruct H as [(client_token & w1 & Hc & H) | (e & Hc & ->)].
  2: { apply get_client_credentials_token_sends in Hc.
       destruct Hc as (Hs & Hr & Ho & Hl & _).
       exists w'. split; [exact Hs|]. split; [exact Ho|]. split; [exact Hl|].
       apply read_only_refl. }
  pose proof (get_client_credentials_token_sends _ _ _ _ _ Hc) as (Hs & Hr & Ho & Hl & _).
  exists w1. split; [exact Hs|]. split; [exact Ho|]. split; [exact Hl|].
  revert H.
  match goal with
  | |- ?m w1 = Some _ -> _ => assert (Hrest : preserves read_only m); [|apply Hrest]
  end.
  rewrite Hdry.
  pose proof read_only_refl as Rr. pose proof read_only_trans as Rt.
  pose proof print_read_only as Rp. pose proof api_get_read_only as Ra.
  destruct (negb (truthy client_token)); [apply Rp|].
  destruct (map strip _) as [|artist_name rest]; [apply Rp|].
  apply (preserves_bind _ Rt).
  { apply gather_preserves; auto using input_read_only, load_state_read_only,
      save_state_read_only. }
  intros [all_tracks artist_names].
  destruct all_tracks as [|track tracks]; [apply Rp|].
  apply (preserves_bind _ Rt); [apply (preserves_lift _ Rr)|intros unique].
  apply (preserves_bind _ Rt); [apply Rp|intros _].
  apply (preserves_bind _ Rt); [apply sort_tracks_preserves; auto|intros sorted_tracks].
  apply (preserves_bind _ Rt); [apply Rp|intros _].
  apply print_tracks_preserves; auto.
Qed.

(** X5.  A dry run changes nothing: every run of [main] with [--dryrun]
    that ends returns normally and has sent the client-credentials
    request followed by GET requests only, so that no playlist was
    created and no track added; it has not opened the browser and has not
    started the listener. *)
Theorem main_dry_run :
  forall (hostname : string -> res (option string)) (port : string -> res (option Z))
         (float_add : Q -> Q -> res Q)
         (fuel : nat) (args : Args) (w : World) (r : res unit) (w' : World),
    dryrun args = true ->
    main hostname port float_add fuel args w = Some (r, w') ->
    r = Ok tt /\
    (exists requests,
        sent w' = sent w ++
                  credentials_request (client_id args) (client_secret args) :: requests /\
        Forall (fun request => verb request = "GET") requests) /\
    opened w' = opened w /\
    listening w' = listening w.
Proof.
  intros hostname port float_add fuel args w r w' Hdry H. unfold main, try_except in H.
  destruct (main_body hostname port float_add fuel args w) as [[[[]|e] w0]|] eqn:Hb;
    try discriminate.
  - injection H as <- <-.
    destruct (main_body_dry_run _ _ _ _ _ _ _ _ Hdry Hb)
      as (w1 & Hs & Ho & Hl & (rs & Hs' & Hg) & _ & Ho' & Hl' & _).
    split; [reflexivity|]. split; [|split; congruence].
    exists rs. split; [|exact Hg]. rewrite Hs', Hs, <- app_assoc. reflexivity.
  - unfold print in H. injection H as <- <-.
    destruct (main_body_dry_run _ _ _ _ _ _ _ _ Hdry Hb)
      as (w1 & Hs & Ho & Hl & (rs & Hs' & Hg) & _ & Ho' & Hl' & _).
    split; [reflexivity|]. simpl. split; [|split; congruence].
    exists rs. split; [|exact Hg]. rewrite Hs', Hs, <- app_assoc. reflexivity.
Qed.

(** A dry run against the small service: it ends, having sent the
    token request and three GET requests (a search, the albums and the
    tracks of the one album). *)
Lemma main_dry_run_witness :
  exists w',
    main localhost port_8888 binary64_add 2 (some_args true)
      (initial_world service Missing [] None)
    = Some (Ok tt, w') /\
    List.length (sent w') = 4%nat /\ opened w' = [] /\ listening w' = None.
Proof.
  eexists. split; [vm_compute; reflexivity|].
  split; [reflexivity|].
  match goal with
  | |- opened ?w' = _ /\ _ =>
      destruct (main_dry_run localhost port_8888 binary64_add 2 (some_args true)
                  (initial_world service Missing [] None) (Ok tt) w')
        as (_ & _ & Ho & Hl)
  end.
  - reflexivity.
  - vm_compute. reflexivity.
  - split; [exact Ho | exact Hl].
Defined.

(** ** Stable sorting on any keys in a total order *)

Section StableSort.

(** The keys are taken from a class [K] on which [<] is defined and is
    the strict part of the total preorder [key_leb]. *)
Variable K : value -> Prop.
Hypothesis lt_spec : forall a b, K a -> K b -> py_lt a b = Ok (negb (key_leb b a)).
Hypothesis le_total : forall a b, K a -> K b -> key_leb a b = false -> key_leb b a = true.
Hypothesis le_trans :
  forall a b c, K a -> K b -> K c ->
                key_leb a b = true -> key_leb b c = true -> key_leb a c = true.

Let keyed (p : value * value) : Prop := K (fst p).
Let pair_le (p q : value * value) : Prop := key_leb (fst p) (fst q) = true.
Let at_key (d : value) (p : value * value) : bool := key_eqv (fst p) d.

Lemma insert_keyed x l :
  keyed x -> Forall keyed l ->
  exists r,
    insert x l = Ok r /\
    Permutation r (x :: l) /\
    Forall keyed r /\
    (StronglySorted pair_le l -> StronglySorted pair_le r) /\
    (forall d, K d -> filter (at_key d) r = filter (at_key d) (x :: l)).
Proof.
  intros Hx Hl. induction Hl as [|y l Hy Hl IH].
  - exists [x]. simpl. repeat split; auto. intros _. repeat constructor.
  - destruct IH as (r & Hr & Hp & Hk & Hs & Hf).
    cbn [insert]. rewrite (lt_spec _ _ Hy Hx). cbn [res_bind].
    destruct (key_leb (fst x) (fst y)) eqn:Ele; cbn [negb].
    + exists (x :: y :: l). split; [reflexivity|].
      split; [reflexivity|]. split; [|split; [|reflexivity]].
      * constructor; [exact Hx|]. constructor; [exact Hy | exact Hl].
      * intros Hsorted. constructor; [exact Hsorted|].
        constructor; [exact Ele|].
        inversion Hsorted as [|? ? _ Hall]; subst.
        rewrite Forall_forall in *. intros z Hz.
        apply (le_trans (fst x) (fst y) (fst z));
          [exact Hx | exact Hy | exact (Hl z Hz) | exact Ele | exact (Hall z Hz)].
    + rewrite Hr. cbn [res_bind]. exists (y :: r). split; [reflexivity|].
      split; [|split; [|split]].
      * rewrite Hp. apply perm_swap.
      * constructor; [exact Hy | exact Hk].
      * intros Hsorted. inversion Hsorted as [|? ? Hs' Hall]; subst.
        constructor; [apply Hs, Hs'|].
        eapply Permutation_Forall; [symmetry; exact Hp|].
        constructor; [|exact Hall].
        apply le_total; auto.
      * intros d Hd. cbn [filter]. rewrite (Hf d Hd). cbn [filter].
        destruct (at_key d x) eqn:Exd; [|reflexivity].
        destruct (at_key d y) eqn:Eyd; [|reflexivity].
        exfalso. unfold at_key, key_eqv in Exd, Eyd.
        apply andb_true_iff in Exd, Eyd.
        destruct Exd as (Hxd & _). destruct Eyd as (_ & Hdy).
        rewrite (le_trans _ _ _ Hx Hd Hy Hxd Hdy) in Ele. discriminate.
Qed.

Lemma stable_sort_keyed l :
  Forall keyed l ->
  exists r,
    stable_sort l = Ok r /\
    Permutation r l /\
    Forall keyed r /\
    StronglySorted pair_le r /\
    (forall d, K d -> filter (at_key d) r = filter (at_key d) l).
Proof.
  intros Hl. induction Hl as [|x l Hx Hl IH].
  - exists []. simpl. repeat split; auto; constructor.
  - destruct IH as (r & Hr & Hp & Hk & Hs & Hf).
    destruct (insert_keyed x r Hx Hk) as (r' & Hr' & Hp' & Hk' & Hs' & Hf').
    exists r'. simpl. rewrite Hr. simpl. split; [exact Hr'|].
    split; [rewrite Hp'; constructor; exact Hp|].
    split; [exact Hk'|]. split; [apply Hs', Hs|].
    intros d Hd. rewrite (Hf' d Hd). simpl. rewrite (Hf d Hd). reflexivity.
Qed.

(** [sorted] on elements whose keys [key_at] are in the class: a stable
    sort in either direction. *)
Lemma sorted_keyed (key : value -> res value) (key_at : value -> value) l reverse :
  Forall (fun x => key x = Ok (key_at x) /\ K (key_at x)) l ->
  exists sorted_l,
    sorted l key reverse = Ok sorted_l /\
    Permutation sorted_l l /\
    (if reverse
     then StronglySorted (fun a b => key_leb (key_at b) (key_at a) = true) sorted_l
     else StronglySorted (fun a b => key_leb (key_at a) (key_at b) = true) sorted_l) /\
    (forall d, K d ->
               filter (fun x => key_eqv (key_at x) d) sorted_l =
               filter (fun x => key_eqv (key_at x) d) l).
Proof.
  intros Hl. unfold sorted.
  set (pairs := map (fun x => (key_at x, x)) l).
  assert (Hwk : with_keys key l = Ok pairs).
  { unfold pairs. clear pairs.
    induction Hl as [|x l (Hx & _) Hl IH]; simpl; [reflexivity|].
    rewrite Hx, IH. reflexivity. }
  rewrite Hwk. cbn [res_bind].
  assert (Hk : Forall keyed pairs).
  { apply Forall_map. eapply Forall_impl; [|exact Hl]. intros x (_ & Hx). exact Hx. }
  assert (Hown : Forall (fun p => fst p = key_at (snd p)) pairs).
  { apply Forall_map, Forall_forall. intros x _. reflexivity. }
  assert (Hsnd : map snd pairs = l).
  { unfold pairs. rewrite map_map. simpl. apply map_id. }
  assert (Hfilter : forall d ps,
             Forall (fun p => fst p = key_at (snd p)) ps ->
             map snd (filter (at_key d) ps) =
             filter (fun x => key_eqv (key_at x) d) (map snd ps)).
  { intros d ps Hps. induction Hps as [|p ps Hp Hps IH]; simpl; [reflexivity|].
    unfold at_key at 1. rewrite Hp.
    destruct (key_eqv (key_at (snd p)) d); simpl; rewrite IH; reflexivity. }
  assert (Hsorted : forall ps,
             Forall (fun p => fst p = key_at (snd p)) ps ->
             (StronglySorted pair_le ps ->
              StronglySorted (fun a b => key_leb (key_at a) (key_at b) = true)
                (map snd ps)) /\
             (StronglySorted (fun p q => pair_le q p) ps ->
              StronglySorted (fun a b => key_leb (key_at b) (key_at a) = true)
                (map snd ps))).
  { intros ps Hps.
    assert (Hkey : forall p, In p ps -> fst p = key_at (snd p)).
    { rewrite Forall_forall in Hps. exact Hps. }
    clear Hps. split; intros Hs; apply StronglySorted_map.
    - induction Hs as [|p ps Hs IH Hall]; constructor.
      + apply IH. intros q Hq. apply Hkey. right; exact Hq.
      + rewrite Forall_forall in *. intros q Hq. specialize (Hall q Hq).
        unfold pair_le in Hall.
        rewrite <- (Hkey p), <- (Hkey q) by (simpl; auto). exact Hall.
    - induction Hs as [|p ps Hs IH Hall]; constructor.
      + apply IH. intros q Hq. apply Hkey. right; exact Hq.
      + rewrite Forall_forall in *. intros q Hq. specialize (Hall q Hq).
        unfold pair_le in Hall.
        rewrite <- (Hkey p), <- (Hkey q) by (simpl; auto). exact Hall. }
  destruct reverse.
  - destruct (stable_sort_keyed (rev pairs)) as (r & Hr & Hp & Hk' & Hs & Hf).
    { apply Forall_rev, Hk. }
    rewrite Hr. cbn [res_bind]. eexists. split; [reflexivity|].
    assert (Hown' : Forall (fun p => fst p = key_at (snd p)) (rev r)).
    { apply Forall_rev. eapply Permutation_Forall; [symmetry; exact Hp|].
      apply Forall_rev, Hown. }
    split; [|split].
    + transitivity (map snd pairs); [|rewrite Hsnd; reflexivity].
      apply Permutation_map.
      rewrite <- Permutation_rev, Hp, <- Permutation_rev. reflexivity.
    + apply (Hsorted _ Hown'). apply (StronglySorted_rev pair_le), Hs.
    + intros d Hd. rewrite <- (Hfilter d _ Hown').
      rewrite filter_rev, (Hf d Hd), filter_rev, rev_involutive.
      rewrite (Hfilter d _ Hown), Hsnd. reflexivity.
  - destruct (stable_sort_keyed pairs Hk) as (r & Hr & Hp & Hk' & Hs & Hf).
    rewrite Hr. cbn [res_bind]. eexists. split; [reflexivity|].
    assert (Hown' : Forall (fun p => fst p = key_at (snd p)) r).
    { eapply Permutation_Forall; [symmetry; exact Hp | exact Hown]. }
    split; [|split].
    + transitivity (map snd pairs); [|rewrite Hsnd; reflexivity].
      apply Permutation_map, Hp.
    + apply (Hsorted _ Hown'), Hs.
    + intros d Hd. rewrite <- (Hfilter d _ Hown'), (Hf d Hd).
      rewrite (Hfilter d _ Hown), Hsnd. reflexivity.
Qed.

End StableSort.

(** Strings are such a class. *)
Lemma string_leb_total a b : String.leb a b = false -> String.leb b a = true.
Proof.
  unfold String.leb. rewrite (String.compare_antisym b a).
  destruct (String.compare a b); simpl; congruence.
Qed.

Lemma string_leb_antisym a b :
  String.leb a b && String.leb b a = (a =? b).
Proof.
  unfold String.leb. rewrite (String.compare_antisym b a).
  destruct (String.compare a b) eqn:E; simpl.
  - apply String.compare_eq_iff in E. subst. rewrite String.eqb_refl. reflexivity.
  - destruct (String.eqb_spec a b); [|reflexivity].
    subst. rewrite string_compare_refl in E. discriminate.
  - destruct (String.eqb_spec a b); [|reflexivity].
    subst. rewrite string_compare_refl in E. discriminate.
Qed.

Lemma sorted_strings (key : value -> res value) (key_at : value -> value) l reverse :
  Forall (fun x => key x = Ok (key_at x) /\ is_string (key_at x)) l ->
  exists sorted_l,
    sorted l key reverse = Ok sorted_l /\
    Permutation sorted_l l /\
    (if reverse
     then StronglySorted (fun a b => key_leb (key_at b) (key_at a) = true) sorted_l
     else StronglySorted (fun a b => key_leb (key_at a) (key_at b) = true) sorted_l) /\
    (forall d, is_string d ->
               filter (fun x => key_eqv (key_at x) d) sorted_l =
               filter (fun x => key_eqv (key_at x) d) l).
Proof.
  apply (sorted_keyed is_string).
  - intros a b (s & ->) (t & ->). simpl. unfold str_lt.
    rewrite string_ltb_leb. reflexivity.
  - intros a b (s & ->) (t & ->). simpl. apply string_leb_total.
  - intros a b c (s & ->) (t & ->) (u & ->). simpl. apply string_leb_trans.
Qed.

(** Numbers are another. *)
Lemma number_leb a b p q :
  as_number a = Some p -> as_number b = Some q -> key_leb a b = Qle_bool p q.
Proof.
  intros Ha Hb. destruct a; simpl in Ha; try discriminate;
    destruct b; simpl in Hb; try discriminate; simpl;
    injection Ha as <-; injection Hb as <-; reflexivity.
Qed.

Lemma number_lt a b p q :
  as_number a = Some p -> as_number b = Some q -> py_lt a b = Ok (negb (Qle_bool q p)).
Proof.
  intros Ha Hb. destruct a; simpl in Ha; try discriminate;
    destruct b; simpl in Hb; try discriminate; simpl;
    injection Ha as <-; injection Hb as <-; reflexivity.
Qed.

Lemma sorted_numbers (key : value -> res value) (key_at : value -> value) l reverse :
  Forall (fun x => key x = Ok (key_at x) /\ is_number (key_at x)) l ->
  exists sorted_l,
    sorted l key reverse = Ok sorted_l /\
    Permutation sorted_l l /\
    (if reverse
     then StronglySorted (fun a b => key_leb (key_at b) (key_at a) = true) sorted_l
     else StronglySorted (fun a b => key_leb (key_at a) (key_at b) = true) sorted_l) /\
    (forall d, is_number d ->
               filter (fun x => key_eqv (key_at x) d) sorted_l =
               filter (fun x => key_eqv (key_at x) d) l).
Proof.
  apply (sorted_keyed is_number).
  - intros a b (p & Ha) (q & Hb).
    rewrite (number_lt _ _ _ _ Ha Hb), (number_leb _ _ _ _ Hb Ha). reflexivity.
  - intros a b (p & Ha) (q & Hb).
    rewrite (number_leb _ _ _ _ Ha Hb), (number_leb _ _ _ _ Hb Ha).
    intros H. apply Qle_bool_iff.
    destruct (Qlt_le_dec p q) as [Hlt | Hle]; [|exact Hle].
    apply Qlt_le_weak in Hlt. apply Qle_bool_iff in Hlt. congruence.
  - intros a b c (p & Ha) (q & Hb) (u & Hc).
    rewrite (number_leb _ _ _ _ Ha Hb), (number_leb _ _ _ _ Hb Hc),
      (number_leb _ _ _ _ Ha Hc).
    intros H1 H2. apply Qle_bool_iff in H1, H2. apply Qle_bool_iff.
    eapply Qle_trans; eauto.
Qed.

Lemma StronglySorted_weaken {A} (P : A -> Prop) (R R' : A -> A -> Prop) l :
  Forall P l ->
  (forall a b, P a -> P b -> R a b -> R' a b) ->
  StronglySorted R l -> StronglySorted R' l.
Proof.
  intros HP Himp Hs. induction Hs as [|x l Hs IH Hall]; [constructor|].
  inversion HP as [|? ? Hx Hl]; subst. constructor; [apply IH, Hl|].
  rewrite Forall_forall in *. intros y Hy. apply Himp; auto.
Qed.

Lemma filter_ext_Forall {A} (P : A -> Prop) (f g : A -> bool) l :
  Forall P l -> (forall a, P a -> f a = g a) -> filter f l = filter g l.
Proof.
  intros HP Hfg. induction HP as [|x l Hx Hl IH]; simpl; [reflexivity|].
  rewrite (Hfg x Hx), IH. reflexivity.
Qed.

(** The first element of a list whose key raises makes [sorted] raise. *)
Lemma sorted_key_raises (key : value -> res value) before x after reverse e :
  Forall (fun y => exists k, key y = Ok k) before ->
  key x = Raise e ->
  sorted (before ++ x :: after) key reverse = Raise e.
Proof.
  intros Hb Hx. unfold sorted.
  assert (H : with_keys key (before ++ x :: after) = Raise e).
  { induction Hb as [|y l (k & Hy) Hl IH]; simpl.
    - rewrite Hx. reflexivity.
    - rewrite Hy, IH. reflexivity. }
  rewrite H. reflexivity.
Qed.

(** X6.  [sort_tracks] with method 'name', in either direction.
    - On tracks whose names are strings it changes nothing in the
      world and returns a permutation of its input in the order of
      [<=] on the names (code points: capitals before small letters),
      ascending unless the order argument is 'desc' in any letter
      case; tracks of the same name keep the order they had in the
      input, in both directions.
    - A track without a usable name makes the call raise what
      [x['name']] raises on the first such track ([KeyError] for a
      dict without the key), where sorting by date would count a
      missing date as the empty string. *)
Theorem sort_tracks_by_name :
  forall (tracks : list value) (sort_order : string) (token : value) (w : World),
    (Forall named tracks ->
     exists sorted_tracks,
       sort_tracks tracks "name" sort_order token w = Some (Ok sorted_tracks, w) /\
       Permutation sorted_tracks tracks /\
       (lower sort_order = "desc" ->
        StronglySorted (fun a b => name_le b a) sorted_tracks) /\
       (lower sort_order <> "desc" -> StronglySorted name_le sorted_tracks) /\
       (forall n, named_as n sorted_tracks = named_as n tracks))
    /\
    (forall before track after e,
        tracks = before ++ track :: after ->
        Forall named before ->
        getitem track "name" = Raise e ->
        sort_tracks tracks "name" sort_order token w = Some (Raise e, w)).
Proof.
  intros tracks sort_order token w. split.
  - intros Hn.
    destruct (sorted_strings (fun x => getitem x "name") (fun x => VStr (name_of x))
                tracks (lower sort_order =? "desc"))
      as (sorted_tracks & Hs & Hp & Ho & Hst).
    { eapply Forall_impl; [|exact Hn]. intros t (s & Ht). unfold name_of. rewrite Ht.
      split; [reflexivity | exists s; reflexivity]. }
    exists sorted_tracks. unfold sort_tracks. cbn [String.eqb Ascii.eqb Bool.eqb].
    rewrite Hs. split; [reflexivity|]. split; [exact Hp|].
    assert (Hst' : forall n, named_as n sorted_tracks = named_as n tracks).
    { intros n. unfold named_as.
      rewrite (filter_ext _ (fun x => key_eqv (VStr (name_of x)) (VStr n)))
        by (intros a; symmetry; apply string_leb_antisym).
      rewrite (Hst (VStr n)) by (exists n; reflexivity).
      apply filter_ext. intros a. apply string_leb_antisym. }
    destruct (String.eqb_spec (lower sort_order) "desc") as [E | E].
    + split; [intros _; exact Ho|]. split; [contradiction | exact Hst'].
    + split; [contradiction|]. split; [intros _; exact Ho | exact Hst'].
  - intros before track after e -> Hb He.
    unfold sort_tracks. cbn [String.eqb Ascii.eqb Bool.eqb].
    rewrite (sorted_key_raises (fun x => getitem x "name") before track after _ e);
      [reflexivity | | exact He].
    eapply Forall_impl; [|exact Hb]. intros t (s & Ht). eauto.
Qed.

(** Four tracks, two of them named "beta": capitals first, the two in
    their input order in both directions; and a list with a nameless
    track. *)
Lemma sort_tracks_by_name_witness :
  (exists l1 l2,
      sort_tracks named_tracks "name" "asc" VNone (initial_world catalog Missing [] None)
      = Some (Ok l1, initial_world catalog Missing [] None) /\
      map track_id l1 = [VStr "t2"; VStr "t3"; VStr "t1"; VStr "t4"] /\
      StronglySorted name_le l1 /\
      sort_tracks named_tracks "name" "DESC" VNone (initial_world catalog Missing [] None)
      = Some (Ok l2, initial_world catalog Missing [] None) /\
      map track_id l2 = [VStr "t1"; VStr "t4"; VStr "t3"; VStr "t2"] /\
      StronglySorted (fun a b => name_le b a) l2)
  /\
  sort_tracks (named_tracks ++ [nameless_track]) "name" "asc" VNone
    (initial_world catalog Missing [] None)
  = Some (Raise KeyError, initial_world catalog Missing [] None).
Proof.
  assert (Hn : Forall named named_tracks).
  { repeat constructor; eexists; reflexivity. }
  split.
  - destruct (sort_tracks_by_name named_tracks "asc" VNone
                (initial_world catalog Missing [] None)) as (H1 & _).
    destruct (sort_tracks_by_name named_tracks "DESC" VNone
                (initial_world catalog Missing [] None)) as (H2 & _).
    destruct (H1 Hn) as (l1 & Hr1 & _ & _ & Hs1 & _).
    destruct (H2 Hn) as (l2 & Hr2 & _ & Hs2 & _ & _).
    exists l1, l2.
    split; [exact Hr1|].
    split; [vm_compute in Hr1; injection Hr1 as <-; reflexivity|].
    split; [apply Hs1; discriminate|].
    split; [exact Hr2|].
    split; [vm_compute in Hr2; injection Hr2 as <-; reflexivity|].
    apply Hs2. reflexivity.
  - destruct (sort_tracks_by_name (named_tracks ++ [nameless_track]) "asc" VNone
                (initial_world catalog Missing [] None)) as (_ & H).
    apply (H named_tracks nameless_track []); [reflexivity | exact Hn | reflexivity].
Defined.

Lemma Qle_bool_both p q : Qle_bool p q && Qle_bool q p = Qeq_bool p q.
Proof.
  apply eq_true_iff_eq. rewrite andb_true_iff, !Qle_bool_iff, Qeq_bool_iff. split.
  - intros (H1 & H2). apply Qle_antisym; assumption.
  - intros H. rewrite H. split; apply Qle_refl.
Qed.

Lemma rated_key t :
  rated t ->
  exists v, popularity_key t = Ok v /\ as_number v = Some (popularity_of t).
Proof.
  intros (v & q & Hv & Hq). exists v. split; [exact Hv|].
  unfold popularity_of. rewrite Hv, Hq. reflexivity.
Qed.

(** X7.  The order [sort_tracks] gives with method 'popularity': when
    the detail fetches give [details] and every record among them has
    a number as popularity (a missing one counts as 0), the call
    returns [details] sorted by popularity, ascending unless the order
    argument is 'desc' in any letter case, records of equal popularity
    in the order in which they were fetched, in both directions. *)
Theorem sort_tracks_popularity_order :
  forall (tracks : list value) (sort_order : string) (token : value)
         (w : World) (details : list value) (w' : World),
    details_fetched token (List.length tracks) 1 tracks (fetching w) details w' ->
    Forall rated details ->
    exists sorted_tracks,
      sort_tracks tracks "popularity" sort_order token w = Some (Ok sorted_tracks, w') /\
      Permutation sorted_tracks details /\
      (lower sort_order = "desc" ->
       StronglySorted (fun a b => popularity_le b a) sorted_tracks) /\
      (lower sort_order <> "desc" -> StronglySorted popularity_le sorted_tracks) /\
      (forall q, rated_at q sorted_tracks = rated_at q details).
Proof.
  intros tracks sort_order token w details w' Hd Hr.
  set (key_at := fun t => match popularity_key t with Ok v => v | Raise _ => VInt 0 end).
  assert (Hk : forall t, rated t ->
                         popularity_key t = Ok (key_at t) /\
                         as_number (key_at t) = Some (popularity_of t)).
  { intros t Ht. destruct (rated_key t Ht) as (v & Hv & Hq).
    unfold key_at. rewrite Hv. auto. }
  destruct (sorted_numbers popularity_key key_at details (lower sort_order =? "desc"))
    as (sorted_tracks & Hs & Hp & Ho & Hst).
  { eapply Forall_impl; [|exact Hr]. intros t Ht. destruct (Hk t Ht) as (H1 & H2).
    split; [exact H1 | eexists; exact H2]. }
  assert (Hr' : Forall rated sorted_tracks).
  { eapply Permutation_Forall; [symmetry; exact Hp | exact Hr]. }
  assert (Hle : forall a b, rated a -> rated b ->
                            key_leb (key_at a) (key_at b) = true -> popularity_le a b).
  { intros a b Ha Hb H. destruct (Hk a Ha) as (_ & Hqa). destruct (Hk b Hb) as (_ & Hqb).
    rewrite (number_leb _ _ _ _ Hqa Hqb) in H. apply Qle_bool_iff. exact H. }
  exists sorted_tracks. rewrite sort_tracks_popularity.
  rewrite (fetched_fetch_details _ _ _ _ [] _ _ _ Hd). cbn [app].
  rewrite Hs. split; [reflexivity|]. split; [exact Hp|].
  assert (Hst' : forall q, rated_at q sorted_tracks = rated_at q details).
  { intros q. unfold rated_at.
    assert (Hf : forall t, rated t ->
                           Qeq_bool (popularity_of t) q = key_eqv (key_at t) (VNum q)).
    { intros t Ht. destruct (Hk t Ht) as (_ & Hq). unfold key_eqv.
      rewrite (number_leb (key_at t) (VNum q) _ q Hq eq_refl),
        (number_leb (VNum q) (key_at t) q _ eq_refl Hq).
      symmetry. apply Qle_bool_both. }
    rewrite (filter_ext_Forall rated _ _ sorted_tracks Hr' Hf).
    rewrite (filter_ext_Forall rated _ _ details Hr Hf).
    apply Hst. exists q. reflexivity. }
  destruct (String.eqb_spec (lower sort_order) "desc") as [E | E].
  - split; [|split; [contradiction | exact Hst']].
    intros _. eapply (StronglySorted_weaken rated); [exact Hr' | | exact Ho].
    intros a b Ha Hb H. apply Hle; assumption.
  - split; [contradiction|]. split; [|exact Hst'].
    intros _. eapply (StronglySorted_weaken rated); [exact Hr' | | exact Ho].
    intros a b Ha Hb H. apply Hle; assumption.
Qed.

(** Four tracks of which the remote side knows three, two of them
    equally popular: the fourth is dropped, and the two keep their
    order in both directions. *)
Lemma sort_tracks_popularity_order_witness :
  exists l1 l2 w',
    sort_tracks named_tracks "popularity" "asc" (VStr "token")
      (initial_world charts Missing [] None) = Some (Ok l1, w') /\
    map track_id l1 = [VStr "t2"; VStr "t1"; VStr "t3"] /\
    sort_tracks named_tracks "popularity" "desc" (VStr "token")
      (initial_world charts Missing [] None) = Some (Ok l2, w') /\
    map track_id l2 = [VStr "t1"; VStr "t3"; VStr "t2"] /\
    StronglySorted popularity_le l1.
Proof.
  assert (Hd : exists details w',
             details_fetched (VStr "token") (List.length named_tracks) 1 named_tracks
               (fetching (initial_world charts Missing [] None)) details w' /\
             Forall rated details).
  { do 2 eexists. split.
    - eapply (details_next _ _ _ _ _ (VStr "t1")); [reflexivity | vm_compute; reflexivity|].
      eapply (details_next _ _ _ _ _ (VStr "t2")); [reflexivity | vm_compute; reflexivity|].
      eapply (details_next _ _ _ _ _ (VStr "t3")); [reflexivity | vm_compute; reflexivity|].
      eapply (details_next _ _ _ _ _ (VStr "t4")); [reflexivity | vm_compute; reflexivity|].
      apply details_none.
    - cbn [truthy]. repeat constructor; do 2 eexists; split; reflexivity. }
  destruct Hd as (details & w' & Hd & Hr).
  destruct (sort_tracks_popularity_order named_tracks "asc" (VStr "token") _ _ _ Hd Hr)
    as (l1 & Hr1 & _ & _ & Hs1 & _).
  destruct (sort_tracks_popularity_order named_tracks "desc" (VStr "token") _ _ _ Hd Hr)
    as (l2 & Hr2 & _ & _ & _ & _).
  exists l1, l2, w'.
  split; [exact Hr1|].
  split; [vm_compute in Hr1; injection Hr1 as <- _; reflexivity|].
  split; [exact Hr2|].
  split; [vm_compute in Hr2; injection Hr2 as <- _; reflexivity|].
  apply Hs1. discriminate.
Defined.

(** ** Pages *)

Lemma fetch_page_end endpoint token params_at limit got off w result w' :
  api_get endpoint token (params_at off) w = Some (Ok result, w') ->
  (truthy result = false \/
   exists items, get result "items" VNone = Ok items /\ truthy items = false) ->
  fetch_page endpoint token params_at limit (mkPage got off) w
  = Some (Ok (Return got), w').
Proof.
  intros Hget Hno. unfold fetch_page. cbn [offset collected].
  unfold bind at 1. unfold bind at 1. rewrite Hget.
  destruct Hno as [Hf0 | (its & Hg & Hf0)].
  - rewrite Hf0. reflexivity.
  - destruct (truthy result); [|reflexivity].
    cbn [negb]. unfold bind, lift, ret. rewrite Hg. cbn. rewrite Hf0. reflexivity.
Qed.

Lemma fetch_page_items endpoint token params_at limit got off w result items w' :
  api_get endpoint token (params_at off) w = Some (Ok result, w') ->
  truthy result = true ->
  getitem result "items" = Ok (VList items) ->
  items <> [] ->
  fetch_page endpoint token params_at limit (mkPage got off) w
  = (last <- (if (Z.of_nat (List.length items) <? limit)%Z then ret true
              else next <- lift (get result "next" VNone) ;; ret (negb (truthy next))) ;;
     if last then ret (Return (got ++ items))
     else ret (Again (mkPage (got ++ items) (off + limit)))) w'.
Proof.
  intros Hget Ht Hi Hne.
  destruct (getitem_dict _ _ _ Hi) as (d & -> & Hl).
  assert (Hti : truthy (VList items) = true) by (destruct items; [congruence|reflexivity]).
  unfold fetch_page. cbn [offset collected].
  unfold bind at 1. unfold bind at 1. rewrite Hget. rewrite Ht. cbn [negb].
  unfold bind at 1. unfold lift at 1. unfold get at 1. rewrite Hl.
  unfold ret at 1. unfold ret at 1. rewrite Hti. cbn [negb].
  unfold bind at 1. unfold lift at 1. unfold getitem at 1. rewrite Hl. unfold ret at 1.
  unfold bind at 1. unfold lift at 1. cbn [iterate]. unfold ret at 1.
  unfold bind at 1. unfold lift at 1. unfold getitem at 1. rewrite Hl. unfold ret at 1.
  unfold bind at 1. unfold lift at 1. cbn [len]. unfold ret at 1.
  reflexivity.
Qed.

Lemma fetch_pages endpoint token params_at limit off w items w' :
  paged endpoint token params_at limit off w items w' ->
  forall collected,
  exists pages,
    forall fuel,
      (pages <= fuel)%nat ->
      while fuel (fetch_page endpoint token params_at limit) (mkPage collected off) w
      = Some (Ok (collected ++ items), w').
Proof.
  induction 1 as [off w result w' Hget Hno
                 |off w result items w' Hget Ht Hi Hne Hlast
                 |off w result items next w1 rest w' Hget Ht Hi Hne Hfull Hnext Hn _ IH];
    intros collected.
  - exists 1%nat. intros [|fuel] Hf; [lia|].
    rewrite while_S, (bind_Ok _ _ _ _ _ (fetch_page_end _ _ _ _ _ _ _ _ _ Hget Hno)).
    rewrite app_nil_r. reflexivity.
  - exists 1%nat. intros [|fuel] Hf; [lia|].
    rewrite while_S. unfold bind at 1.
    rewrite (fetch_page_items _ _ _ _ _ _ _ _ _ _ Hget Ht Hi Hne).
    destruct (Z.ltb_spec (Z.of_nat (List.length items)) limit) as [Hlt | Hge].
    + reflexivity.
    + destruct Hlast as [Hlt | (next & Hg & Hfn)]; [lia|].
      unfold bind, lift, ret. rewrite Hg, Hfn. reflexivity.
  - destruct (IH (collected ++ items)) as (pages & Hp).
    exists (S pages). intros [|fuel] Hf; [lia|].
    rewrite while_S. unfold bind at 1.
    rewrite (fetch_page_items _ _ _ _ _ _ _ _ _ _ Hget Ht Hi Hne).
    destruct (Z.ltb_spec (Z.of_nat (List.length items)) limit) as [Hlt | Hge]; [lia|].
    unfold bind, lift, ret. rewrite Hnext, Hn. cbn [negb].
    rewrite Hp by lia. rewrite <- app_assoc. reflexivity.
Qed.

(** X8.  The two listings, [get_artist_albums] and [get_album_tracks],
    ask for pages of 50 at the offsets 0, 50, 100, ... and return the
    items of the pages in order.  They stop at the first page that is
    shorter than 50 or announces no next page, and also, keeping what
    they have collected and raising nothing, at the first answer that
    is falsy or has no items: a request that failed ends the listing
    like the end of the catalog would. *)
Theorem listings_collect_pages :
  forall (id token : value) (w : World) (items : list value) (w' : World),
    (paged [Lit "artists/"; Fmt id; Lit "/albums"] token albums_params 50 0 w items w' ->
     exists pages,
       forall fuel, (pages <= fuel)%nat ->
                    get_artist_albums fuel id token w = Some (Ok items, w'))
    /\
    (paged [Lit "albums/"; Fmt id; Lit "/tracks"] token tracks_params 50 0 w items w' ->
     exists pages,
       forall fuel, (pages <= fuel)%nat ->
                    get_album_tracks fuel id token w = Some (Ok items, w')).
Proof.
  intros id token w items w'. split; intros H;
    destruct (fetch_pages _ _ _ _ _ _ _ _ H []) as (pages & Hp);
    exists pages; intros fuel Hf; apply Hp; exact Hf.
Qed.

(** Fifty-one albums on two pages; and the same catalog when the
    request for the second page fails: the first fifty are returned. *)
Lemma listings_collect_pages_witness :
  (exists w',
      get_artist_albums 2 (VStr "a1") (VStr "token")
        (initial_world (long_discography false) Missing [] None)
      = Some (Ok (repeat own_album 50 ++ [guest_album]), w') /\
      List.length (sent w') = 2%nat)
  /\
  (exists w',
      get_artist_albums 2 (VStr "a1") (VStr "token")
        (initial_world (long_discography true) Missing [] None)
      = Some (Ok (repeat own_album 50), w') /\
      List.length (sent w') = 2%nat).
Proof.
  split.
  - destruct (listings_collect_pages (VStr "a1") (VStr "token")
                (initial_world (long_discography false) Missing [] None)
                (repeat own_album 50 ++ [guest_album])
                (match get_artist_albums 2 (VStr "a1") (VStr "token")
                         (initial_world (long_discography false) Missing [] None) with
                 | Some (_, w') => w'
                 | None => initial_world (long_discography false) Missing [] None
                 end)) as (H & _).
    destruct H as (pages & Hp).
    + eapply paged_more.
      * vm_compute. reflexivity.
      * reflexivity.
      * reflexivity.
      * discriminate.
      * vm_compute. discriminate.
      * reflexivity.
      * reflexivity.
      * eapply paged_last.
        -- vm_compute. reflexivity.
        -- reflexivity.
        -- reflexivity.
        -- discriminate.
        -- left. vm_compute. reflexivity.
    + eexists. split; [vm_compute; reflexivity | reflexivity].
  - destruct (listings_collect_pages (VStr "a1") (VStr "token")
                (initial_world (long_discography true) Missing [] None)
                (repeat own_album 50 ++ [])
                (match get_artist_albums 2 (VStr "a1") (VStr "token")
                         (initial_world (long_discography true) Missing [] None) with
                 | Some (_, w') => w'
                 | None => initial_world (long_discography true) Missing [] None
                 end)) as (H & _).
    destruct H as (pages & Hp).
    + eapply paged_more.
      * vm_compute. reflexivity.
      * reflexivity.
      * reflexivity.
      * discriminate.
      * vm_compute. discriminate.
      * reflexivity.
      * reflexivity.
      * eapply paged_end.
        -- vm_compute. reflexivity.
        -- left. reflexivity.
    + eexists. split; [vm_compute; reflexivity | reflexivity].
Defined.

(** ** Choosing among several artists *)


Section Choice.

Variables (state : value) (artist_name : string) (l : list value).

Let turn := ask_choice state artist_name (VList l) tt.



End Choice.



(** ** Removing duplicates, again *)

Lemma first_occurrences_Forall (P : value -> Prop) l :
  Forall P l -> forall seen, Forall P (first_occurrences seen l).
Proof.
  induction 1 as [|t l Ht Hl IH]; intros seen; simpl; [constructor|].
  destruct (existsb (same_id t) seen); [apply IH|].
  constructor; [exact Ht | apply IH].
Qed.

Lemma first_occurrences_length l :
  forall seen, (List.length (first_occurrences seen l) <= List.length l)%nat.
Proof.
  induction l as [|t l IH]; intros seen; simpl; [lia|].
  destruct (existsb (same_id t) seen); simpl.
  - specialize (IH seen). lia.
  - specialize (IH (seen ++ [t])). lia.
Qed.

(** The first occurrences are unseen and have pairwise different IDs. *)
Lemma first_occurrences_distinct l :
  Forall has_hashable_id l ->
  forall seen,
    Forall has_hashable_id seen ->
    Forall (fun t => existsb (same_id t) seen = false) (first_occurrences seen l) /\
    ForallOrdPairs (fun t u => same_id t u = false) (first_occurrences seen l).
Proof.
  induction 1 as [|t l Ht Hl IH]; intros seen Hs; simpl.
  - split; constructor.
  - destruct (existsb (same_id t) seen) eqn:E; [apply IH, Hs|].
    destruct (IH (seen ++ [t])) as (Hu & Hd).
    { apply Forall_app. auto. }
    assert (Hh : Forall has_hashable_id (first_occurrences (seen ++ [t]) l)).
    { apply first_occurrences_Forall, Hl. }
    split.
    + constructor; [exact E|].
      eapply Forall_impl; [|exact Hu]. intros u Hx. cbv beta in Hx.
      rewrite existsb_snoc in Hx. apply orb_false_iff in Hx. apply Hx.
    + constructor; [|exact Hd].
      rewrite Forall_forall in *. intros u Hin.
      specialize (Hu u Hin). rewrite existsb_snoc in Hu. apply orb_false_iff in Hu.
      rewrite same_id_sym by auto. apply Hu.
Qed.

(** A list of unseen tracks with pairwise different IDs is kept whole. *)
Lemma first_occurrences_fixed l :
  Forall has_hashable_id l ->
  ForallOrdPairs (fun t u => same_id t u = false) l ->
  forall seen,
    Forall has_hashable_id seen ->
    Forall (fun t => existsb (same_id t) seen = false) l ->
    first_occurrences seen l = l.
Proof.
  intros Hl Hd. induction Hd as [|t l Ht Hd IH]; intros seen Hs Hu; simpl; [reflexivity|].
  inversion Hl as [|? ? Hht Hhl]; subst.
  inversion Hu as [|? ? Hut Hul]; subst.
  rewrite Hut. f_equal. apply IH; auto.
  - apply Forall_app. auto.
  - rewrite Forall_forall in *. intros u Hin.
    rewrite existsb_snoc, (Hul u Hin). simpl.
    rewrite same_id_sym by auto. apply Ht, Hin.
Qed.

(** X10.  The deduplication step of [main] on tracks with hashable
    IDs: its output has pairwise different IDs and is never longer
    than its input; applied to its own output it changes nothing; and
    a list whose IDs are pairwise different already is returned as it
    is. *)
Theorem unique_tracks_idempotent :
  forall all_tracks : list value,
    Forall has_hashable_id all_tracks ->
    exists unique,
      unique_tracks all_tracks = Ok unique /\
      ForallOrdPairs (fun t u => same_id t u = false) unique /\
      (List.length unique <= List.length all_tracks)%nat /\
      unique_tracks unique = Ok unique /\
      (ForallOrdPairs (fun t u => same_id t u = false) all_tracks ->
       unique = all_tracks).
Proof.
  intros all_tracks H.
  exists (first_occurrences [] all_tracks).
  destruct (first_occurrences_distinct all_tracks H [] (Forall_nil _)) as (Hu & Hd).
  assert (Hh : Forall has_hashable_id (first_occurrences [] all_tracks)).
  { apply first_occurrences_Forall, H. }
  split; [apply (remove_duplicates_first_occurrences all_tracks H [])|].
  split; [exact Hd|].
  split; [apply first_occurrences_length|].
  split.
  - unfold unique_tracks.
    pose proof (remove_duplicates_first_occurrences _ Hh []) as E.
    cbn [map app] in E. rewrite E. f_equal.
    apply first_occurrences_fixed; auto.
  - intros Hall. apply first_occurrences_fixed; auto.
    apply Forall_forall. intros t _. reflexivity.
Qed.

(** The merged lists of two artists who share a track. *)
Lemma unique_tracks_idempotent_witness :
  exists unique,
    unique_tracks shared_track_lists = Ok unique /\
    List.length unique = 3%nat /\
    unique_tracks unique = Ok unique.
Proof.
  destruct (unique_tracks_idempotent shared_track_lists)
    as (unique & Hu & _ & _ & Hi & _).
  - repeat constructor; eexists; split; reflexivity.
  - exists unique. split; [exact Hu|]. split; [|exact Hi].
    vm_compute in Hu. injection Hu as <-. reflexivity.
Defined.

(** ** The driver *)





(** ** The entries of the state document *)

Lemma lookup_remove_other k k' d : k <> k' -> lookup k (remove k' d) = lookup k d.
Proof.
  intros Hk. unfold remove. induction d as [|[k0 v0] d IH]; simpl; [reflexivity|].
  destruct (String.eqb_spec k0 k'); simpl.
  - subst k0. destruct (String.eqb_spec k' k); [congruence | exact IH].
  - destruct (String.eqb_spec k0 k); [reflexivity | exact IH].
Qed.

Lemma choices_touched_refl artist_name state : choices_touched artist_name state state.
Proof. split; reflexivity. Qed.

Lemma choices_touched_trans artist_name s1 s2 s3 :
  choices_touched artist_name s1 s2 -> choices_touched artist_name s2 s3 ->
  choices_touched artist_name s1 s3.
Proof.
  intros (H1 & H2) (H3 & H4). split.
  - intros key Hk. rewrite H3, H1 by exact Hk. reflexivity.
  - intros other Ho. rewrite H4, H2 by exact Ho. reflexivity.
Qed.

Lemma rewritten_refl keep state w : rewritten keep state w w.
Proof. left. reflexivity. Qed.

Lemma rewritten_trans keep state w1 w2 w3 :
  rewritten keep state w1 w2 -> rewritten keep state w2 w3 -> rewritten keep state w1 w3.
Proof.
  intros [H12 | (s2 & H12 & K12)] [H23 | (s3 & H23 & K23)].
  - left. congruence.
  - right. eauto.
  - right. exists s2. split; [congruence | exact K12].
  - right. eauto.
Qed.

(** Setting the choice for a name. *)
Lemma save_choice_touches state artist_name artist :
  preserves (rewritten (choices_touched artist_name) state)
    (save_choice state artist_name artist).
Proof.
  intros w r w'. unfold save_choice, bind, lift, ret, raise, save_state. intros H.
  repeat (break_hyp H; simpl in H; try discriminate).
  all: try (injection H as <- <-; left; reflexivity).
  all: injection H as <- <-.
  all: right; eexists; (split; [reflexivity|]).
  all: destruct state as [| | | | |d]; try discriminate.
  all: repeat match goal with
         | E : contains _ (VDict _) = Ok _ |- _ =>
             cbn [contains] in E; unfold has_key in E; injection E as E
         | E : setitem (VDict _) _ _ = Ok _ |- _ => cbn [setitem] in E; injection E as E
         end; subst.
  all: match goal with
       | E : getitem (VDict _) "artist_choices" = Ok ?c |- _ =>
           cbn [getitem] in E; rewrite ?lookup_update_same in E
       end.
  - match goal with
    | E : negb match lookup ?k d with _ => _ end = true |- _ =>
        destruct (lookup k d) eqn:Hd; [discriminate|]; clear E
    end.
    match goal with E : Ok _ = Ok _ |- _ => injection E as <- end.
    repeat match goal with
           | E : setitem (VDict _) _ _ = Ok _ |- _ =>
               cbn [setitem] in E; injection E as E
           end; subst.
    split.
    + intros key Hk. cbn [getitem]. rewrite !lookup_update_other by auto. reflexivity.
    + intros other Ho. unfold choice_of. cbn [getitem].
      rewrite lookup_update_same, Hd. cbn [res_bind getitem update lookup].
      destruct (String.eqb_spec artist_name other); [congruence | reflexivity].
  - match goal with
    | E : negb match lookup ?k d with _ => _ end = false |- _ =>
        destruct (lookup k d) as [choices|] eqn:Hd; [|discriminate]; clear E
    end.
    match goal with E : Ok _ = Ok _ |- _ => injection E as <- end.
    match goal with
    | E : setitem ?c _ _ = Ok _ |- _ =>
        destruct c; try discriminate E; cbn [setitem] in E; injection E as <-
    end.
    split.
    + intros key Hk. cbn [getitem]. rewrite lookup_update_other by auto. reflexivity.
    + intros other Ho. unfold choice_of. cbn [getitem].
      rewrite lookup_update_same, Hd. cbn [res_bind getitem].
      rewrite lookup_update_other by auto. reflexivity.
Qed.

Section ResolverState.

Variables (state : value) (artist_name : string).

Let R := rewritten (choices_touched artist_name) state.

Let R_refl : forall w, R w w := rewritten_refl _ _.
Let R_trans : forall w1 w2 w3, R w1 w2 -> R w2 w3 -> R w1 w3 := rewritten_trans _ _.

Lemma traffic_only_rewritten w w' : traffic_only w w' -> R w w'.
Proof. intros H. left. apply traffic_only_state_file, H. Qed.

Ltac state_prim :=
  idtac;
  lazymatch goal with
  | |- preserves _ (print _) =>
      intros ? ? ? ?H; apply traffic_only_rewritten; eapply print_traffic; eauto
  | |- preserves _ (api_get _ _ _) =>
      intros ? ? ? ?H; apply traffic_only_rewritten; eapply api_get_traffic; eauto
  | |- preserves _ (input _) =>
      let w := fresh "w" in
      intros w ? ? ?H; left; unfold input in *;
      destruct (keyboard w); injection H as <- <-; reflexivity
  | |- preserves _ (save_choice state artist_name _) => apply save_choice_touches
  end.

Lemma ask_choice_rewrites artists u :
  preserves R (ask_choice state artist_name artists u).
Proof. unfold ask_choice. frame R_refl R_trans state_prim. Qed.

Lemma search_artist_rewrites client_token :
  preserves R (search_artist state artist_name client_token).
Proof.
  unfold search_artist.
  apply (preserves_bind _ R_trans); [state_prim|intros results].
  apply (preserves_bind _ R_trans); [frame R_refl R_trans state_prim|intros found].
  destruct (negb found); [frame R_refl R_trans state_prim|].
  do 3 (apply (preserves_bind _ R_trans); [frame R_refl R_trans state_prim|intros ?]).
  destruct (_ =? 1)%nat; [frame R_refl R_trans state_prim|].
  apply (preserves_bind _ R_trans); [state_prim|intros ?].
  apply (preserves_bind _ R_trans); [frame R_refl R_trans state_prim|intros listed].
  apply (preserves_bind _ R_trans).
  { apply print_choices_preserves; auto.
    intros line w r w' H. apply traffic_only_rewritten. eapply print_traffic; eauto. }
  intros ? w r w' H. revert H.
  apply (preserves_while _ R_refl R_trans). intros s. apply ask_choice_rewrites.
Qed.

End ResolverState.

Lemma evict_block state artist_name (present : bool) w r w' :
  (if present then
     choices <- lift (getitem state "artist_choices") ;;
     choices <- lift (delitem choices artist_name) ;;
     state <- lift (setitem state "artist_choices" choices) ;;
     save_state state ;;
     ret state
   else ret state) w = Some (r, w') ->
  match r with
  | Ok state2 =>
      choices_touched artist_name state state2 /\
      ((w' = w /\ state2 = state) \/ w' = with_state_file (Document state2) w)
  | Raise _ => w' = w
  end.
Proof.
  destruct present.
  2: { intros [= <- <-]. split; [apply choices_touched_refl | auto]. }
  intros H.
  step_lift H as choices E1 else reflexivity.
  step_lift H as choices' E2 else reflexivity.
  step_lift H as state2 E3 else reflexivity.
  inv_bind H as u w1 Hs; [|discriminate]. unfold save_state in Hs.
  injection Hs as <- <-. injection H as <- <-.
  split; [|right; reflexivity].
  destruct (getitem_dict _ _ _ E1) as (d & -> & Hd).
  unfold delitem in E2. destruct choices as [| | | | |c]; try discriminate.
  destruct (has_key artist_name c); [|discriminate]. injection E2 as <-.
  cbn [setitem] in E3. injection E3 as <-. split.
  - intros key Hk. cbn [getitem]. rewrite lookup_update_other by auto. reflexivity.
  - intros other Ho. unfold choice_of. cbn [getitem].
    rewrite lookup_update_same, Hd. cbn [res_bind getitem].
    rewrite lookup_remove_other by auto. reflexivity.
Qed.

Lemma pure_lookup (state : value) (artist_name : string) :
  preserves eq
    (present <- lift (contains "artist_choices" state) ;;
     if present then
       choices <- lift (getitem state "artist_choices") ;;
       lift (contains artist_name choices)
     else ret false).
Proof.
  frame (@eq_refl World) (@eq_trans World) ltac:(fail).
Qed.

(** X12.  [find_artist] rewrites the state file at most at the choice
    for the name it resolves: when the call ends, however it ends, the
    file is as it was, or it holds the document that was loaded with
    every entry other than [artist_choices] (the user token among them)
    and the choice of every other name unchanged. *)
Theorem find_artist_touches_one_choice :
  forall (artist_name : string) (client_token : value) (w : World)
         (r : res value) (w' : World),
    find_artist artist_name client_token w = Some (r, w') ->
    rewritten (choices_touched artist_name) (loaded (state_file w)) w w'.
Proof.
  intros artist_name client_token w r w' H. unfold find_artist in H.
  destruct (load_state_loaded w) as (w0 & Hload & (_ & _ & _ & _ & Hf0) & _).
  inv_bind H as st w0' Hl; [|congruence].
  rewrite Hload in Hl. injection Hl as <- <-.
  set (state := loaded (state_file w)) in *.
  assert (Hgoal : rewritten (choices_touched artist_name) state w0 w' ->
                  rewritten (choices_touched artist_name) state w w').
  { intros [Hs | Hs]; [left; congruence | right; exact Hs]. }
  apply Hgoal. clear Hgoal Hload Hf0.
  inv_bind H as cached w1 Hc.
  2: { apply pure_lookup in Hc. subst. left. reflexivity. }
  apply pure_lookup in Hc. subst w1.
  destruct cached; [|eapply search_artist_rewrites; eauto].
  step_lift H as choices E1 else (left; reflexivity).
  step_lift H as entry E2 else (left; reflexivity).
  step_lift H as artist_id E3 else (left; reflexivity).
  step_lift H as exact_name E4 else (left; reflexivity).
  inv_bind H as u1 w1 Hp; [|discriminate]. unfold print in Hp. injection Hp as <- <-.
  inv_bind H as artist_data w2 Ha.
  2: { left. apply api_get_traffic, traffic_only_state_file in Ha. exact Ha. }
  apply api_get_traffic, traffic_only_state_file in Ha. cbn in Ha.
  destruct (truthy artist_data); [injection H as <- <-; left; exact Ha|].
  inv_bind H as u2 w3 Hp; [|discriminate]. unfold print in Hp. injection Hp as <- <-.
  step_lift H as present E5 else (left; exact Ha).
  inv_bind H as state2 w4 He.
  2: { apply evict_block in He. subst. left. exact Ha. }
  apply evict_block in He. destruct He as (Ht & Hw4).
  pose proof (search_artist_rewrites _ _ _ _ _ _ H) as Hs.
  destruct Hw4 as [(-> & ->) | ->].
  - destruct Hs as [Hs | Hs]; [left; cbn in Hs; congruence | right; exact Hs].
  - destruct Hs as [Hs | (state' & Hs & Ht')].
    + right. exists state2. split; [exact Hs | exact Ht].
    + right. exists state'. split; [exact Hs|].
      eapply choices_touched_trans; eauto.
Qed.

(** The saved artist "Gone" is no longer in the catalog: the choice is
    replaced by the one search result, and the token and the choice
    for "Other" are as they were. *)
Lemma find_artist_touches_one_choice_witness :
  exists artist w' state',
    find_artist "Gone" (VStr "token")
      (initial_world (catalog_gone false) (Document full_state) [] None)
    = Some (Ok artist, w') /\
    state_file w' = Document state' /\
    getitem state' "access_token" = Ok (VStr "saved_token") /\
    choice_of state' "Other" = choice_of full_state "Other" /\
    choice_of state' "Gone" <> choice_of full_state "Gone".
Proof.
  do 3 eexists. split; [vm_compute; reflexivity|].
  match goal with
  | |- state_file ?w' = _ /\ _ =>
      destruct (find_artist_touches_one_choice "Gone" (VStr "token")
                  (initial_world (catalog_gone false) (Document full_state) [] None)
                  (Ok test_artist) w') as [Hs | (state' & Hs & Hk & Ho)]
  end.
  - vm_compute. reflexivity.
  - vm_compute in Hs. discriminate.
  - split; [reflexivity|]. cbn in Hs. injection Hs as <-.
    split; [apply Hk; discriminate|].
    split; [apply Ho; discriminate|].
    vm_compute. discriminate.
Defined.

Lemma tokens_touched_update key x d d' :
  (key = "access_token" \/ key = "refresh_token" \/ key = "expires_at") ->
  tokens_touched (VDict d) (VDict d') ->
  tokens_touched (VDict d) (VDict (update key x d')).
Proof.
  intros Hkey Ht k H1 H2 H3. cbn [getitem].
  rewrite lookup_update_other by (destruct Hkey as [-> | [-> | ->]]; auto).
  apply (Ht k H1 H2 H3).
Qed.

Lemma tokens_touched_refl state : tokens_touched state state.
Proof. intros k _ _ _. reflexivity. Qed.

Lemma refresh_saved_token_rewrites float_add client_id client_secret state current_time
      w r w' :
  refresh_saved_token float_add client_id client_secret state current_time w
  = Some (r, w') ->
  rewritten (fun state state' =>
               tokens_touched state state' /\
               forall token, r = Ok (Some token) ->
                             getitem state' "access_token" = Ok token)
    state w w'.
Proof.
  unfold refresh_saved_token. intros H.
  step_lift H as has_refresh E1 else (left; reflexivity).
  destruct has_refresh; [|injection H as <- <-; left; reflexivity].
  inv_bind H as u w1 Hp; [|discriminate Hp].
  unfold print in Hp. injection Hp as <- <-.
  step_lift H as refresh_token E2 else (left; reflexivity).
  inv_bind H as token_data w0 Hm.
  2: { apply refresh_access_token_outcome in Hm.
       destruct Hm as (_ & _ & _ & _ & Hf & _). left. exact Hf. }
  apply refresh_access_token_outcome in Hm.
  destruct Hm as (_ & _ & _ & _ & Hf & _). cbn in Hf.
  destruct (truthy token_data); [|injection H as <- <-; left; exact Hf].
  step_lift H as access_token E3 else (left; exact Hf).
  step_lift H as state1 E4 else (left; exact Hf).
  step_lift H as expires_in E5 else (left; exact Hf).
  step_lift H as expires_at E6 else (left; exact Hf).
  step_lift H as state2 E7 else (left; exact Hf).
  step_lift H as renewed E8 else (left; exact Hf).
  destruct state as [| | | | |d]; try discriminate. cbn in E4. injection E4 as <-.
  cbn in E7. injection E7 as <-.
  assert (H2 : tokens_touched (VDict d)
                 (VDict (update "expires_at" expires_at (update "access_token" access_token d)))).
  { apply tokens_touched_update; auto. apply tokens_touched_update; auto.
    apply tokens_touched_refl. }
  inv_bind H as state3 w2 Hr3.
  2: { destruct renewed; [|discriminate].
       inv_bind Hr3 as x w3 Hx3; inv_lift Hx3 as E9; try discriminate; left; exact Hf. }
  assert (Hd : w2 = w0 /\ tokens_touched (VDict d) state3).
  { destruct renewed.
    - inv_bind Hr3 as x w3 Hx3; [|discriminate]. inv_lift Hx3 as E9.
      inv_lift Hr3 as E10. cbn in E10. subst state3.
      split; [reflexivity|]. apply tokens_touched_update; auto.
    - injection Hr3 as <- <-. auto. }
  destruct Hd as (-> & H3).
  inv_bind H as u' w3 Hsv; [|discriminate]. unfold save_state in Hsv.
  injection Hsv as <- <-.
  right. exists state3.
  inv_bind H as tok w4 Hg.
  - inv_lift Hg as E11. injection H as <- <-.
    split; [reflexivity|]. split; [exact H3|].
    intros token [= <-]. exact E11.
  - inv_lift Hg as E11.
    split; [reflexivity|]. split; [exact H3 | discriminate].
Qed.

Lemma authorize_rewrites hostname port float_add client_id client_secret callback_url
      state current_time w r w' :
  authorize hostname port float_add client_id client_secret callback_url state
    current_time w
  = Some (r, w') ->
  rewritten (fun state state' =>
               tokens_touched state state' /\
               forall token, r = Ok token -> getitem state' "access_token" = Ok token)
    state w w'.
Proof.
  unfold authorize. intros H.
  step_lift H as host E1 else (left; reflexivity).
  inv_bind H as is_local w1 Hl.
  2: { destruct host; [discriminate|]. injection Hl as <- <-. left; reflexivity. }
  assert (w1 = w) as ->.
  { destruct host; [injection Hl as <- <-; reflexivity | discriminate]. }
  clear Hl.
  inv_bind H as auth_state w1 Hu; [|discriminate].
  unfold urandom in Hu. injection Hu as <- <-.
  inv_bind H as server w1 Hsrv.
  2: { destruct (start_callback_server_quiet hostname port callback_url w)
         as (sv & wq & Hq & _). congruence. }
  destruct (start_callback_server_quiet hostname port callback_url w)
    as (sv & wq & Hq & Hquiet).
  rewrite Hq in Hsrv. injection Hsrv as <- <-. clear Hq.
  destruct Hquiet as (_ & _ & _ & _ & Hqf).
  inv_bind H as u1 w2 Hp1; [|discriminate]. unfold print in Hp1. injection Hp1 as <- <-.
  inv_bind H as u2 w2 Hp2; [|discriminate]. unfold print in Hp2. injection Hp2 as <- <-.
  inv_bind H as u3 w2 Hop; [|discriminate]. unfold webbrowser_open in Hop.
  injection Hop as <- <-.
  inv_bind H as auth_code w3 Hcode.
  2: { apply obtain_code_quiet in Hcode.
       destruct Hcode as (_ & _ & _ & _ & Hf3). cbn in Hf3. left. congruence. }
  assert (Hf3 : state_file w3 = state_file w).
  { apply obtain_code_quiet in Hcode.
    destruct Hcode as (_ & _ & _ & _ & Hf3). cbn in Hf3. congruence. }
  clear Hcode.
  destruct (truthy auth_code); cbn [negb] in H.
  2: { unfold bind, print, ret in H. injection H as <- <-. left. exact Hf3. }
  inv_bind H as token_data w4 Hex.
  2: { apply exchange_auth_code_outcome in Hex.
       destruct Hex as (_ & _ & _ & _ & Hf & _). left. congruence. }
  apply exchange_auth_code_outcome in Hex.
  destruct Hex as (_ & _ & _ & _ & Hf & _).
  assert (Hf4 : state_file w4 = state_file w) by congruence.
  destruct (truthy token_data); cbn [negb] in H.
  2: { unfold bind, print, ret in H. injection H as <- <-. left. exact Hf4. }
  step_lift H as access_token E3 else (left; exact Hf4).
  step_lift H as state1 E4 else (left; exact Hf4).
  step_lift H as refresh_token E5 else (left; exact Hf4).
  step_lift H as state2 E6 else (left; exact Hf4).
  step_lift H as expires_in E7 else (left; exact Hf4).
  step_lift H as expires_at E8 else (left; exact Hf4).
  step_lift H as state3 E9 else (left; exact Hf4).
  inv_bind H as u4 w5 Hsv; [|discriminate]. unfold save_state in Hsv.
  injection Hsv as <- <-.
  destruct state as [| | | | |d]; try discriminate. cbn in E4. injection E4 as <-.
  cbn in E6. injection E6 as <-. cbn in E9. injection E9 as <-.
  right. eexists. split; [|split].
  - inv_lift H as E10; reflexivity.
  - apply tokens_touched_update; auto. apply tokens_touched_update; auto.
    apply tokens_touched_update; auto. apply tokens_touched_refl.
  - intros token ->. apply lift_inv in H. destruct H as (H & _).
    rewrite E3 in H. injection H as ->. cbn [getitem].
    rewrite !lookup_update_other by discriminate.
    rewrite lookup_update_same. reflexivity.
Qed.

(** Where [get_user_auth_token] has rewritten the state file: the three
    token entries at most have changed, and the token returned is the
    one saved. *)
Lemma get_user_auth_token_rewrites hostname port float_add client_id client_secret
      callback_url w r w' :
  get_user_auth_token hostname port float_add client_id client_secret callback_url w
  = Some (r, w') ->
  rewritten (fun state state' =>
               tokens_touched state state' /\
               forall token, r = Ok token -> getitem state' "access_token" = Ok token)
    (loaded (state_file w)) w w'.
Proof.
  intros H. unfold get_user_auth_token in H.
  destruct (load_state_loaded w) as (w0 & Hload & (_ & _ & _ & _ & Hf0) & _).
  inv_bind H as st w0' Hl; [|congruence].
  rewrite Hload in Hl. injection Hl as <- <-.
  set (state := loaded (state_file w)) in *.
  match goal with
  | |- rewritten ?K state w w' =>
      assert (Hgoal : rewritten K state w0 w' -> rewritten K state w w')
  end.
  { intros [Hs | Hs]; [left; congruence | right; exact Hs]. }
  apply Hgoal. clear Hgoal Hload Hf0.
  inv_bind H as current_time w1 Ht; [|discriminate].
  unfold time in Ht. injection Ht as <- <-.
  step_lift H as valid E1 else (left; reflexivity).
  destruct valid.
  - inv_bind H as u w1 Hp; [|discriminate]. unfold print in Hp. injection Hp as <- <-.
    inv_lift H as E2; left; reflexivity.
  - inv_bind H as refreshed w1 Href.
    2: { apply refresh_saved_token_rewrites in Href.
         destruct Href as [Hs | (state' & Hs & Hk & _)]; [left; exact Hs|].
         right. exists state'. split; [exact Hs|]. split; [exact Hk | discriminate]. }
    destruct refreshed as [access_token|].
    + apply refresh_saved_token_rewrites in Href. injection H as <- <-.
      destruct Href as [Hs | (state' & Hs & Hk & Ha)]; [left; exact Hs|].
      right. exists state'. split; [exact Hs|]. split; [exact Hk|].
      intros token [= <-]. apply Ha. reflexivity.
    + pose proof (refresh_saved_token_outcome _ _ _ _ _ _ _ _ Href)
        as (_ & _ & _ & _ & (Hf1 & _)).
      apply authorize_rewrites in H.
      destruct H as [Hs' | (state'' & Hs' & Hk' & Ha')]; [left; congruence|].
      right. exists state''. auto.
Qed.

(** X13.  [get_user_auth_token] rewrites the state file at most at the
    three entries of the user token: when the call ends, however it
    ends, the file is as it was, or it holds the document that was
    loaded with every entry other than [access_token], [refresh_token]
    and [expires_at] unchanged; the saved artist choices are never
    lost. *)
Theorem get_user_auth_token_touches_tokens :
  forall (hostname : string -> res (option string)) (port : string -> res (option Z))
         (float_add : Q -> Q -> res Q)
         (client_id client_secret callback_url : string) (w : World)
         (r : res value) (w' : World),
    get_user_auth_token hostname port float_add client_id client_secret callback_url w
    = Some (r, w') ->
    rewritten tokens_touched (loaded (state_file w)) w w'.
Proof.
  intros hostname port float_add client_id client_secret callback_url w r w' H.
  destruct (get_user_auth_token_rewrites _ _ _ _ _ _ _ _ _ H)
    as [Hs | (state' & Hs & Hk & _)]; [left; exact Hs|].
  right. exists state'. auto.
Qed.

(** A refresh with an expired token: the new token is saved and the
    two choices are as they were. *)
Lemma get_user_auth_token_touches_tokens_witness :
  exists w' state',
    get_user_auth_token localhost port_8888 binary64_add "id" "secret"
      "http://localhost:8888/callback"
      (initial_world (token_endpoint (VStr "new_token")) (Document full_state) [] None)
    = Some (Ok (VStr "new_token"), w') /\
    state_file w' = Document state' /\
    getitem state' "access_token" = Ok (VStr "new_token") /\
    getitem state' "artist_choices" = getitem full_state "artist_choices".
Proof.
  do 2 eexists. split; [vm_compute; reflexivity|].
  match goal with
  | |- state_file ?w' = _ /\ _ =>
      destruct (get_user_auth_token_touches_tokens localhost port_8888 binary64_add
                  "id" "secret" "http://localhost:8888/callback"
                  (initial_world (token_endpoint (VStr "new_token"))
                     (Document full_state) [] None)
                  (Ok (VStr "new_token")) w') as [Hs | (state' & Hs & Hk)]
  end.
  - vm_compute. reflexivity.
  - vm_compute in Hs. discriminate.
  - split; [reflexivity|]. cbn in Hs. injection Hs as <-.
    split; [reflexivity|]. apply Hk; discriminate.
Defined.

Lemma get_user_auth_token_now hostname port float_add client_id client_secret
      callback_url w r w' :
  get_user_auth_token hostname port float_add client_id client_secret callback_url w
  = Some (r, w') ->
  now w' = now w.
Proof.
  intros H. unfold get_user_auth_token in H.
  destruct (load_state_loaded w) as (w0 & Hload & (_ & Hn0 & _) & _).
  inv_bind H as st w0' Hl; [|congruence].
  rewrite Hload in Hl. injection Hl as <- <-.
  inv_bind H as current_time w1 Ht; [|discriminate].
  unfold time in Ht. injection Ht as <- <-.
  step_lift H as valid E1 else (exact Hn0).
  destruct valid.
  - inv_bind H as u w1 Hp; [|discriminate]. unfold print in Hp. injection Hp as <- <-.
    inv_lift H as E2; exact Hn0.
  - inv_bind H as refreshed w1 Href.
    2: { apply refresh_saved_token_outcome in Href.
         destruct Href as (_ & Hn & _). congruence. }
    apply refresh_saved_token_outcome in Href. destruct Href as (_ & Hn & _).
    destruct refreshed as [access_token|]; [injection H as <- <-; congruence|].
    apply authorize_outcome in H. destruct H as (_ & Hn' & _). congruence.
Qed.

(** X14.  What [get_user_auth_token] saves is what the next call
    reads: when a call has rewritten the state file and returned a
    token, and the expiry time it saved is greater than the current
    time plus 120 seconds as the float sum gives it, a second call on
    the same clock reading returns the same token and contacts
    nothing. *)
Theorem saved_token_round_trip :
  forall (hostname : string -> res (option string)) (port : string -> res (option Z))
         (float_add : Q -> Q -> res Q)
         (client_id client_secret callback_url : string) (w : World)
         (token : value) (w' : World) (state' expires_at : value) (q limit : Q),
    let call := get_user_auth_token hostname port float_add client_id client_secret
                  callback_url in
    call w = Some (Ok token, w') ->
    state_file w' <> state_file w ->
    state_file w' = Document state' ->
    getitem state' "expires_at" = Ok expires_at ->
    as_number expires_at = Some q ->
    float_add (now w) (inject_Z 120) = Ok limit ->
    (limit < q)%Q ->
    call w' = Some (Ok token,
                    with_console (console w' ++ [[Lit "Using saved access token"]]) w').
Proof.
  intros hostname port float_add client_id client_secret callback_url w token w'
         state' expires_at q limit call H Hne Hdoc He Hq Hl Hlt.
  assert (Hf : fresh_token float_add (loaded (state_file w')) (now w') token).
  { rewrite Hdoc. cbn [loaded].
    rewrite (get_user_auth_token_now _ _ _ _ _ _ _ _ _ H).
    destruct (get_user_auth_token_rewrites _ _ _ _ _ _ _ _ _ H)
      as [Hs | (state'' & Hs & _ & Ha)]; [contradiction|].
    rewrite Hdoc in Hs. injection Hs as <-.
    split; [apply Ha; reflexivity|].
    exists expires_at, q, limit. auto. }
  destruct (get_user_auth_token_total hostname port float_add client_id client_secret
              callback_url w') as (r2 & w2 & H2).
  unfold call. rewrite H2.
  destruct (get_user_auth_token_outcome _ _ _ _ _ _ _ _ _ H2)
    as [(tok & (Hg & _) & -> & ->) | (Hn & _)].
  - destruct Hf as (Hg' & _). rewrite Hg in Hg'. injection Hg' as <-. reflexivity.
  - exfalso. apply (Hn token). exact Hf.
Qed.

(** A refresh with an expired token, then a second call. *)
Lemma saved_token_round_trip_witness :
  exists w' w'',
    get_user_auth_token localhost port_8888 binary64_add "id" "secret"
      "http://localhost:8888/callback"
      (initial_world (token_endpoint (VStr "new_token")) (Document full_state) [] None)
    = Some (Ok (VStr "new_token"), w') /\
    get_user_auth_token localhost port_8888 binary64_add "id" "secret"
      "http://localhost:8888/callback" w'
    = Some (Ok (VStr "new_token"), w'') /\
    sent w'' = sent w' /\ List.length (sent w') = 1%nat.
Proof.
  do 2 eexists. split; [vm_compute; reflexivity|].
  split; [|split; [|reflexivity]].
  - eapply (saved_token_round_trip localhost port_8888 binary64_add "id" "secret"
              "http://localhost:8888/callback"
              (initial_world (token_endpoint (VStr "new_token"))
                 (Document full_state) [] None)).
    + vm_compute. reflexivity.
    + discriminate.
    + reflexivity.
    + reflexivity.
    + reflexivity.
    + vm_compute. reflexivity.
    + vm_compute. reflexivity.
  - reflexivity.
Defined.

(** ** The listener and the browser *)

Lemma idle_refl w : idle w w.
Proof. split; reflexivity. Qed.

Lemma idle_trans w1 w2 w3 : idle w1 w2 -> idle w2 w3 -> idle w1 w3.
Proof. unfold idle. intuition congruence. Qed.

Ltac idle_prim :=
  idtac;
  lazymatch goal with
  | |- preserves _ (print _) => intros ? ? ? [= <- <-]; split; reflexivity
  | |- preserves _ (save_state _) => intros ? ? ? [= <- <-]; split; reflexivity
  | |- preserves _ (requests_post_data _ _ _) => intros ? ? ? [= <- <-]; split; reflexivity
  | |- preserves _ (input _) =>
      let w := fresh "w" in
      let E := fresh "E" in
      intros w ? ? E; unfold input in E;
      destruct (keyboard w); injection E as <- <-; split; reflexivity
  end.

Ltac idleness := frame idle_refl idle_trans idle_prim.

Lemma refresh_saved_token_idle float_add client_id client_secret state current_time :
  preserves idle (refresh_saved_token float_add client_id client_secret state current_time).
Proof. unfold refresh_saved_token, refresh_access_token. idleness. Qed.

Lemma start_callback_server_cases hostname port callback_url w r w1 :
  start_callback_server hostname port callback_url w = Some (r, w1) ->
  exists server,
    r = Ok server /\ opened w1 = opened w /\
    (server = true ->
     exists host, hostname callback_url = Ok (Some host) /\ is_loopback host = true) /\
    (server = false -> listening w1 = listening w).
Proof.
  unfold start_callback_server, try_except, bind, lift, ret, raise, print.
  destruct (hostname callback_url) as [[host|]|e]; simpl;
    destruct (port callback_url) as [p|e']; simpl;
    try destruct (is_loopback host) eqn:Hl; simpl;
    try destruct (can_listen w); simpl;
    intros [= <- <-]; eexists; (split; [reflexivity|]); simpl;
    (split; [reflexivity|]); split; try discriminate; eauto.
Qed.

Lemma wait_for_code_idle : preserves idle wait_for_code.
Proof.
  intros w r w'. unfold wait_for_code. intros [= <- <-].
  destruct (AUTH_CODE_RECEIVED w); [split; reflexivity|].
  destruct (listening w); [destruct (redirect w)|]; split; reflexivity.
Qed.

(** Waiting for the code, or asking for it: a listener that was started
    is stopped. *)
Lemma obtain_code_listener (is_local_callback server : bool) w r w' :
  (if is_local_callback then
     print [Lit "Waiting for authorization... (check your browser)"] ;;
     wait_for_code ;;
     stop_callback_server server ;;
     read_AUTH_CODE
   else
     print [NL; Lit "After authorizing in the browser, you will be redirected to your callback URL."] ;;
     print [Lit "Please copy the 'code' parameter from the URL and paste it here."] ;;
     line <- input [NL; Lit "Enter the authorization code: "] ;;
     ret (VStr (strip line))) w = Some (r, w') ->
  opened w' = opened w /\
  (if is_local_callback && server then listening w' = None
   else listening w' = listening w).
Proof.
  destruct is_local_callback; intros H.
  - inv_bind H as u1 w1 H1; [|discriminate].
    unfold print in H1. injection H1 as <- <-.
    inv_bind H as u2 w2 H2; [|discriminate].
    apply wait_for_code_idle in H2. destruct H2 as (Hl2 & Ho2). cbn in Hl2, Ho2.
    inv_bind H as u3 w3 H3; [|discriminate].
    unfold stop_callback_server in H3. injection H3 as <- <-.
    unfold read_AUTH_CODE in H. injection H as <- <-.
    destruct server; cbn; auto.
  - assert (Hi : preserves idle
                   (print [NL; Lit "After authorizing in the browser, you will be redirected to your callback URL."] ;;
                    print [Lit "Please copy the 'code' parameter from the URL and paste it here."] ;;
                    line <- input [NL; Lit "Enter the authorization code: "] ;;
                    ret (VStr (strip line)))) by idleness.
    apply Hi in H. destruct H as (Hl & Ho). cbn. auto.
Qed.

(** X15.  [get_user_auth_token] does not leave the listener running
    and opens at most one page: when a call ends, however it ends, the
    listener is as it was before the call or is stopped, so that a call
    made without a listener leaves none, and the browser has been opened
    once at most. *)
Theorem get_user_auth_token_releases_listener :
  forall (hostname : string -> res (option string)) (port : string -> res (option Z))
         (float_add : Q -> Q -> res Q)
         (client_id client_secret callback_url : string) (w : World)
         (r : res value) (w' : World),
    get_user_auth_token hostname port float_add client_id client_secret callback_url w
    = Some (r, w') ->
    (listening w' = listening w \/ listening w' = None) /\
    (listening w = None -> listening w' = None) /\
    (opened w' = opened w \/ exists auth_url, opened w' = opened w ++ [auth_url]).
Proof.
  intros hostname port float_add client_id client_secret callback_url w r w' H.
  assert (Hmain : (listening w' = listening w \/ listening w' = None) /\
                  (opened w' = opened w \/ exists auth_url, opened w' = opened w ++ [auth_url])).
  2: { destruct Hmain as (Hl & Ho). split; [exact Hl|]. split; [|exact Ho].
       intros Hn. destruct Hl as [Hl | Hl]; congruence. }
  unfold get_user_auth_token in H.
  inv_bind H as state w0 Hl.
  2: { unfold load_state in Hl. destruct (state_file w); discriminate. }
  assert (H0 : idle w w0).
  { unfold load_state in Hl. destruct (state_file w); injection Hl as <- <-;
      split; reflexivity. }
  clear Hl.
  inv_bind H as current_time w1 Ht; [|discriminate].
  unfold time in Ht. injection Ht as <- <-.
  destruct H0 as (Hl0 & Ho0).
  step_lift H as valid E1 else (split; left; assumption).
  destruct valid.
  { inv_bind H as u w1 Hp; [|discriminate]. unfold print in Hp. injection Hp as <- <-.
    inv_lift H as E2; split; left; assumption. }
  inv_bind H as refreshed w1 Href.
  2: { apply refresh_saved_token_idle in Href. destruct Href as (Hl1 & Ho1).
       split; left; congruence. }
  apply refresh_saved_token_idle in Href. destruct Href as (Hl1 & Ho1).
  destruct refreshed as [access_token|];
    [injection H as <- <-; split; left; congruence|].
  assert (Hl2 : listening w1 = listening w) by congruence.
  assert (Ho2 : opened w1 = opened w) by congruence.
  clear Hl0 Ho0 Hl1 Ho1.
  unfold authorize in H.
  step_lift H as host E3 else (split; left; assumption).
  inv_bind H as is_local w2 Hloc.
  2: { destruct host; [discriminate|]. injection Hloc as <- <-. split; left; assumption. }
  assert (w2 = w1 /\ exists h, host = Some h /\ is_local = is_loopback h) as (-> & h & -> & ->).
  { destruct host as [h|]; [injection Hloc as <- <-; eauto | discriminate]. }
  clear Hloc.
  inv_bind H as auth_state w2 Hu; [|discriminate].
  unfold urandom in Hu. injection Hu as <- <-.
  inv_bind H as server w2 Hsrv.
  2: { apply start_callback_server_cases in Hsrv.
       destruct Hsrv as (sv & Hsv & _). discriminate. }
  apply start_callback_server_cases in Hsrv.
  destruct Hsrv as (sv & Hsv & Ho3 & Htrue & Hfalse). injection Hsv as <-.
  assert (Hsv : is_loopback h && server = server).
  { destruct server; [|apply andb_false_r].
    destruct (Htrue eq_refl) as (h' & Eh & Hh'). rewrite Eh in E3.
    injection E3 as <-. rewrite Hh'. reflexivity. }
  inv_bind H as u1 w3 Hp1; [|discriminate]. unfold print in Hp1. injection Hp1 as <- <-.
  inv_bind H as u2 w3 Hp2; [|discriminate]. unfold print in Hp2. injection Hp2 as <- <-.
  inv_bind H as u3 w3 Hop; [|discriminate]. unfold webbrowser_open in Hop.
  injection Hop as <- <-.
  match type of H with
  | bind _ ?k _ = _ =>
      assert (Hrest : forall auth_code, preserves idle (k auth_code))
  end.
  { intros auth_code. unfold exchange_auth_code. idleness. }
  assert (Hcode : forall rc w4,
             (if is_loopback h then
                print [Lit "Waiting for authorization... (check your browser)"] ;;
                wait_for_code ;;
                stop_callback_server server ;;
                read_AUTH_CODE
              else
                print [NL; Lit "After authorizing in the browser, you will be redirected to your callback URL."] ;;
                print [Lit "Please copy the 'code' parameter from the URL and paste it here."] ;;
                line <- input [NL; Lit "Enter the authorization code: "] ;;
                ret (VStr (strip line)))
               (with_opened
                  (opened w2 ++ [authorize_url client_id callback_url (entropy w1)])
                  (with_console
                     ((console w2 ++ [[NL; Lit "Opening your browser to authorize access to your Spotify account..."]]) ++
                      [[Lit "If your browser doesn't open automatically, visit this URL:"; NL]
                       ++ authorize_url client_id callback_url (entropy w1) ++ [NL]])
                     (with_console
                        (console w2 ++ [[NL; Lit "Opening your browser to authorize access to your Spotify account..."]])
                        w2)))
             = Some (rc, w4) ->
             (listening w4 = listening w \/ listening w4 = None) /\
             opened w4 = opened w ++ [authorize_url client_id callback_url (entropy w1)]).
  { intros rc w4 Hc. apply obtain_code_listener in Hc. rewrite Hsv in Hc.
    destruct Hc as (Ho4 & Hl4). cbn in Ho4, Hl4. split; [|congruence].
    destruct server; [right; exact Hl4|].
    left. rewrite Hl4, (Hfalse eq_refl). exact Hl2. }
  inv_bind H as auth_code w4 Hc.
  - apply Hrest in H. destruct H as (Hl5 & Ho5).
    destruct (Hcode _ _ Hc) as (Hl4 & Ho4). split.
    + destruct Hl4 as [Hl4 | Hl4]; [left | right]; congruence.
    + right. eexists. rewrite Ho5. exact Ho4.
  - destruct (Hcode _ _ Hc) as (Hl4 & Ho4). split; [exact Hl4|].
    right. eexists. exact Ho4.
Qed.

(** The interactive flow on the default callback URL: the listener is
    started, the code arrives, and the listener is stopped. *)
Lemma get_user_auth_token_releases_listener_witness :
  exists w',
    get_user_auth_token localhost port_8888 binary64_add "id" "secret"
      "http://localhost:8888/callback"
      (initial_world (token_endpoint (VStr "new_token")) Missing [] (Some "code1"))
    = Some (Ok (VStr "new_token"), w') /\
    listening w' = None /\ List.length (opened w') = 1%nat.
Proof.
  eexists. split; [vm_compute; reflexivity|].
  match goal with
  | |- listening ?w' = _ /\ _ =>
      destruct (get_user_auth_token_releases_listener localhost port_8888 binary64_add
                  "id" "secret" "http://localhost:8888/callback"
                  (initial_world (token_endpoint (VStr "new_token")) Missing []
                     (Some "code1"))
                  (Ok (VStr "new_token")) w') as (_ & Hn & _)
  end.
  - vm_compute. reflexivity.
  - split; [apply Hn; reflexivity | reflexivity].
Defined.
